(** * Video Toolbox: frame extraction, GIF conversion, audio split and
    audio extraction pipelines.

  A shallow embedding of the TypeScript sources

    - [src/app/tools/frame-extractor/functions.ts]
    - [src/app/tools/video-to-gif/functions.ts]
    - the audio splitter's and the audio extractor's [functions.ts]

  Modelling conventions.

  - A JavaScript [number] is a finite binary64 value, held as the rational
    number it denotes ([Q]); values that the code produces with
    [Math.round], [Math.floor] or [Math.ceil] are integers ([Z]).  Where the
    result of an operation decides how many units a run has, where they
    start or how large an image is (the quotient behind the segment count
    and the products behind the segment offsets of the audio split; the
    sum, difference, quotient and products behind the frame count, the
    frame times and the frame delay of the GIF conversion; the products
    behind the GIF dimensions), the operation is the binary64 one: the
    exact result rounded to the nearest binary64 number, the even one on a
    tie ([JS.add], [JS.sub], [JS.mul], [JS.div]).  [JS.num x] is the number
    that the literal [x] denotes: the arguments of these operations are
    meant to be numbers, [JS.num 0.7] and not [0.7].  The seek clamps
    ([duration - 0.1], [duration - 0.01]) and the percent values are kept
    exact; what is stated of them is their order and their constants.
    [NaN], the infinities, overflow and negative zero are outside the
    model.  The one division by an input, [1 / options.fps], is an infinity
    in JavaScript when [fps] is 0; the statements about GIF conversions are
    made for [fps] other than 0.
  - Browser and engine behaviour that the repository does not implement
    (media decoding, canvas encoding, the transcoding engine, the GIF
    encoder) is a record of oracles, [Env]; every theorem holds for every
    [Env].
  - An [async] function is a computation over a [World] that either
    returns or throws; every awaited promise is assumed to settle, and
    every seek of the frame extractor to be answered.
  - The engine singleton [getFFmpeg] is a transition system over the three
    module variables, whose events are the calls and the resumptions that
    the JavaScript event loop can schedule.  The audio splitter and the
    audio extractor each declare it, so a browser session holds two such
    systems side by side ([PageSessions]). *)

From Stdlib Require Import QArith Qround Qminmax Qpower Qreduction Lqa ZArith Lia.
From Stdlib Require Floats.
From Stdlib Require Import Ascii String DecimalString.
From stdpp Require Import gmap strings list.

Open Scope Q_scope.

(** ** Binary64 numbers *)

Module Binary64.

(** [floor (log2 x)] for [x > 0]. *)
Definition ilog2 (x : Q) : Z :=
  let k := (Z.log2 (Qnum x) - Z.log2 (Z.pos (Qden x)))%Z in
  if Qle_bool (2 ^ k) x then k else (k - 1)%Z.

(** The exponent of the last place of the binary64 numbers around
    [x > 0]: 53 significant bits, and no exponent below -1074 (the
    subnormal numbers). *)
Definition ulpExponent (x : Q) : Z := Z.max (ilog2 x - 52) (-1074).

(** The integer nearest to [x], the even one of two that are equally
    near. *)
Definition nearestEven (x : Q) : Z :=
  let f := Qfloor x in
  match Qcompare (x - inject_Z f) (1 # 2) with
  | Lt => f
  | Gt => (f + 1)%Z
  | Eq => if Z.even f then f else (f + 1)%Z
  end.

Definition roundPositive (x : Q) : Q :=
  let e := ulpExponent x in
  inject_Z (nearestEven (x / 2 ^ e)) * 2 ^ e.

(** The binary64 number nearest to [x], the one with the even significand
    on a tie (the rounding of IEEE 754 that JavaScript uses), for [x] of
    magnitude below [2 ^ 1024]. *)
Definition fl (x : Q) : Q :=
  let x := Qred x in
  match Qnum x with
  | Z0 => 0
  | Zpos _ => Qred (roundPositive x)
  | Zneg _ => Qred (- roundPositive (- x))
  end.

(** The rational that a finite binary64 number of the kernel denotes. *)
Definition ofFloat (f : PrimFloat.float) : option Q :=
  match FloatOps.Prim2SF f with
  | SpecFloat.S754_zero _ => Some 0
  | SpecFloat.S754_finite s m e =>
      Some (Qred ((if s then -1 else 1) * inject_Z (Z.pos m) * 2 ^ e))
  | _ => None
  end.

End Binary64.

(** ** JavaScript primitives used by the sources *)

Module JS.

(** A number literal, and [+], [-], [*], [/] on numbers. *)
Definition num (x : Q) : Q := Binary64.fl x.
Definition add (x y : Q) : Q := Binary64.fl (x + y).
Definition sub (x y : Q) : Q := Binary64.fl (x - y).
Definition mul (x y : Q) : Q := Binary64.fl (x * y).
Definition div (x y : Q) : Q := Binary64.fl (x / y).

(** [Math.floor], [Math.ceil], [Math.round] (halves go up), [Math.max],
    [Math.min]. *)
Definition Math_floor (x : Q) : Z := Qfloor x.
Definition Math_ceil (x : Q) : Z := Qceiling x.
Definition Math_round (x : Q) : Z := Qfloor (x + (1 # 2)).
Definition Math_max (x y : Q) : Q := Qmax x y.
Definition Math_min (x y : Q) : Q := Qmin x y.

(** [String(n)] for an integer [n]. *)
Definition String_ (n : Z) : string := NilEmpty.string_of_int (Z.to_int n).

(** [s.padStart(len, pad)] for a one-character [pad]. *)
Definition padStart (len : nat) (pad : ascii) (s : string) : string :=
  String.append (string_of_list_ascii (repeat pad (len - String.length s))) s.

Definition isDot (c : ascii) : bool := Ascii.eqb c "."%char.
Definition isSlash (c : ascii) : bool := Ascii.eqb c "/"%char.

(** Does the whole of [s] match [[^/.]+] ? *)
Fixpoint noSlashDot (s : string) : bool :=
  match s with
  | EmptyString => true
  | String c rest => negb (isSlash c) && negb (isDot c) && noSlashDot rest
  end.

(** Does the whole of [s] match [\.[^/.]+$] ? *)
Definition matchesExt (s : string) : bool :=
  match s with
  | String c (String d rest as tl) => isDot c && noSlashDot tl
  | _ => false
  end.

(** [s.replace(/\.[^/.]+$/, "")]: the leftmost position at which the
    pattern matches up to the end of the input is cut off. *)
Fixpoint stripExtension (s : string) : string :=
  match s with
  | EmptyString => EmptyString
  | String c rest =>
      if matchesExt s then EmptyString else String c (stripExtension rest)
  end.

(** [s.split(".").pop()]: the text after the last dot, the whole of [s]
    when it has no dot. *)
Fixpoint lastDotPart (acc : string) (s : string) : string :=
  match s with
  | EmptyString => acc
  | String c rest =>
      if isDot c then lastDotPart EmptyString rest
      else lastDotPart (String.append acc (String c EmptyString)) rest
  end.

Definition split_dot_pop (s : string) : string := lastDotPart EmptyString s.

(** [x || dflt] on strings: the empty string is falsy. *)
Definition orElse (x dflt : string) : string :=
  match x with EmptyString => dflt | _ => x end.

End JS.

(** ** Files, blobs, results and the world the pipelines run in *)

Module Runtime.

Definition bytes := list Byte.byte.

Record File := { name : string; content : bytes }.
Definition size (f : File) : nat := length (content f).

Record Blob := { data : bytes; type : string }.
Definition blobSize (b : Blob) : nat := length (data b).

(** [ProcessedFile] of [components/ProcessedFilesDisplay]; an object URL
    is the number it was created with. *)
Record ProcessedFile := {
  pf_name : string;
  pf_url : nat;
  pf_blob : Blob;
  pf_originalSize : nat;
  pf_processedSize : nat
}.

(** A JavaScript [Error]. *)
Record Error := mkError { message : string }.

(** One token of an engine command line; [ANum x] is [x.toString()]. *)
Inductive Arg := AStr (s : string) | ANum (x : Q).

(** What [ffmpeg.exec] does: it rejects, or it resolves after reporting
    progress values and possibly writing the output file named by the
    last token. *)
Inductive ExecResult :=
| ExecRejects (msg : string)
| ExecResolves (reported : list Q) (output : option bytes).

Record VideoInfo := { duration : Q; videoWidth : Q; videoHeight : Q }.

(** The behaviour of the browser and of the two external engines. *)
Record Env := {
  canvasContext : bool;
  loadVideo : File -> option VideoInfo;
  loadAudio : File -> option Q;
  seekSettles : File -> Q -> bool;
  canvasToBlob : File -> Q -> string -> Q -> option Blob;
  engineReady : option string;
  engineExec : list Arg -> gmap string bytes -> ExecResult;
  gifRender : File -> list Z -> list Q * Blob
}.

(** The mutable state a pipeline run acts on; [E] is the tool's progress
    event type. *)
Record World (E : Type) := mkWorld {
  vfs : gmap string bytes;
  execLog : list (list Arg);
  seekLog : list Q;
  frameLog : list Z;
  nextURL : nat;
  liveURLs : gset nat;
  progressLog : list E
}.
Arguments mkWorld {E}.
Arguments vfs {E}.
Arguments execLog {E}.
Arguments seekLog {E}.
Arguments frameLog {E}.
Arguments nextURL {E}.
Arguments liveURLs {E}.
Arguments progressLog {E}.

Definition emptyWorld {E} : World E := mkWorld ∅ [] [] [] 0%nat ∅ [].

Inductive Outcome (A : Type) := Returns (a : A) | Throws (e : Error).
Arguments Returns {A}.
Arguments Throws {A}.

Definition Run (E A : Type) : Type := World E -> Outcome A * World E.

Definition ret {E A} (a : A) : Run E A := fun w => (Returns a, w).
Definition throw {E A} (e : Error) : Run E A := fun w => (Throws e, w).
Definition bind {E A B} (m : Run E A) (k : A -> Run E B) : Run E B :=
  fun w =>
    match m w with
    | (Returns a, w') => k a w'
    | (Throws e, w') => (Throws e, w')
    end.
Definition tryCatch {E A} (m : Run E A) (h : Error -> Run E A) : Run E A :=
  fun w =>
    match m w with
    | (Returns a, w') => (Returns a, w')
    | (Throws e, w') => h e w'
    end.

Declare Scope run_scope.
Delimit Scope run_scope with run.
Notation "x <- m ;; k" := (bind m (fun x => k))
  (at level 100, m at next level, right associativity) : run_scope.
Notation "m ;;; k" := (bind m (fun _ => k))
  (at level 100, right associativity) : run_scope.
Open Scope run_scope.

(** [for (let i = start; ...; i++)] with [n] iterations to go. *)
Fixpoint forLoop {E} (n : nat) (i : nat) (body : nat -> Run E unit)
  : Run E unit :=
  match n with
  | O => ret tt
  | S n' => body i ;;; forLoop n' (S i) body
  end.

Fixpoint forEach {E A} (l : list A) (body : A -> Run E unit) : Run E unit :=
  match l with
  | [] => ret tt
  | x :: l' => body x ;;; forEach l' body
  end.

(** [onProgress?.(e)] *)
Definition onProgress {E} (e : E) : Run E unit :=
  fun w => (Returns tt,
    mkWorld (vfs w) (execLog w) (seekLog w) (frameLog w) (nextURL w)
            (liveURLs w) (progressLog w ++ [e])).

(** [URL.createObjectURL] and [URL.revokeObjectURL] *)
Definition createObjectURL {E} : Run E nat :=
  fun w => (Returns (nextURL w),
    mkWorld (vfs w) (execLog w) (seekLog w) (frameLog w) (S (nextURL w))
            ({[nextURL w]} ∪ liveURLs w) (progressLog w)).
Definition revokeObjectURL {E} (u : nat) : Run E unit :=
  fun w => (Returns tt,
    mkWorld (vfs w) (execLog w) (seekLog w) (frameLog w) (nextURL w)
            (liveURLs w ∖ {[u]}) (progressLog w)).

(** [video.currentTime = t] *)
Definition setCurrentTime {E} (t : Q) : Run E unit :=
  fun w => (Returns tt,
    mkWorld (vfs w) (execLog w) (seekLog w ++ [t]) (frameLog w) (nextURL w)
            (liveURLs w) (progressLog w)).

(** [gif.addFrame(ctx, {copy: true, delay})] *)
Definition addFrame {E} (delay : Z) : Run E unit :=
  fun w => (Returns tt,
    mkWorld (vfs w) (execLog w) (seekLog w) (frameLog w ++ [delay])
            (nextURL w) (liveURLs w) (progressLog w)).

Definition setVfs {E} (fs : gmap string bytes) (w : World E) : World E :=
  mkWorld fs (execLog w) (seekLog w) (frameLog w) (nextURL w) (liveURLs w)
          (progressLog w).

(** The engine's virtual filesystem: [writeFile], [readFile],
    [deleteFile]; the last two reject on a missing entry. *)
Definition fsError : Error := mkError "ErrnoError: FS error".

Definition writeFile {E} (n : string) (d : bytes) : Run E unit :=
  fun w => (Returns tt, setVfs (<[n := d]> (vfs w)) w).
Definition readFile {E} (n : string) : Run E bytes :=
  fun w => match vfs w !! n with
           | Some d => (Returns d, w)
           | None => (Throws fsError, w)
           end.
Definition deleteFile {E} (n : string) : Run E unit :=
  fun w => match vfs w !! n with
           | Some _ => (Returns tt, setVfs (delete n (vfs w)) w)
           | None => (Throws fsError, w)
           end.

Definition outputName (args : list Arg) : option string :=
  match last args with
  | Some (AStr n) => Some n
  | _ => None
  end.

Definition logExec {E} (args : list Arg) : Run E unit :=
  fun w => (Returns tt,
    mkWorld (vfs w) (execLog w ++ [args]) (seekLog w) (frameLog w)
            (nextURL w) (liveURLs w) (progressLog w)).

(** [ffmpeg.exec(args)], with the listener registered for the engine's
    ["progress"] event. *)
Definition exec {E} (env : Env) (listener : Q -> Run E unit)
    (args : list Arg) : Run E unit :=
  logExec args ;;;
  fun w =>
    match engineExec env args (vfs w) with
    | ExecRejects msg => (Throws (mkError msg), w)
    | ExecResolves reported output =>
        (forEach reported listener ;;;
         match output, outputName args with
         | Some d, Some n => writeFile n d
         | _, _ => ret tt
         end) w
    end.

(** [await getFFmpeg()] as a pipeline sees it. *)
Definition getFFmpeg {E} (env : Env) : Run E unit :=
  match engineReady env with
  | None => ret tt
  | Some msg => throw (mkError msg)
  end.

End Runtime.

(** ** [frame-extractor/functions.ts] *)

Module FrameExtractor.
Import JS Runtime.

Inductive Position := first | last_.
Inductive Format := png | jpeg.

Record FrameExtractionOptions := {
  position : Position;
  format : Format;
  quality : Q
}.

Definition formatString (f : Format) : string :=
  match f with png => "png" | jpeg => "jpeg" end.

(** The seek time chosen in [video.onloadedmetadata]. *)
Definition seekTime (p : Position) (duration : Q) : Q :=
  match p with
  | first => 0.01
  | last_ => Math_max 0 (duration - 0.1)
  end.

Definition positionSuffix (p : Position) : string :=
  match p with last_ => "last-frame" | first => "first-frame" end.

(** The file name built in the [toBlob] callback. *)
Definition fileName (name : string) (options : FrameExtractionOptions)
  : string :=
  let baseName := stripExtension name in
  let extension := formatString (format options) in
  (baseName ++ "_" ++ positionSuffix (position options) ++ "." ++ extension)%string.

(** Progress of the batch: [onProgress(current, total)]. *)
Definition BatchProgress : Type := nat * nat.

Definition extractFrameFromVideo (env : Env) (file : File)
    (options : FrameExtractionOptions) : Run BatchProgress ProcessedFile :=
  if negb (canvasContext env) then
    throw (mkError "Could not get canvas context")
  else
    src <- createObjectURL ;;
    match loadVideo env file with
    | None =>
        revokeObjectURL src ;;;
        throw (mkError ("Failed to load video: " ++ name file ++
                        ". Format may not be supported by your browser."))
    | Some video =>
        let seekTime := seekTime (position options) (duration video) in
        setCurrentTime seekTime ;;;
        let mimeType :=
          match format options with
          | png => "image/png"
          | jpeg => "image/jpeg"
          end%string in
        let result := canvasToBlob env file seekTime mimeType (quality options) in
        revokeObjectURL src ;;;
        match result with
        | None => throw (mkError "Failed to create image from video frame")
        | Some blob =>
            url <- createObjectURL ;;
            ret {| pf_name := fileName (name file) options;
                   pf_url := url;
                   pf_blob := blob;
                   pf_originalSize := size file;
                   pf_processedSize := blobSize blob |}
        end
    end.

(** The loop of [extractFrames] from index [i], with the array
    [extracted] built so far. *)
Fixpoint extractFramesFrom (env : Env) (files : list File) (i total : nat)
    (options : FrameExtractionOptions) (extracted : list ProcessedFile)
  : Run BatchProgress (list ProcessedFile) :=
  match files with
  | [] => ret extracted
  | file :: rest =>
      onProgress (S i, total) ;;;
      extracted' <-
        tryCatch
          (result <- extractFrameFromVideo env file options ;;
           ret (extracted ++ [result]))
          (fun _ => ret extracted) ;;
      extractFramesFrom env rest (S i) total options extracted'
  end.

Definition extractFrames (env : Env) (files : list File)
    (options : FrameExtractionOptions)
  : Run BatchProgress (list ProcessedFile) :=
  extractFramesFrom env files 0 (length files) options [].

End FrameExtractor.

(** ** [video-to-gif/functions.ts] *)

Module VideoToGif.
Import JS Runtime.

Inductive DitheringAlgorithm :=
| FloydSteinberg | FalseFloydSteinberg | Stucki | Atkinson | NoDithering.

Record GifConversionOptions := {
  fps : Q;
  quality : Q;
  scale : Q;
  startTime : Q;
  maxDuration : Q;
  dithering : DitheringAlgorithm;
  loop : Z;
  workers : Z
}.

Inductive Stage := loading | extracting | encoding | complete.

Record ConversionProgress := {
  stage : Stage;
  progress : Z;
  currentFrame : option Z;
  totalFrames : option Z;
  message : string
}.

Record Dimensions := { width : Z; height : Z }.

Definition calculateDimensions (originalWidth originalHeight scale : Q)
  : Dimensions :=
  let width := Math_round (mul originalWidth scale) in
  let height := Math_round (mul originalHeight scale) in
  let width := Z.max width 10 in
  let height := Z.max height 10 in
  let width := (Math_round (inject_Z width / 2) * 2)%Z in
  let height := (Math_round (inject_Z height / 2) * 2)%Z in
  {| width := width; height := height |}.

(** [seekToTime]: the seek is requested, and the promise rejects when
    no ["seeked"] event arrives within 5000 ms. *)
Definition seekToTime (env : Env) (file : File) (time : Q)
  : Run ConversionProgress unit :=
  setCurrentTime time ;;;
  if seekSettles env file time then ret tt
  else throw (mkError "Seek timeout").

(** [options.startTime || 0] *)
Definition startTimeOf (options : GifConversionOptions) : Q :=
  if Qeq_bool (startTime options) 0 then 0 else startTime options.

Definition frameInterval (options : GifConversionOptions) : Q :=
  div 1 (fps options).

(** [totalFrames] as computed in [video.onloadedmetadata]. *)
Definition totalFramesOf (videoDuration : Q) (options : GifConversionOptions)
  : Z :=
  let startTime := startTimeOf options in
  let maxEndTime := videoDuration in
  let endTime := Math_min (add startTime (maxDuration options)) maxEndTime in
  let duration := sub endTime startTime in
  Z.max 1 (Math_floor (mul duration (fps options))).

(** The time of frame [i] and the seek time requested for it. *)
Definition frameTime (options : GifConversionOptions) (i : nat) : Q :=
  add (startTimeOf options)
      (mul (inject_Z (Z.of_nat i)) (frameInterval options)).

(** The delay of every frame: [Math.round(frameInterval * 1000)]. *)
Definition frameDelay (options : GifConversionOptions) : Z :=
  Math_round (mul (frameInterval options) 1000).

Definition seekTime (videoDuration : Q) (time : Q) : Q :=
  Math_min time (videoDuration - 0.01).

Definition extractingProgress (i : nat) (totalFrames : Z) : Z :=
  Math_round ((inject_Z (Z.of_nat i + 1) / inject_Z totalFrames) * 100).

Definition encodingEvent (p : Q) : ConversionProgress :=
  {| stage := encoding;
     progress := Math_round (p * 100);
     currentFrame := None;
     totalFrames := None;
     message := "Encoding: " ++ String_ (Math_round (p * 100)) ++ "%" |}.

Definition extractingEvent (i : nat) (totalFrames : Z) : ConversionProgress :=
  {| stage := extracting;
     progress := extractingProgress i totalFrames;
     currentFrame := Some (Z.of_nat i + 1)%Z;
     totalFrames := Some totalFrames;
     message := "Extracting frame " ++ String_ (Z.of_nat i + 1) ++ " of " ++
                String_ totalFrames |}.

(** The body of the frame loop, for frame [i]. *)
Definition captureFrame (env : Env) (file : File)
    (options : GifConversionOptions) (videoDuration : Q) (totalFrames : Z)
    (i : nat) : Run ConversionProgress unit :=
  let startTime := startTimeOf options in
  let frameInterval := frameInterval options in
  let time := add startTime (mul (inject_Z (Z.of_nat i)) frameInterval) in
  let seekTime := seekTime videoDuration time in
  seekToTime env file seekTime ;;;
  addFrame (Math_round (mul frameInterval 1000)) ;;;
  onProgress (extractingEvent i totalFrames).

(** The frames handed to the encoder by [gif.render()]. *)
Definition addedFrames : Run ConversionProgress (list Z) :=
  fun w => (Returns (frameLog w), w).

Definition convertVideoToGif (env : Env) (file : File)
    (options : GifConversionOptions) : Run ConversionProgress ProcessedFile :=
  if negb (canvasContext env) then
    throw (mkError "Could not get canvas context")
  else
    onProgress {| stage := loading; progress := 0; currentFrame := None;
                  totalFrames := None; message := "Loading video..." |} ;;;
    src <- createObjectURL ;;
    match loadVideo env file with
    | None =>
        revokeObjectURL src ;;;
        throw (mkError ("Failed to load video: " ++ name file ++
                        ". Format may not be supported by your browser."))
    | Some video =>
        tryCatch
          (onProgress {| stage := loading; progress := 100;
                         currentFrame := None; totalFrames := None;
                         message := "Video loaded" |} ;;;
           let dims := calculateDimensions (videoWidth video)
                         (videoHeight video) (scale options) in
           let startTime := startTimeOf options in
           let frameInterval := frameInterval options in
           let totalFrames := totalFramesOf (duration video) options in
           onProgress {| stage := extracting; progress := 0;
                         currentFrame := Some 0%Z;
                         totalFrames := Some totalFrames;
                         message := "Extracting frames..." |} ;;;
           forLoop (Z.to_nat totalFrames) 0
           (captureFrame env file options (duration video) totalFrames) ;;;
           onProgress {| stage := encoding; progress := 0;
                         currentFrame := None; totalFrames := None;
                         message := "Encoding GIF..." |} ;;;
           frames <- addedFrames ;;
           let rendered := gifRender env file frames in
           forEach (fst rendered) (fun p => onProgress (encodingEvent p)) ;;;
           let blob := snd rendered in
           revokeObjectURL src ;;;
           let baseName := stripExtension (name file) in
           let fileName := (baseName ++ ".gif")%string in
           url <- createObjectURL ;;
           onProgress {| stage := complete; progress := 100;
                         currentFrame := None; totalFrames := None;
                         message := "Conversion complete!" |} ;;;
           ret {| pf_name := fileName;
                  pf_url := url;
                  pf_blob := blob;
                  pf_originalSize := size file;
                  pf_processedSize := blobSize blob |})
          (fun error => revokeObjectURL src ;;; throw error)
    end.

End VideoToGif.

(** ** The audio splitter's [functions.ts] *)

Module AudioSplitter.
Import JS Runtime.

Inductive Stage := loading | splitting | complete.

Record AudioSplitProgress := {
  stage : Stage;
  progress : Z;
  message : string;
  currentSegment : option Z;
  totalSegments : option Z
}.

(** [getAudioMetadata]: the object URL is revoked on both paths. *)
Definition getAudioMetadata (env : Env) (file : File)
  : Run AudioSplitProgress Q :=
  src <- createObjectURL ;;
  match loadAudio env file with
  | Some duration => revokeObjectURL src ;;; ret duration
  | None =>
      revokeObjectURL src ;;;
      throw (mkError ("Failed to load audio metadata: " ++ name file))
  end.

Definition fileExtensionOf (file : File) : string :=
  orElse (split_dot_pop (name file)) "mp3".

Definition inputFileNameOf (file : File) : string :=
  ("input." ++ orElse (split_dot_pop (name file)) "mp3")%string.

Definition segmentNumber (i : nat) : string :=
  padStart 3 "0" (String_ (Z.of_nat i + 1)).

Definition outputFileNameOf (fileExtension : string) (i : nat) : string :=
  ("output-segment-" ++ segmentNumber i ++ "." ++ fileExtension)%string.

Definition segmentFileNameOf (baseName fileExtension : string) (i : nat)
  : string :=
  (baseName ++ "-segment-" ++ segmentNumber i ++ "." ++ fileExtension)%string.

(** The command line of segment [i]. *)
Definition segmentArgs (inputFileName outputFileName : string)
    (segmentLength : Q) (i : nat) : list Arg :=
  let startTime := mul (inject_Z (Z.of_nat i)) segmentLength in
  [ AStr "-i"; AStr inputFileName;
    AStr "-ss"; ANum startTime;
    AStr "-t"; ANum segmentLength;
    AStr "-acodec"; AStr "copy";
    AStr "-y";
    AStr outputFileName ].

Definition splittingProgress (i : nat) (totalSegments : Z) : Z :=
  (20 + Math_floor ((inject_Z (Z.of_nat i) / inject_Z totalSegments) * 70))%Z.

Definition mimeTypeOf (fileExtension : string) : string :=
  if String.eqb fileExtension "mp3" then "audio/mpeg"
  else if String.eqb fileExtension "wav" then "audio/wav"
  else "audio/mpeg".

(** One iteration of the segment loop; it returns the array
    [processedFiles] after the [push]. *)
Definition processSegment (env : Env) (file : File) (segmentLength : Q)
    (totalSegments : Z) (inputFileName fileExtension baseName : string)
    (i : nat) (processedFiles : list ProcessedFile)
  : Run AudioSplitProgress (list ProcessedFile) :=
  let outputFileName := outputFileNameOf fileExtension i in
  onProgress {| stage := splitting;
                progress := splittingProgress i totalSegments;
                message := "Processing segment " ++ String_ (Z.of_nat i + 1)
                           ++ " of " ++ String_ totalSegments ++ "...";
                currentSegment := Some (Z.of_nat i + 1)%Z;
                totalSegments := Some totalSegments |} ;;;
  let args := segmentArgs inputFileName outputFileName segmentLength i in
  tryCatch (exec env (fun _ => ret tt) args)
    (fun execError =>
       throw (mkError ("FFmpeg failed for segment " ++
                       String_ (Z.of_nat i + 1) ++ ": " ++
                       Runtime.message execError))) ;;;
  data <- readFile outputFileName ;;
  let blob := {| data := data; type := mimeTypeOf fileExtension |} in
  let segmentFileName := segmentFileNameOf baseName fileExtension i in
  url <- createObjectURL ;;
  let processedFiles := processedFiles ++
        [ {| pf_name := segmentFileName;
             pf_url := url;
             pf_blob := blob;
             pf_originalSize := size file;
             pf_processedSize := blobSize blob |} ] in
  deleteFile outputFileName ;;;
  ret processedFiles.

(** The segment loop with [n] iterations to go, from index [i]. *)
Fixpoint segmentLoop (env : Env) (file : File) (segmentLength : Q)
    (totalSegments : Z) (inputFileName fileExtension baseName : string)
    (n i : nat) (processedFiles : list ProcessedFile)
  : Run AudioSplitProgress (list ProcessedFile) :=
  match n with
  | O => ret processedFiles
  | S n' =>
      processedFiles' <-
        processSegment env file segmentLength totalSegments inputFileName
          fileExtension baseName i processedFiles ;;
      segmentLoop env file segmentLength totalSegments inputFileName
        fileExtension baseName n' (S i) processedFiles'
  end.

(** The two validation errors thrown before planning. *)
Definition notPositive : Error :=
  mkError "Segment length must be greater than 0".
Definition tooLong : Error :=
  mkError "Segment length cannot be greater than audio duration".

(** The validation and the unit count of [splitAudio], lines 119-128. *)
Definition planSegments (duration segmentLength : Q) : Error + Z :=
  if Qle_bool segmentLength 0 then inl notPositive
  else if negb (Qle_bool segmentLength duration) then inl tooLong
  else inr (Math_ceil (div duration segmentLength)).

Definition splitAudio (env : Env) (file : File) (segmentLength : Q)
  : Run AudioSplitProgress (list ProcessedFile) :=
  tryCatch
    (onProgress {| stage := loading; progress := 0;
                   message := "Initializing FFmpeg...";
                   currentSegment := None; totalSegments := None |} ;;;
     duration <- getAudioMetadata env file ;;
     match planSegments duration segmentLength with
     | inl e => throw e
     | inr totalSegments =>
         getFFmpeg env ;;;
         onProgress {| stage := loading; progress := 10;
                       message := "Loading audio file...";
                       currentSegment := None; totalSegments := None |} ;;;
         let inputFileName := inputFileNameOf file in
         let fileExtension := fileExtensionOf file in
         writeFile inputFileName (content file) ;;;
         onProgress {| stage := splitting; progress := 20;
                       message := "Splitting audio into segments...";
                       currentSegment := Some 0%Z;
                       totalSegments := Some totalSegments |} ;;;
         let baseName := stripExtension (name file) in
         processedFiles <-
           segmentLoop env file segmentLength totalSegments inputFileName
             fileExtension baseName (Z.to_nat totalSegments) 0 [] ;;
         deleteFile inputFileName ;;;
         onProgress {| stage := complete; progress := 100;
                       message := "Splitting complete!";
                       currentSegment := Some totalSegments;
                       totalSegments := Some totalSegments |} ;;;
         ret processedFiles
     end)
    (fun error => throw (mkError (Runtime.message error))).

End AudioSplitter.

(** ** The audio extractor's [functions.ts] *)

Module AudioExtractor.
Import JS Runtime.

Inductive AudioFormat := mp3 | wav.
Inductive AudioQuality := low | medium | high.

Record AudioExtractionOptions := {
  format : AudioFormat;
  quality : AudioQuality
}.

Inductive Stage := loading | extracting | encoding | complete.

Record AudioExtractionProgress := {
  stage : Stage;
  progress : Z;
  message : string
}.

Definition formatString (f : AudioFormat) : string :=
  match f with mp3 => "mp3" | wav => "wav" end.

(** The listener registered with [ffmpeg.on("progress", ...)]. *)
Definition progressValue (ffmpegProgress : Q) : Z :=
  (40 + Math_floor (ffmpegProgress * 0.5))%Z.

Definition progressEvent (ffmpegProgress : Q) : AudioExtractionProgress :=
  {| stage := extracting;
     progress := progressValue ffmpegProgress;
     message := "Extracting audio... " ++
                String_ (Math_floor (ffmpegProgress * 100)) ++ "%" |}.

Definition progressListener (ffmpegProgress : Q)
  : Run AudioExtractionProgress unit :=
  onProgress (progressEvent ffmpegProgress).

Definition buildArgs (inputFileName outputFileName : string)
    (options : AudioExtractionOptions) : list Arg :=
  [AStr "-i"; AStr inputFileName] ++
  match format options with
  | mp3 =>
      let bitrate :=
        match quality options with
        | low => "128k" | medium => "192k" | high => "320k"
        end%string in
      [AStr "-vn"; AStr "-acodec"; AStr "libmp3lame";
       AStr "-b:a"; AStr bitrate; AStr "-y"]
  | wav =>
      [AStr "-vn"; AStr "-acodec"; AStr "pcm_s16le"; AStr "-y"]
  end ++
  [AStr outputFileName].

Definition inputFileNameOf (file : File) : string :=
  ("input." ++ orElse (split_dot_pop (name file)) "mp4")%string.

Definition outputFileNameOf (options : AudioExtractionOptions) : string :=
  ("output." ++ formatString (format options))%string.

Definition fileNameOf (file : File) (options : AudioExtractionOptions)
  : string :=
  let baseName := stripExtension (name file) in
  let extension := formatString (format options) in
  (baseName ++ "." ++ extension)%string.

Definition extractAudioFromVideo (env : Env) (file : File)
    (options : AudioExtractionOptions)
  : Run AudioExtractionProgress ProcessedFile :=
  tryCatch
    (onProgress {| stage := loading; progress := 0;
                   message := "Initializing FFmpeg..." |} ;;;
     getFFmpeg env ;;;
     onProgress {| stage := loading; progress := 20;
                   message := "Loading video file..." |} ;;;
     let inputFileName := inputFileNameOf file in
     let outputFileName := outputFileNameOf options in
     writeFile inputFileName (content file) ;;;
     onProgress {| stage := extracting; progress := 40;
                   message := "Extracting audio..." |} ;;;
     let args := buildArgs inputFileName outputFileName options in
     tryCatch (exec env progressListener args)
       (fun execError =>
          throw (mkError ("FFmpeg failed: " ++ Runtime.message execError))) ;;;
     onProgress {| stage := encoding; progress := 90;
                   message := "Finalizing..." |} ;;;
     data <- readFile outputFileName ;;
     let blob := {| data := data;
                    type := match format options with
                            | mp3 => "audio/mpeg"
                            | wav => "audio/wav"
                            end |} in
     deleteFile inputFileName ;;;
     deleteFile outputFileName ;;;
     url <- createObjectURL ;;
     onProgress {| stage := complete; progress := 100;
                   message := "Extraction complete!" |} ;;;
     ret {| pf_name := fileNameOf file options;
            pf_url := url;
            pf_blob := blob;
            pf_originalSize := size file;
            pf_processedSize := blobSize blob |})
    (fun error => throw (mkError (Runtime.message error))).

End AudioExtractor.

(** ** The engine singleton: [getFFmpeg] and its three module variables *)

Module EngineSession.

(** An [FFmpeg] object and a promise are named by their creation index. *)
Definition FFmpeg := nat.
Definition PromiseId := nat.

Inductive PromiseState := Pending | Fulfilled | Rejected (msg : string).

(** The [await] at which the body of the load promise is suspended. *)
Inductive LoadStage := FetchCore | FetchWasm | CoreLoad.

Record Loader := {
  l_promise : PromiseId;
  l_ffmpeg : FFmpeg;
  l_stage : LoadStage
}.

(** A call of [getFFmpeg]: suspended at [await ffmpegLoadPromise], or
    settled.  [Resolved r] carries what [return ffmpegInstance] read. *)
Inductive Caller :=
| Awaiting (p : PromiseId)
| Resolved (r : option FFmpeg)
| Failed (msg : string).

Record State := mkState {
  ffmpegInstance : option FFmpeg;
  ffmpegLoading : bool;
  ffmpegLoadPromise : option PromiseId;
  promises : list PromiseState;
  constructed : nat;
  loadsStarted : nat;
  loaders : list Loader;
  callers : list Caller
}.

Definition init : State := mkState None false None [] 0 0 [] [].

Inductive Event :=
| Call
| NetworkOk (p : PromiseId)
| NetworkFail (p : PromiseId) (msg : string)
| Resume (c : nat).

Definition sabMissing : string :=
  "SharedArrayBuffer is not available. Please ensure you're accessing the site via localhost (not IP address) and that the server has Cross-Origin-Embedder-Policy and Cross-Origin-Opener-Policy headers set.".

Definition loadFailure (msg : string) : string :=
  ("Failed to load FFmpeg: " ++ msg)%string.

(** A call of [getFFmpeg()], run up to its first [await] or its [return].
    [sab] tells whether [SharedArrayBuffer] is defined. *)
Definition call (sab : bool) (s : State) : State :=
  match ffmpegInstance s with
  | Some e =>
      mkState (ffmpegInstance s) (ffmpegLoading s) (ffmpegLoadPromise s)
        (promises s) (constructed s) (loadsStarted s) (loaders s)
        (callers s ++ [Resolved (Some e)])
  | None =>
      match ffmpegLoading s, ffmpegLoadPromise s with
      | true, Some p =>
          mkState (ffmpegInstance s) (ffmpegLoading s) (ffmpegLoadPromise s)
            (promises s) (constructed s) (loadsStarted s) (loaders s)
            (callers s ++ [Awaiting p])
      | _, _ =>
          let ffmpeg := constructed s in
          let p := length (promises s) in
          if sab then
            (* suspended at the first [await toBlobURL(...)] *)
            mkState None true (Some p)
              (promises s ++ [Pending]) (S (constructed s))
              (S (loadsStarted s))
              (loaders s ++ [ {| l_promise := p; l_ffmpeg := ffmpeg;
                                 l_stage := FetchCore |} ])
              (callers s ++ [Awaiting p])
          else
            (* the [throw] is caught before any [await]: the handler
               clears the two variables, the promise is rejected, and
               the pending assignment then stores it *)
            mkState None false (Some p)
              (promises s ++ [Rejected (loadFailure sabMissing)])
              (S (constructed s)) (loadsStarted s) (loaders s)
              (callers s ++ [Awaiting p])
      end
  end.

Definition isLoader (p : PromiseId) (l : Loader) : bool :=
  Nat.eqb (l_promise l) p.

Definition otherLoaders (p : PromiseId) (s : State) : list Loader :=
  List.filter (fun l => negb (isLoader p l)) (loaders s).

(** The promise awaited by the load body of [p] is fulfilled. *)
Definition networkOk (p : PromiseId) (s : State) : State :=
  match List.find (isLoader p) (loaders s) with
  | None => s
  | Some l =>
      match l_stage l with
      | FetchCore =>
          mkState (ffmpegInstance s) (ffmpegLoading s) (ffmpegLoadPromise s)
            (promises s) (constructed s) (loadsStarted s)
            (otherLoaders p s ++
               [ {| l_promise := p; l_ffmpeg := l_ffmpeg l;
                    l_stage := FetchWasm |} ])
            (callers s)
      | FetchWasm =>
          mkState (ffmpegInstance s) (ffmpegLoading s) (ffmpegLoadPromise s)
            (promises s) (constructed s) (loadsStarted s)
            (otherLoaders p s ++
               [ {| l_promise := p; l_ffmpeg := l_ffmpeg l;
                    l_stage := CoreLoad |} ])
            (callers s)
      | CoreLoad =>
          mkState (Some (l_ffmpeg l)) false (ffmpegLoadPromise s)
            (<[p := Fulfilled]> (promises s)) (constructed s)
            (loadsStarted s) (otherLoaders p s) (callers s)
      end
  end.

(** The promise awaited by the load body of [p] is rejected: the
    [catch] block runs. *)
Definition networkFail (p : PromiseId) (msg : string) (s : State) : State :=
  match List.find (isLoader p) (loaders s) with
  | None => s
  | Some l =>
      mkState (ffmpegInstance s) false None
        (<[p := Rejected (loadFailure msg)]> (promises s)) (constructed s)
        (loadsStarted s) (otherLoaders p s) (callers s)
  end.

(** The continuation of caller [c] after [await ffmpegLoadPromise]. *)
Definition resume (c : nat) (s : State) : State :=
  match callers s !! c with
  | Some (Awaiting p) =>
      match promises s !! p with
      | Some Fulfilled =>
          mkState (ffmpegInstance s) (ffmpegLoading s) (ffmpegLoadPromise s)
            (promises s) (constructed s) (loadsStarted s) (loaders s)
            (<[c := Resolved (ffmpegInstance s)]> (callers s))
      | Some (Rejected msg) =>
          mkState (ffmpegInstance s) (ffmpegLoading s) (ffmpegLoadPromise s)
            (promises s) (constructed s) (loadsStarted s) (loaders s)
            (<[c := Failed msg]> (callers s))
      | _ => s
      end
  | _ => s
  end.

Definition step (sab : bool) (ev : Event) (s : State) : State :=
  match ev with
  | Call => call sab s
  | NetworkOk p => networkOk p s
  | NetworkFail p msg => networkFail p msg s
  | Resume c => resume c s
  end.

(** The state after the events of [evs], oldest first. *)
Definition run (sab : bool) (evs : list Event) (s : State) : State :=
  fold_left (fun s ev => step sab ev s) evs s.

End EngineSession.

(** ** The engine sessions of a browser session *)

(** [getFFmpeg] and its three variables are declared twice, word for
    word: once in the module of the audio splitter and once in the module
    of the audio extractor.  A browser session that uses both tools holds
    both sets of variables, and an event of one tool acts on the variables
    of that tool's module only.  An [FFmpeg] object is named by the module
    that constructed it and its creation index there. *)
Module PageSessions.

Inductive Tool := Splitter | Extractor.

Definition sameTool (t u : Tool) : bool :=
  match t, u with
  | Splitter, Splitter | Extractor, Extractor => true
  | _, _ => false
  end.

Record Page := mkPage {
  splitter : EngineSession.State;
  extractor : EngineSession.State
}.

Definition init : Page := mkPage EngineSession.init EngineSession.init.

Definition sessionOf (t : Tool) (pg : Page) : EngineSession.State :=
  match t with
  | Splitter => splitter pg
  | Extractor => extractor pg
  end.

Definition step (sab : bool) (ev : Tool * EngineSession.Event) (pg : Page)
  : Page :=
  match fst ev with
  | Splitter =>
      mkPage (EngineSession.step sab (snd ev) (splitter pg)) (extractor pg)
  | Extractor =>
      mkPage (splitter pg) (EngineSession.step sab (snd ev) (extractor pg))
  end.

(** The state after the events of [evs], oldest first. *)
Definition run (sab : bool) (evs : list (Tool * EngineSession.Event))
    (pg : Page) : Page :=
  fold_left (fun pg ev => step sab ev pg) evs pg.

(** The events of one tool, in order. *)
Definition eventsOf (t : Tool) (evs : list (Tool * EngineSession.Event))
  : list EngineSession.Event :=
  map snd (List.filter (fun ev => sameTool (fst ev) t) evs).

(** The engine a tool holds. *)
Definition engineOf (t : Tool) (pg : Page)
  : option (Tool * EngineSession.FFmpeg) :=
  option_map (pair t) (EngineSession.ffmpegInstance (sessionOf t pg)).

(** Counts over the whole browser session. *)
Definition inFlight (pg : Page) : nat :=
  (length (EngineSession.loaders (splitter pg)) +
   length (EngineSession.loaders (extractor pg)))%nat.

Definition constructedOnPage (pg : Page) : nat :=
  (EngineSession.constructed (splitter pg) +
   EngineSession.constructed (extractor pg))%nat.

Definition loadsOnPage (pg : Page) : nat :=
  (EngineSession.loadsStarted (splitter pg) +
   EngineSession.loadsStarted (extractor pg))%nat.

End PageSessions.

(** ** Vocabulary of the properties *)

Module Spec.
Import JS Runtime.

(** The spec's [InvalidSegmentLengthError]: one of the two validation
    errors of [splitAudio]. *)
Definition InvalidSegmentLengthError (e : Error) : Prop :=
  e = AudioSplitter.notPositive \/ e = AudioSplitter.tooLong.

(** A sequence of percent values never goes down. *)
Fixpoint nondecreasing (l : list Z) : bool :=
  match l with
  | [] => true
  | x :: rest =>
      match rest with
      | [] => true
      | y :: _ => (x <=? y)%Z && nondecreasing rest
      end
  end.

(** Removing a list of entries from the virtual filesystem. *)
Definition deleteAll (names : list string) (fs : gmap string bytes)
  : gmap string bytes :=
  fold_left (fun m n => delete n m) names fs.





(** Does the frame of [file] get extracted?  The outcome does not depend
    on the world the extraction starts in. *)
Definition succeeded (env : Env) (options : FrameExtractor.FrameExtractionOptions)
    (file : File) : bool :=
  match fst (FrameExtractor.extractFrameFromVideo env file options emptyWorld) with
  | Returns _ => true
  | Throws _ => false
  end.

(** The event emitted at the start of segment [i] of the audio split. *)
Definition segmentEvent (totalSegments : Z) (i : nat)
  : AudioSplitter.AudioSplitProgress :=
  {| AudioSplitter.stage := AudioSplitter.splitting;
     AudioSplitter.progress := AudioSplitter.splittingProgress i totalSegments;
     AudioSplitter.message :=
       "Processing segment " ++ String_ (Z.of_nat i + 1) ++ " of " ++
       String_ totalSegments ++ "...";
     AudioSplitter.currentSegment := Some (Z.of_nat i + 1)%Z;
     AudioSplitter.totalSegments := Some totalSegments |}.

(** Stage and percent of a progress event of each tool. *)
Definition splitStep (e : AudioSplitter.AudioSplitProgress)
  : AudioSplitter.Stage * Z :=
  (AudioSplitter.stage e, AudioSplitter.progress e).
Definition extractionStep (e : AudioExtractor.AudioExtractionProgress)
  : AudioExtractor.Stage * Z :=
  (AudioExtractor.stage e, AudioExtractor.progress e).
Definition gifStep (e : VideoToGif.ConversionProgress)
  : VideoToGif.Stage * Z :=
  (VideoToGif.stage e, VideoToGif.progress e).

(** The events that a run appended to the progress log of [w]. *)
Definition emitted {E} (w w' : World E) : list E :=
  drop (length (progressLog w)) (progressLog w').

(** The engine commands and the seeks that a run appended to the logs of
    [w]. *)
Definition commands {E} (w w' : World E) : list (list Arg) :=
  drop (length (execLog w)) (execLog w').
Definition frames {E} (w w' : World E) : list Z :=
  drop (length (frameLog w)) (frameLog w').

(** The percent values of the [extracting] stage of a GIF conversion. *)
Definition isExtracting (s : VideoToGif.Stage) : bool :=
  match s with VideoToGif.extracting => true | _ => false end.
Definition extractingPercents (steps : list (VideoToGif.Stage * Z)) : list Z :=
  map snd (List.filter (fun s => isExtracting (fst s)) steps).

(** The log extends [before] by events whose percent values never go
    down and stay at or below [b]. *)
Definition percentsUpTo {E} (pct : E -> Z) (before : list E) (b : Z)
    (log : list E) : Prop :=
  exists new, log = before ++ new /\
              nondecreasing (map pct new) = true /\
              Forall (fun e => (pct e <= b)%Z) new.

(** The engine reports progress values between 0 and 1 only. *)
Definition reportsUnitProgress (env : Env) : Prop :=
  forall args fs reported output,
    engineExec env args fs = ExecResolves reported output ->
    Forall (fun p => 0 <= p /\ p <= 1) reported.

(** From a world satisfying [P], the computation [m] either returns a
    value and a world satisfying [Qr], or throws an error and leaves a
    world satisfying [Qt]. *)
Definition ensures {E A} (P : World E -> Prop) (m : Run E A)
    (Qr : A -> World E -> Prop) (Qt : Error -> World E -> Prop) : Prop :=
  forall w, P w ->
    match m w with
    | (Returns a, w') => Qr a w'
    | (Throws e, w') => Qt e w'
    end.

(** [m] keeps [I], whether it returns or throws. *)
Definition preserves {E A} (I : World E -> Prop) (m : Run E A) : Prop :=
  ensures I m (fun _ => I) (fun _ => I).

(** [a] is the artifact of [file]: its name and its original size. *)
Definition artifactOf (options : FrameExtractor.FrameExtractionOptions)
    (a : ProcessedFile) (file : File) : Prop :=
  pf_name a = FrameExtractor.fileName (name file) options /\
  pf_originalSize a = size file.

(** What holds of the engine singleton in every state it can reach. *)
Record sessionInvariant (s : EngineSession.State) : Prop := {
  inv_one_loader : (length (EngineSession.loaders s) <= 1)%nat;
  inv_loader :
    forall l, In l (EngineSession.loaders s) ->
      EngineSession.ffmpegInstance s = None /\
      EngineSession.ffmpegLoading s = true /\
      EngineSession.ffmpegLoadPromise s = Some (EngineSession.l_promise l) /\
      EngineSession.promises s !! EngineSession.l_promise l =
        Some EngineSession.Pending;
  inv_idle :
    EngineSession.loaders s = [] -> EngineSession.ffmpegLoading s = false;
  inv_fulfilled :
    forall p, EngineSession.promises s !! p = Some EngineSession.Fulfilled ->
      is_Some (EngineSession.ffmpegInstance s);
  inv_resolved :
    forall c r, EngineSession.callers s !! c = Some (EngineSession.Resolved r) ->
      is_Some r /\ r = EngineSession.ffmpegInstance s
}.

End Spec.

(** ** Concrete environments and inputs *)

Module Scenario.
Import JS Runtime.

Definition clip : File :=
  {| name := "clip.mov"; content := [Byte.x01; Byte.x02] |}.
Definition song : File :=
  {| name := "song.mp3"; content := [Byte.x03] |}.
Definition corrupt : File :=
  {| name := "corrupt.mp4"; content := [] |}.
Definition holiday : File :=
  {| name := "holiday.webm"; content := [Byte.x04] |}.

Definition picture : Blob := {| data := [Byte.x89]; type := "image/png" |}.
Definition animation : Blob := {| data := [Byte.x47]; type := "image/gif" |}.

(** Every file decodes (10 seconds, 101 by 57 pixels) except [corrupt];
    every seek settles; the engine is ready, reports the progress values
    0, 1/2 and 1 and writes its output. *)
Definition browser : Env := {|
  canvasContext := true;
  loadVideo := fun f =>
    if String.eqb (name f) "corrupt.mp4" then None
    else Some {| duration := 10; videoWidth := 101; videoHeight := 57 |};
  loadAudio := fun _ => Some 10;
  seekSettles := fun _ _ => true;
  canvasToBlob := fun _ _ _ _ => Some picture;
  engineReady := None;
  engineExec := fun _ _ => ExecResolves [0; 1 # 2; 1] (Some [Byte.x05]);
  gifRender := fun _ _ => ([1 # 2; 1], animation)
|}.

(** The same browser with an engine that rejects every command. *)
Definition failingEngine : Env := {|
  canvasContext := true;
  loadVideo := loadVideo browser;
  loadAudio := loadAudio browser;
  seekSettles := seekSettles browser;
  canvasToBlob := canvasToBlob browser;
  engineReady := None;
  engineExec := fun _ _ => ExecRejects "Invalid data found when processing input";
  gifRender := gifRender browser
|}.


Definition lastPng : FrameExtractor.FrameExtractionOptions :=
  {| FrameExtractor.position := FrameExtractor.last_;
     FrameExtractor.format := FrameExtractor.png;
     FrameExtractor.quality := 1 |}.

(** The default GIF options with a start time and a frame rate. *)
Definition gifOptions (startTime fps : Q) : VideoToGif.GifConversionOptions :=
  {| VideoToGif.fps := fps;
     VideoToGif.quality := 10;
     VideoToGif.scale := 0.5;
     VideoToGif.startTime := startTime;
     VideoToGif.maxDuration := 10;
     VideoToGif.dithering := VideoToGif.FloydSteinberg;
     VideoToGif.loop := 0;
     VideoToGif.workers := 4 |}.


Definition mp3Medium : AudioExtractor.AudioExtractionOptions :=
  {| AudioExtractor.format := AudioExtractor.mp3;
     AudioExtractor.quality := AudioExtractor.medium |}.

End Scenario.


(** ** The helpers beside the pipelines *)

(** [getOriginalFileForComparison] of the frame extractor; the index is
    an integer. *)
Module FrameComparison.
Import Runtime.

Definition getOriginalFileForComparison {T : Type} (index : Z)
    (originalFiles : list T) (processedFiles : list ProcessedFile)
  : option T :=
  if ((0 <=? index)%Z && (index <? Z.of_nat (length originalFiles))%Z &&
      (index <? Z.of_nat (length processedFiles))%Z)%bool
  then originalFiles !! Z.to_nat index
  else None.

End FrameComparison.

(** [getVideoMetadata] of the GIF converter and of the audio extractor:
    like [getAudioMetadata], each revokes its object URL on both paths. *)
Module GifMetadata.
Import Runtime.

Record Metadata := { duration : Q; width : Q; height : Q }.

Definition getVideoMetadata {E} (env : Env) (file : File) : Run E Metadata :=
  src <- createObjectURL ;;
  match loadVideo env file with
  | Some video =>
      let result := {| duration := Runtime.duration video;
                       width := videoWidth video;
                       height := videoHeight video |} in
      revokeObjectURL src ;;; ret result
  | None =>
      revokeObjectURL src ;;;
      throw (mkError ("Failed to load video metadata: " ++ name file))
  end.

End GifMetadata.

Module ExtractorMetadata.
Import Runtime.

Definition getVideoMetadata {E} (env : Env) (file : File) : Run E Q :=
  src <- createObjectURL ;;
  match loadVideo env file with
  | Some video => revokeObjectURL src ;;; ret (Runtime.duration video)
  | None =>
      revokeObjectURL src ;;;
      throw (mkError ("Failed to load video metadata: " ++ name file))
  end.

End ExtractorMetadata.

(** ** An engine that fails part of the way *)

Module Faults.
Import JS Runtime.

(** The browser of [Scenario] with an engine that cuts the segment that
    starts at 0 and rejects every other command. *)
Definition secondSegmentFails : Env := {|
  canvasContext := true;
  loadVideo := loadVideo Scenario.browser;
  loadAudio := loadAudio Scenario.browser;
  seekSettles := seekSettles Scenario.browser;
  canvasToBlob := canvasToBlob Scenario.browser;
  engineReady := None;
  engineExec := fun args _ =>
    match args !! 3%nat with
    | Some (ANum s) =>
        if Qeq_bool s 0 then ExecResolves [] (Some [Byte.x05])
        else ExecRejects "Conversion failed!"
    | _ => ExecRejects "Conversion failed!"
    end;
  gifRender := gifRender Scenario.browser
|}.

End Faults.

(** ** The components *)

(** [components/FileUploadZone]. *)
Module FileUploadZone.
Import JS Runtime.

(** A [File] with the fields that [onDrop] adds; [preview] is an object
    URL. *)
Record FileWithPreview := {
  file : File;
  preview : nat;
  id : string;
  originalSize : nat
}.

(** [acceptedFiles.map(...)] of [onDrop]; each accepted file comes with
    the string that [Math.random] yields for its [id]. *)
Fixpoint withPreviews {E} (acceptedFiles : list (File * string))
  : Run E (list FileWithPreview) :=
  match acceptedFiles with
  | [] => ret []
  | (f, randomId) :: rest =>
      url <- createObjectURL ;;
      more <- withPreviews rest ;;
      ret ({| file := f; preview := url; id := randomId;
              originalSize := size f |} :: more)
  end.

(** [onDrop] and [removeFile]; [onFilesChange] is the callback of the
    page, which yields the page's new state. *)
Definition onDrop {E S} (files : list FileWithPreview)
    (onFilesChange : list FileWithPreview -> S)
    (acceptedFiles : list (File * string)) : Run E S :=
  newFiles <- withPreviews acceptedFiles ;;
  ret (onFilesChange (files ++ newFiles)).

Definition removeFile {E S} (files : list FileWithPreview)
    (onFilesChange : list FileWithPreview -> S) (id' : string) : Run E S :=
  let fileToRemove := List.find (fun f => String.eqb (id f) id') files in
  match fileToRemove with
  | Some f => revokeObjectURL (preview f)
  | None => ret tt
  end ;;;
  ret (onFilesChange
         (List.filter (fun f => negb (String.eqb (id f) id')) files)).

(** [file.originalSize || file.size] summed over the files. *)
Definition totalSize (files : list FileWithPreview) : nat :=
  fold_left
    (fun sum f =>
       (sum + (if Nat.eqb (originalSize f) 0 then size (file f)
               else originalSize f))%nat)
    files 0%nat.

End FileUploadZone.

(** [components/utils/zipUtils]. *)
Module ZipUtils.
Import JS Runtime.

Record ZipFile := { name : string; blob : Blob }.

(** The entries of a [JSZip] archive by name: [zip.file(name, data)]
    replaces the entry of that name. *)
Definition Zip := gmap string Blob.

Definition addFiles (files : list ZipFile) (zip : Zip) : Zip :=
  fold_left (fun z f => <[name f := blob f]> z) files zip.

(** What the browser is asked to download. *)
Record Download := { downloadName : string; entries : Zip }.

(** [createAndDownloadZip]; [generated] tells whether
    [zip.generateAsync] resolves. *)
Definition createAndDownloadZip {E} (generated : bool) (files : list ZipFile)
    (zipFileName : string) : Run E Download :=
  let zip := addFiles files ∅ in
  if generated then
    zipUrl <- createObjectURL ;;
    let link := {| downloadName := zipFileName; entries := zip |} in
    revokeObjectURL zipUrl ;;;
    ret link
  else throw (mkError "Error generating zip").

(** [files.map((file) => ({ name: file.name, blob: file.blob }))] of the
    pages' [downloadAll]. *)
Definition zipFilesOf (files : list ProcessedFile) : list ZipFile :=
  map (fun f => {| name := pf_name f; blob := pf_blob f |}) files.

End ZipUtils.

(** ** The pages *)

(** What the pages of the three single-file tools share: their state, and
    the handlers that the pages define in the same words. *)
Module ToolPage.
Import JS Runtime FileUploadZone.

Record State (E : Type) := mkState {
  files : list FileWithPreview;
  isProcessing : bool;
  progress : option E;
  processedFiles : list ProcessedFile;
  error : option string
}.
Arguments mkState {E}.
Arguments files {E}.
Arguments isProcessing {E}.
Arguments progress {E}.
Arguments processedFiles {E}.
Arguments error {E}.

Definition initial {E} : State E := mkState [] false None [] None.

(** [handleFilesChange]: only the first file is kept. *)
Definition handleFilesChange {E} (s : State E)
    (newFiles : list FileWithPreview) : State E :=
  mkState (take 1 newFiles) (isProcessing s) (progress s) [] None.

(** The body of [handleConvert], [handleExtract] and [handleSplit] from
    [setIsProcessing(true)] on: [setProgress] is the progress callback, so
    the page is left with the last event of the run. *)
Definition runTool {E} (pipeline : Run E (list ProcessedFile)) (s : State E)
  : Run E (State E) :=
  fun w =>
    let lastEvent w' := last (drop (length (progressLog w)) (progressLog w')) in
    match pipeline w with
    | (Returns results, w') =>
        (Returns (mkState (files s) false (lastEvent w') results None), w')
    | (Throws err, w') =>
        (Returns (mkState (files s) false (lastEvent w') (processedFiles s)
                    (Some (message err))), w')
    end.

End ToolPage.

(** The page of the GIF converter. *)
Module VideoToGifPage.
Import JS Runtime FileUploadZone.





Definition DEFAULT_OPTIONS : VideoToGif.GifConversionOptions :=
  {| VideoToGif.fps := 10;
     VideoToGif.quality := 10;
     VideoToGif.scale := 0.5;
     VideoToGif.startTime := 0;
     VideoToGif.maxDuration := 10;
     VideoToGif.dithering := VideoToGif.FloydSteinberg;
     VideoToGif.loop := 0;
     VideoToGif.workers := 4 |}.





(** The dimensions shown under the scale slider. *)
Definition estimatedWidth (videoMetadata : option GifMetadata.Metadata)
    (options : VideoToGif.GifConversionOptions) : option Z :=
  match videoMetadata with
  | Some m =>
      Some (Math_round (mul (GifMetadata.width m) (VideoToGif.scale options)))
  | None => None
  end.
Definition estimatedHeight (videoMetadata : option GifMetadata.Metadata)
    (options : VideoToGif.GifConversionOptions) : option Z :=
  match videoMetadata with
  | Some m =>
      Some (Math_round (mul (GifMetadata.height m) (VideoToGif.scale options)))
  | None => None
  end.

Definition handleConvert (env : Env)
    (options : VideoToGif.GifConversionOptions)
    (s : ToolPage.State VideoToGif.ConversionProgress)
  : Run VideoToGif.ConversionProgress
        (ToolPage.State VideoToGif.ConversionProgress) :=
  match ToolPage.files s with
  | [] => ret s
  | f :: _ =>
      ToolPage.runTool
        (result <- VideoToGif.convertVideoToGif env (file f) options ;;
         ret [result]) s
  end.

End VideoToGifPage.

(** The page of the audio extractor. *)
Module AudioExtractorPage.
Import JS Runtime FileUploadZone.

Definition DEFAULT_OPTIONS : AudioExtractor.AudioExtractionOptions :=
  {| AudioExtractor.format := AudioExtractor.mp3;
     AudioExtractor.quality := AudioExtractor.medium |}.

Definition handleExtract (env : Env)
    (options : AudioExtractor.AudioExtractionOptions)
    (s : ToolPage.State AudioExtractor.AudioExtractionProgress)
  : Run AudioExtractor.AudioExtractionProgress
        (ToolPage.State AudioExtractor.AudioExtractionProgress) :=
  match ToolPage.files s with
  | [] => ret s
  | f :: _ =>
      ToolPage.runTool
        (result <- AudioExtractor.extractAudioFromVideo env (file f) options ;;
         ret [result]) s
  end.

End AudioExtractorPage.

(** The page of the audio splitter. The segment length is the text of an
    input field; [parseFloat] yields a number or [NaN], here [None]. *)
Module AudioSplitterPage.
Import JS Runtime FileUploadZone.

Definition handleSplit (parseFloat : string -> option Q) (env : Env)
    (segmentLength : string)
    (s : ToolPage.State AudioSplitter.AudioSplitProgress)
  : Run AudioSplitter.AudioSplitProgress
        (ToolPage.State AudioSplitter.AudioSplitProgress) :=
  match ToolPage.files s with
  | [] => ret s
  | f :: _ =>
      match parseFloat segmentLength with
      | Some length =>
          if Qle_bool length 0 then
            ret (ToolPage.mkState (ToolPage.files s) (ToolPage.isProcessing s)
                   (ToolPage.progress s) (ToolPage.processedFiles s)
                   (Some "Segment length must be a positive number"))
          else ToolPage.runTool (AudioSplitter.splitAudio env (file f) length) s
      | None =>
          ret (ToolPage.mkState (ToolPage.files s) (ToolPage.isProcessing s)
                 (ToolPage.progress s) (ToolPage.processedFiles s)
                 (Some "Segment length must be a positive number"))
      end
  end.

(** [estimatedSegments], for a parsed length other than 0:
    [Math.ceil(duration / parseFloat(segmentLength) || 1)]. *)
Definition estimatedSegments (parseFloat : string -> option Q)
    (audioMetadata : option Q) (segmentLength : string) : option Z :=
  match audioMetadata, segmentLength with
  | Some duration, String _ _ =>
      let quotient :=
        match parseFloat segmentLength with
        | Some length =>
            if Qeq_bool (div duration length) 0 then 1
            else div duration length
        | None => 1
        end in
      Some (Math_ceil quotient)
  | _, _ => None
  end.

(** The name of the archive that [downloadAll] asks for. *)
Definition zipFileName (files : list FileWithPreview) : string :=
  let baseName :=
    match files with
    | f :: _ => orElse (stripExtension (Runtime.name (file f))) "audio-split"
    | [] => "audio-split"
    end in
  (baseName ++ "-segments.zip")%string.

End AudioSplitterPage.

(** The page of the frame extractor. *)
Module FrameExtractorPage.
Import JS Runtime FileUploadZone.

(** The options that [handleExtractFrames] builds from the two selects. *)
Definition optionsOf (framePosition : FrameExtractor.Position)
    (outputFormat : FrameExtractor.Format)
  : FrameExtractor.FrameExtractionOptions :=
  {| FrameExtractor.position := framePosition;
     FrameExtractor.format := outputFormat;
     FrameExtractor.quality :=
       match outputFormat with
       | FrameExtractor.jpeg => 0.95
       | FrameExtractor.png => 1
       end |}.

(** [handleExtractFrames] acts on the cell [extractedFrames]; the page
    passes no progress callback, so the progress log of the world records
    the positions the batch went through. *)
Definition handleExtractFrames (env : Env) (files : list FileWithPreview)
    (framePosition : FrameExtractor.Position)
    (outputFormat : FrameExtractor.Format)
    (extractedFrames : list ProcessedFile)
  : Run FrameExtractor.BatchProgress (list ProcessedFile) :=
  match files with
  | [] => ret extractedFrames
  | _ :: _ =>
      tryCatch
        (FrameExtractor.extractFrames env (map file files)
           (optionsOf framePosition outputFormat))
        (fun _ => ret extractedFrames)
  end.

Definition zipFileName (framePosition : FrameExtractor.Position) : string :=
  ("extracted-frames-" ++
   match framePosition with
   | FrameExtractor.last_ => "last"
   | FrameExtractor.first => "first"
   end ++ ".zip")%string.

(** [downloadAll]: nothing is asked for when there are no frames, and a
    failure of the archive is caught. *)
Definition downloadAll {E} (generated : bool)
    (extractedFrames : list ProcessedFile)
    (framePosition : FrameExtractor.Position)
  : Run E (option ZipUtils.Download) :=
  match extractedFrames with
  | [] => ret None
  | _ :: _ =>
      tryCatch
        (link <- ZipUtils.createAndDownloadZip generated
                   (ZipUtils.zipFilesOf extractedFrames)
                   (zipFileName framePosition) ;;
         ret (Some link))
        (fun _ => ret None)
  end.

End FrameExtractorPage.

(** ** Object URLs *)

Module Hygiene.
Import Runtime.

(** Every live object URL was created before: the counter is above it. *)
Definition urlsFresh {E} (w : World E) : Prop :=
  forall u, u ∈ liveURLs w -> (u < nextURL w)%nat.

(** The object URLs [n], [n + 1], ..., [n + k - 1]. *)
Definition urlRange (n k : nat) : gset nat := list_to_set (seq n k).

(** The live object URLs are [L] and the next URL to be created is [n]. *)
Definition urlsAre {E} (L : gset nat) (n : nat) (w : World E) : Prop :=
  liveURLs w = L /\ nextURL w = n.

(** The object URLs of [L] are live, and were created before. *)
Definition keepsLive {E} (L : gset nat) (w : World E) : Prop :=
  L ⊆ liveURLs w /\ forall u, u ∈ L -> (u < nextURL w)%nat.

(** The files of an upload zone have distinct ids and distinct previews,
    and every preview is a live object URL. *)
Definition zoneOK {E} (files : list FileUploadZone.FileWithPreview)
    (w : World E) : Prop :=
  NoDup (map FileUploadZone.id files) /\
  NoDup (map FileUploadZone.preview files) /\
  Forall (fun f => FileUploadZone.preview f ∈ liveURLs w) files.

End Hygiene.

(** ** The engine singleton where loading fails *)

Module SessionFaults.
Import EngineSession.

(** The number of calls of [getFFmpeg] among the events. *)
Definition calls (evs : list Event) : nat :=
  length (List.filter (fun ev => match ev with Call => true | _ => false end)
            evs).

(** The message with which a call fails where [SharedArrayBuffer] is
    missing. *)
Definition unsupported : string := loadFailure sabMissing.

(** What holds of the singleton in every state it can reach where
    [SharedArrayBuffer] is missing. *)
Record withoutSab (s : State) : Prop := {
  ws_instance : ffmpegInstance s = None;
  ws_loading : ffmpegLoading s = false;
  ws_loaders : loaders s = [];
  ws_loads : loadsStarted s = 0%nat;
  ws_promises :
    forall p st, promises s !! p = Some st -> st = Rejected unsupported;
  ws_callers :
    forall c x, callers s !! c = Some x ->
      x = Failed unsupported \/
      exists p, x = Awaiting p /\ (p < length (promises s))%nat
}.

End SessionFaults.

(** * Properties *)

(** ** Rules for reasoning about runs *)

Section Rules.
Import Runtime Spec.
Context {E : Type}.

Lemma ensures_weaken {A} (P P' : World E -> Prop) (m : Run E A)
    (Qr Qr' : A -> World E -> Prop) (Qt Qt' : Error -> World E -> Prop) :
  ensures P' m Qr' Qt' ->
  (forall w, P w -> P' w) ->
  (forall a w, Qr' a w -> Qr a w) ->
  (forall e w, Qt' e w -> Qt e w) ->
  ensures P m Qr Qt.
Proof.
  intros Hm HP Hr Ht w Hw. specialize (Hm w (HP w Hw)).
  destruct (m w) as [[a | e] w']; auto.
Qed.

Lemma ensures_ret {A} (P : World E -> Prop) (a : A) Qr Qt :
  (forall w, P w -> Qr a w) -> ensures P (ret a) Qr Qt.
Proof. intros H w Hw. cbn. auto. Qed.

Lemma ensures_throw {A} (P : World E -> Prop) (e : Error)
    (Qr : A -> World E -> Prop) Qt :
  (forall w, P w -> Qt e w) -> ensures P (throw e) Qr Qt.
Proof. intros H w Hw. cbn. auto. Qed.

Lemma ensures_bind {A B} (P : World E -> Prop) (m : Run E A)
    (k : A -> Run E B) (R : A -> World E -> Prop) Qr Qt :
  ensures P m R Qt ->
  (forall a, ensures (R a) (k a) Qr Qt) ->
  ensures P (bind m k) Qr Qt.
Proof.
  intros Hm Hk w Hw. unfold bind. specialize (Hm w Hw).
  destruct (m w) as [[a | e] w']; [apply Hk; exact Hm | exact Hm].
Qed.

Lemma ensures_tryCatch {A} (P : World E -> Prop) (m : Run E A)
    (h : Error -> Run E A) (R : Error -> World E -> Prop) Qr Qt :
  ensures P m Qr R ->
  (forall e, ensures (R e) (h e) Qr Qt) ->
  ensures P (tryCatch m h) Qr Qt.
Proof.
  intros Hm Hh w Hw. unfold tryCatch. specialize (Hm w Hw).
  destruct (m w) as [[a | e] w']; [exact Hm | apply Hh; exact Hm].
Qed.

(** A loop keeps an invariant indexed by the loop counter. *)
Lemma ensures_forLoop (I : nat -> World E -> Prop)
    (Qt : Error -> World E -> Prop) (body : nat -> Run E unit) (n i : nat) :
  (forall j, (i <= j < i + n)%nat ->
     ensures (I j) (body j) (fun _ => I (S j)) Qt) ->
  ensures (I i) (forLoop n i body) (fun _ => I (i + n)%nat) Qt.
Proof.
  revert i. induction n as [| n IH]; intros i Hbody.
  - apply ensures_ret. intros w Hw. replace (i + 0)%nat with i by lia. exact Hw.
  - cbn [forLoop]. eapply ensures_bind.
    + apply Hbody. lia.
    + intros u. eapply ensures_weaken.
      * apply (IH (S i)). intros j Hj. apply Hbody. lia.
      * auto.
      * intros u' w Hw. replace (i + S n)%nat with (S i + n)%nat by lia. exact Hw.
      * auto.
Qed.

Lemma ensures_forEach {A} (I : World E -> Prop)
    (Qt : Error -> World E -> Prop) (body : A -> Run E unit) (l : list A) :
  (forall x, In x l -> ensures I (body x) (fun _ => I) Qt) ->
  ensures I (forEach l body) (fun _ => I) Qt.
Proof.
  induction l as [| x l IH]; intros Hbody.
  - apply ensures_ret. auto.
  - cbn [forEach]. eapply ensures_bind.
    + apply Hbody. left. reflexivity.
    + intros u. apply IH. intros y Hy. apply Hbody. right. exact Hy.
Qed.

(** A listener that does nothing leaves the world alone. *)
Lemma forEach_skip {A} (l : list A) (w : World E) :
  forEach l (fun _ => ret tt) w = (Returns tt, w).
Proof. induction l as [| x l IH]; cbn; [reflexivity | exact IH]. Qed.

Lemma preserves_bind {A B} (I : World E -> Prop) (m : Run E A)
    (k : A -> Run E B) :
  preserves I m -> (forall a, preserves I (k a)) -> preserves I (bind m k).
Proof. intros Hm Hk. eapply ensures_bind; [exact Hm | exact Hk]. Qed.

Lemma preserves_tryCatch {A} (I : World E -> Prop) (m : Run E A)
    (h : Error -> Run E A) :
  preserves I m -> (forall e, preserves I (h e)) -> preserves I (tryCatch m h).
Proof. intros Hm Hh. eapply ensures_tryCatch; [exact Hm | exact Hh]. Qed.

Lemma preserves_ret {A} (I : World E -> Prop) (a : A) : preserves I (ret a).
Proof. apply ensures_ret. auto. Qed.

Lemma preserves_throw {A} (I : World E -> Prop) (e : Error) :
  preserves I (throw e : Run E A).
Proof. apply ensures_throw. auto. Qed.

Lemma preserves_forLoop (I : World E -> Prop) (body : nat -> Run E unit)
    (n i : nat) :
  (forall j, preserves I (body j)) -> preserves I (forLoop n i body).
Proof.
  intros Hbody. apply (ensures_forLoop (fun _ => I)). intros j _. apply Hbody.
Qed.

Lemma preserves_forEach {A} (I : World E -> Prop) (body : A -> Run E unit)
    (l : list A) :
  (forall x, preserves I (body x)) -> preserves I (forEach l body).
Proof. intros Hbody. apply ensures_forEach. intros x _. apply Hbody. Qed.


End Rules.

(** One step of a proof that a run keeps an invariant. *)
Ltac keeps :=
lazymatch goal with
| |- Spec.preserves _ (Runtime.bind _ _) => apply preserves_bind; [| intros ?]
| |- Spec.preserves _ (Runtime.tryCatch _ _) =>
    apply preserves_tryCatch; [| intros ?]
| |- Spec.preserves _ (Runtime.ret _) => apply preserves_ret
| |- Spec.preserves _ (Runtime.throw _) => apply preserves_throw
| |- Spec.preserves _ (Runtime.forLoop _ _ _) =>
    apply preserves_forLoop; intros ?
| |- Spec.preserves _ (Runtime.forEach _ _) =>
    apply preserves_forEach; intros ?
end.

(** ** Binary64 rounding *)

Section Binary64Facts.
Import Binary64.

Lemma fl_comp (x y : Q) : x == y -> fl x = fl y.
Proof. intros H. unfold fl. rewrite (Qred_complete x y H). reflexivity. Qed.

Lemma pow2_pos (k : Z) : 0 < 2 ^ k.
Proof. apply Qpower_0_lt. reflexivity. Qed.

Lemma pow2_succ (k : Z) : 2 ^ (k + 1) == 2 * 2 ^ k.
Proof. rewrite Qpower_plus by discriminate. change (2 ^ 1) with 2. ring. Qed.

Lemma pow2_le (a b : Z) : (a <= b)%Z -> 2 ^ a <= 2 ^ b.
Proof. intros H. apply Qpower_le_compat_l; [exact H | discriminate]. Qed.

Lemma Zlog2_bounds (n : Z) :
  (0 < n)%Z -> 2 ^ Z.log2 n <= inject_Z n /\ inject_Z n < 2 ^ (Z.log2 n + 1).
Proof.
  intros Hn. destruct (Z.log2_spec n Hn) as [Hlo Hhi].
  pose proof (Z.log2_nonneg n) as H0.
  change 2 with (inject_Z 2).
  rewrite <- !Zpower_Qpower by lia.
  split; [rewrite <- Zle_Qle; exact Hlo |].
  rewrite <- Zlt_Qlt. replace (Z.log2 n + 1)%Z with (Z.succ (Z.log2 n)) by lia.
  exact Hhi.
Qed.

Lemma ilog2_spec (x : Q) :
  0 < x -> 2 ^ ilog2 x <= x /\ x < 2 ^ (ilog2 x + 1).
Proof.
  intros Hx. unfold ilog2.
  destruct x as [n d]. cbn [Qnum Qden].
  assert (Hn : (0 < n)%Z).
  { unfold Qlt in Hx. cbn in Hx. lia. }
  destruct (Zlog2_bounds n Hn) as [Hnlo Hnhi].
  destruct (Zlog2_bounds (Z.pos d) ltac:(lia)) as [Hdlo Hdhi].
  set (a := Z.log2 n) in *. set (b := Z.log2 (Z.pos d)) in *.
  assert (Hx' : n # d == inject_Z n / inject_Z (Z.pos d)) by apply Qmake_Qdiv.
  assert (Hd : 0 < inject_Z (Z.pos d)) by reflexivity.
  pose proof (pow2_pos a) as Hpa. pose proof (pow2_pos b) as Hpb.
  pose proof (pow2_pos (a - b)) as Hpk.
  assert (Hk : 2 ^ (a - b) * 2 ^ b == 2 ^ a).
  { rewrite <- Qpower_plus by discriminate. replace (a - b + b)%Z with a by lia.
    reflexivity. }
  destruct (Qle_bool (2 ^ (a - b)) (n # d)) eqn:Htest.
  - apply Qle_bool_iff in Htest. split; [exact Htest |].
    rewrite Hx'. apply Qlt_shift_div_r; [exact Hd |].
    rewrite pow2_succ.
    assert (2 ^ a <= 2 ^ (a - b) * inject_Z (Z.pos d)).
    { rewrite <- Hk. apply Qmult_le_l; [exact Hpk | exact Hdlo]. }
    rewrite pow2_succ in Hnhi. lra.
  - assert (Hlt : n # d < 2 ^ (a - b)).
    { apply Qnot_le_lt. intros Hle. apply Qle_bool_iff in Hle. congruence. }
    split.
    + rewrite Hx'. apply Qle_shift_div_l; [exact Hd |].
      assert (Hkm : 2 ^ (a - b - 1) * 2 ^ (b + 1) == 2 ^ a).
      { rewrite <- Qpower_plus by discriminate.
        replace (a - b - 1 + (b + 1))%Z with a by lia. reflexivity. }
      assert (2 ^ (a - b - 1) * inject_Z (Z.pos d) <= 2 ^ a).
      { rewrite <- Hkm. apply Qmult_le_l; [apply pow2_pos | lra]. }
      lra.
    + replace (a - b - 1 + 1)%Z with (a - b)%Z by lia. exact Hlt.
Qed.

Lemma nearestEven_ge_floor (x : Q) : (Qfloor x <= nearestEven x)%Z.
Proof.
  unfold nearestEven.
  destruct (Qcompare _ _); [destruct (Z.even _) | |]; lia.
Qed.

(** A number from 1 on rounds to a number from 1 on. *)
Lemma fl_ge_1 (x : Q) : 1 <= x -> 1 <= fl x.
Proof.
  intros Hx. unfold fl.
  pose proof (Qred_correct x) as Hred.
  set (r := Qred x) in *.
  assert (Hr : 1 <= r) by (rewrite Hred; exact Hx).
  assert (Hpos : 0 < r) by lra.
  destruct (Qnum r) eqn:Hnum.
  - exfalso. destruct r as [n d]. cbn in Hnum. subst n.
    unfold Qlt in Hpos. cbn in Hpos. lia.
  - rewrite Qred_correct. unfold roundPositive, ulpExponent.
    destruct (ilog2_spec r Hpos) as [Hlo Hhi].
    set (l := ilog2 r) in *.
    assert (Hl : (0 <= l)%Z).
    { destruct (Z_lt_le_dec l 0) as [Hneg | Hok]; [| exact Hok].
      exfalso. assert (2 ^ (l + 1) <= 2 ^ 0) by (apply pow2_le; lia).
      change (2 ^ 0) with 1 in *. lra. }
    rewrite Z.max_l by lia.
    pose proof (pow2_pos (l - 52)) as Hpe.
    assert (Hsplit : 2 ^ l == 2 ^ 52 * 2 ^ (l - 52)).
    { rewrite <- Qpower_plus by discriminate.
      replace (52 + (l - 52))%Z with l by lia. reflexivity. }
    assert (Hscaled : inject_Z (2 ^ 52) <= r / 2 ^ (l - 52)).
    { apply Qle_shift_div_l; [exact Hpe |].
      rewrite Zpower_Qpower by lia. change (inject_Z 2) with 2.
      rewrite <- Hsplit. exact Hlo. }
    apply Qfloor_resp_le in Hscaled. rewrite Qfloor_Z in Hscaled.
    pose proof (nearestEven_ge_floor (r / 2 ^ (l - 52))) as Hm.
    assert (Hm' : inject_Z (2 ^ 52) <= inject_Z (nearestEven (r / 2 ^ (l - 52)))).
    { rewrite <- Zle_Qle. lia. }
    rewrite Zpower_Qpower in Hm' by lia. change (inject_Z 2) with 2 in Hm'.
    assert (H1 : 1 <= 2 ^ l).
    { change 1 with (2 ^ 0). apply pow2_le. exact Hl. }
    assert (2 ^ 52 * 2 ^ (l - 52) <=
            inject_Z (nearestEven (r / 2 ^ (l - 52))) * 2 ^ (l - 52)).
    { apply Qmult_le_compat_r; [exact Hm' | lra]. }
    lra.
  - exfalso. destruct r as [n d]. cbn in Hnum. subst n.
    unfold Qlt in Hpos. cbn in Hpos. lia.
Qed.


Lemma nearestEven_le_succ (x : Q) : (nearestEven x <= Qfloor x + 1)%Z.
Proof.
  unfold nearestEven.
  destruct (Qcompare _ _); [destruct (Z.even _) | |]; lia.
Qed.

Lemma nearestEven_Z (z : Z) : nearestEven (inject_Z z) = z.
Proof.
  unfold nearestEven. rewrite Qfloor_Z.
  destruct (Qcompare_spec (inject_Z z - inject_Z z) (1 # 2)) as [H | H | H];
    [exfalso; lra | reflexivity | exfalso; lra].
Qed.

Lemma nearestEven_mono (a b : Q) : a <= b -> (nearestEven a <= nearestEven b)%Z.
Proof.
  intros Hab. pose proof (Qfloor_resp_le a b Hab) as Hf.
  destruct (Z.eq_dec (Qfloor a) (Qfloor b)) as [Heq | Hne].
  - unfold nearestEven. rewrite <- Heq.
    destruct (Qcompare_spec (a - inject_Z (Qfloor a)) (1 # 2)) as [Ha | Ha | Ha];
      destruct (Qcompare_spec (b - inject_Z (Qfloor a)) (1 # 2)) as [Hb | Hb | Hb];
      try (destruct (Z.even (Qfloor a))); try lia; exfalso; lra.
  - pose proof (nearestEven_le_succ a). pose proof (nearestEven_ge_floor b). lia.
Qed.

Lemma ilog2_mono (x y : Q) : 0 < x -> x <= y -> (ilog2 x <= ilog2 y)%Z.
Proof.
  intros Hx Hxy.
  destruct (ilog2_spec x Hx) as [Hlo _].
  destruct (ilog2_spec y ltac:(lra)) as [_ Hhi].
  destruct (Z_lt_le_dec (ilog2 y) (ilog2 x)) as [Hgt | Hle]; [| exact Hle].
  exfalso. assert (2 ^ (ilog2 y + 1) <= 2 ^ ilog2 x) by (apply pow2_le; lia).
  lra.
Qed.

Lemma pow2_split (a b : Z) : 2 ^ (a + b) == 2 ^ a * 2 ^ b.
Proof. apply Qpower_plus. discriminate. Qed.

(** A positive number rounds to at least the power of two below it when
    it is not subnormal, and to at most the power of two that ends its
    binade. *)
Lemma roundPositive_lower (x : Q) :
  0 < x -> (-1074 <= ilog2 x - 52)%Z -> 2 ^ ilog2 x <= roundPositive x.
Proof.
  intros Hx Hnormal. unfold roundPositive, ulpExponent.
  destruct (ilog2_spec x Hx) as [Hlo _]. set (l := ilog2 x) in *.
  rewrite Z.max_l by lia.
  pose proof (pow2_pos (l - 52)) as Hpe.
  assert (Hsplit : 2 ^ l == 2 ^ 52 * 2 ^ (l - 52)).
  { rewrite <- pow2_split. replace (52 + (l - 52))%Z with l by lia. reflexivity. }
  assert (Hscaled : inject_Z (2 ^ 52) <= x / 2 ^ (l - 52)).
  { apply Qle_shift_div_l; [exact Hpe |].
    rewrite Zpower_Qpower by lia. change (inject_Z 2) with 2.
    rewrite <- Hsplit. exact Hlo. }
  apply nearestEven_mono in Hscaled. rewrite nearestEven_Z in Hscaled.
  assert (Hm : inject_Z (2 ^ 52) <= inject_Z (nearestEven (x / 2 ^ (l - 52))))
    by (rewrite <- Zle_Qle; exact Hscaled).
  rewrite Zpower_Qpower in Hm by lia. change (inject_Z 2) with 2 in Hm.
  rewrite Hsplit. apply Qmult_le_compat_r; [exact Hm | lra].
Qed.

Lemma roundPositive_upper (x : Q) :
  0 < x -> roundPositive x <= 2 ^ (ulpExponent x + 53).
Proof.
  intros Hx. unfold roundPositive.
  destruct (ilog2_spec x Hx) as [_ Hhi].
  set (e := ulpExponent x).
  assert (He : (ilog2 x + 1 <= e + 53)%Z) by (unfold e, ulpExponent; lia).
  pose proof (pow2_pos e) as Hpe.
  assert (Hsplit : 2 ^ (e + 53) == 2 ^ 53 * 2 ^ e).
  { rewrite <- pow2_split. replace (53 + e)%Z with (e + 53)%Z by lia.
    reflexivity. }
  assert (Hx53 : x <= 2 ^ (e + 53)).
  { pose proof (pow2_le _ _ He). lra. }
  assert (Hscaled : x / 2 ^ e <= inject_Z (2 ^ 53)).
  { apply Qle_shift_div_r; [exact Hpe |].
    rewrite Zpower_Qpower by lia. change (inject_Z 2) with 2.
    rewrite <- Hsplit. exact Hx53. }
  apply nearestEven_mono in Hscaled. rewrite nearestEven_Z in Hscaled.
  assert (Hm : inject_Z (nearestEven (x / 2 ^ e)) <= inject_Z (2 ^ 53))
    by (rewrite <- Zle_Qle; exact Hscaled).
  rewrite Zpower_Qpower in Hm by lia. change (inject_Z 2) with 2 in Hm.
  rewrite Hsplit. apply Qmult_le_compat_r; [exact Hm | lra].
Qed.

Lemma roundPositive_mono (x y : Q) :
  0 < x -> x <= y -> roundPositive x <= roundPositive y.
Proof.
  intros Hx Hxy. assert (Hy : 0 < y) by lra.
  pose proof (ilog2_mono x y Hx Hxy) as Hl.
  destruct (Z.eq_dec (ulpExponent x) (ulpExponent y)) as [Heq | Hne].
  - unfold roundPositive. rewrite Heq.
    pose proof (pow2_pos (ulpExponent y)) as Hpe.
    apply Qmult_le_compat_r; [| lra].
    rewrite <- Zle_Qle. apply nearestEven_mono.
    apply Qmult_le_compat_r; [exact Hxy |].
    apply Qinv_le_0_compat. lra.
  - assert (Hlt : (ulpExponent x < ulpExponent y)%Z)
      by (unfold ulpExponent in *; lia).
    assert (Hnormal : (-1074 <= ilog2 y - 52)%Z)
      by (unfold ulpExponent in *; lia).
    pose proof (roundPositive_upper x Hx) as Hup.
    pose proof (roundPositive_lower y Hy Hnormal) as Hlow.
    assert (2 ^ (ulpExponent x + 53) <= 2 ^ ilog2 y).
    { apply pow2_le. unfold ulpExponent in *. lia. }
    lra.
Qed.

Lemma roundPositive_nonneg (x : Q) : 0 < x -> 0 <= roundPositive x.
Proof.
  intros Hx. unfold roundPositive.
  pose proof (pow2_pos (ulpExponent x)) as Hpe.
  apply Qmult_le_0_compat; [| lra].
  assert (H0 : inject_Z 0 <= x / 2 ^ ulpExponent x).
  { apply Qle_shift_div_l; [exact Hpe |]. change (inject_Z 0) with 0. lra. }
  apply nearestEven_mono in H0. rewrite nearestEven_Z in H0.
  change 0 with (inject_Z 0). rewrite <- Zle_Qle. exact H0.
Qed.

Lemma Qnum_sign (x : Q) :
  match Qnum x with
  | Z0 => x == 0
  | Zpos _ => 0 < x
  | Zneg _ => x < 0
  end.
Proof. destruct x as [[| p | p] d]; reflexivity. Qed.

(** Rounding keeps the order. *)
Lemma fl_mono (x y : Q) : x <= y -> fl x <= fl y.
Proof.
  intros Hxy. unfold fl.
  pose proof (Qred_correct x) as Hrx. pose proof (Qred_correct y) as Hry.
  set (rx := Qred x) in *. set (ry := Qred y) in *.
  assert (Hr : rx <= ry) by (rewrite Hrx, Hry; exact Hxy).
  pose proof (Qnum_sign rx) as Hsx. pose proof (Qnum_sign ry) as Hsy.
  destruct (Qnum rx), (Qnum ry); rewrite ?Qred_correct; try lra.
  - apply roundPositive_nonneg. exact Hsy.
  - apply roundPositive_mono; assumption.
  - pose proof (roundPositive_nonneg (- rx) ltac:(lra)). lra.
  - pose proof (roundPositive_nonneg (- rx) ltac:(lra)).
    pose proof (roundPositive_nonneg ry Hsy). lra.
  - pose proof (roundPositive_mono (- ry) (- rx) ltac:(lra) ltac:(lra)). lra.
Qed.

Lemma nearestEven_comp (a b : Q) : a == b -> nearestEven a = nearestEven b.
Proof.
  intros Hab.
  pose proof (nearestEven_mono a b ltac:(lra)).
  pose proof (nearestEven_mono b a ltac:(lra)). lia.
Qed.

Lemma roundPositive_integer (r : Q) (k : Z) :
  r == inject_Z k -> (1 <= k <= 2 ^ 53)%Z -> roundPositive r == inject_Z k.
Proof.
  intros Hr Hk.
  assert (H1 : 1 <= r).
  { rewrite Hr. change 1 with (inject_Z 1). rewrite <- Zle_Qle. lia. }
  assert (Hpos : 0 < r) by lra.
  unfold roundPositive, ulpExponent.
  destruct (ilog2_spec r Hpos) as [Hlo Hhi].
  set (l := ilog2 r) in *. clearbody l.
  assert (Hl0 : (0 <= l)%Z).
  { destruct (Z_lt_le_dec l 0) as [Hneg | Hok]; [| exact Hok].
    exfalso. assert (2 ^ (l + 1) <= 2 ^ 0) by (apply pow2_le; lia).
    change (2 ^ 0) with 1 in *. lra. }
  assert (Hl53 : (l <= 53)%Z).
  { destruct (Z_lt_le_dec 53 l) as [Hbig | Hok]; [| exact Hok].
    exfalso. assert (2 ^ 54 <= 2 ^ l) by (apply pow2_le; lia).
    assert (inject_Z k <= inject_Z (2 ^ 53)) by (rewrite <- Zle_Qle; lia).
    assert (inject_Z (2 ^ 53) < 2 ^ 54) by reflexivity. lra. }
  rewrite Z.max_l by lia.
  pose proof (pow2_pos (l - 52)) as Hpe.
  assert (Hint : exists z, r / 2 ^ (l - 52) == inject_Z z).
  { destruct (Z_le_gt_dec l 52) as [Hsmall | Hbig].
    - exists (k * 2 ^ (52 - l))%Z.
      rewrite inject_Z_mult, Zpower_Qpower by lia. change (inject_Z 2) with 2.
      replace (l - 52)%Z with (- (52 - l))%Z by lia. rewrite Qpower_opp, Hr.
      field. apply Qpower_not_0. discriminate.
    - assert (l = 53%Z) by lia. subst l.
      assert (Hk53 : k = (2 ^ 53)%Z).
      { assert (Hge : inject_Z (2 ^ 53) <= inject_Z k)
          by (rewrite <- Hr; exact Hlo).
        rewrite <- Zle_Qle in Hge. lia. }
      exists (2 ^ 52)%Z. rewrite Hr, Hk53. reflexivity. }
  destruct Hint as [z Hz].
  rewrite (nearestEven_comp _ _ Hz), nearestEven_Z, <- Hz, Hr.
  field. lra.
Qed.

(** The integers from 0 to [2 ^ 53] are binary64 numbers. *)
Lemma fl_integer (k : Z) : (0 <= k <= 2 ^ 53)%Z -> fl (inject_Z k) == inject_Z k.
Proof.
  intros Hk. unfold fl.
  pose proof (Qred_correct (inject_Z k)) as Hr.
  set (r := Qred (inject_Z k)) in *.
  pose proof (Qnum_sign r) as Hs.
  assert (H0 : 0 <= r).
  { rewrite Hr. change 0 with (inject_Z 0). rewrite <- Zle_Qle. lia. }
  destruct (Qnum r).
  - rewrite <- Hr. symmetry. exact Hs.
  - rewrite Qred_correct. apply roundPositive_integer; [exact Hr |].
    assert (H : inject_Z 0 < inject_Z k) by (rewrite <- Hr; exact Hs).
    rewrite <- Zlt_Qlt in H. lia.
  - exfalso. lra.
Qed.

End Binary64Facts.

(** ** Binary64 rounding against the kernel's floats *)

(** The numbers of the model are those of the kernel's binary64 floats on
    the values that the examples below rely on. *)
Section KernelFloats.
Import Stdlib.Floats.PrimFloat.

#[warnings="-inexact-float"]
Example kernel_floats :
  Binary64.ofFloat 0.7%float = Some (JS.num 0.7) /\
  Binary64.ofFloat (PrimFloat.mul 175 0.7) = Some (JS.mul 175 (JS.num 0.7)) /\
  Binary64.ofFloat (PrimFloat.mul 250 0.49) =
    Some (JS.mul 250 (JS.num 0.49)) /\
  Binary64.ofFloat (PrimFloat.div 8.4 1.2) =
    Some (JS.div (JS.num 8.4) (JS.num 1.2)) /\
  Binary64.ofFloat (PrimFloat.div 6 1.2) = Some (JS.div 6 (JS.num 1.2)) /\
  Binary64.ofFloat (PrimFloat.sub (PrimFloat.add 0.1 4) 0.1) =
    Some (JS.sub (JS.add (JS.num 0.1) 4) (JS.num 0.1)) /\
  Binary64.ofFloat (PrimFloat.mul (PrimFloat.div 1 30) 1000) =
    Some (JS.mul (JS.div 1 30) 1000).
Proof. repeat split; vm_compute; reflexivity. Qed.

End KernelFloats.

(** ** Arithmetic of the JavaScript primitives *)

Section Arithmetic.
Import JS.

Lemma Math_round_half (w : Z) :
  Math_round (inject_Z w / 2) = ((w + 1) / 2)%Z.
Proof.
  unfold Math_round. rewrite Zdiv_Qdiv. apply Qfloor_comp.
  rewrite inject_Z_plus. change (inject_Z 1) with 1. change (inject_Z 2) with 2.
  field.
Qed.

Lemma Math_floor_unit_half (p : Q) :
  0 <= p -> p <= 1 -> Math_floor (p * 0.5) = 0%Z.
Proof.
  intros H0 H1. unfold Math_floor.
  pose proof (Qfloor_le (p * 0.5)) as Hle.
  pose proof (Qlt_floor (p * 0.5)) as Hlt.
  assert (Hlo : (-1 < Qfloor (p * 0.5))%Z).
  { rewrite Zlt_Qlt. rewrite inject_Z_plus in Hlt.
    change (inject_Z 1) with 1 in Hlt. change (inject_Z (-1)) with (-1). lra. }
  assert (Hhi : (Qfloor (p * 0.5) < 1)%Z).
  { rewrite Zlt_Qlt. change (inject_Z 1) with 1. lra. }
  lia.
Qed.

Lemma Math_ceil_ge_1 (x : Q) : 1 <= x -> (1 <= Math_ceil x)%Z.
Proof.
  intros H. unfold Math_ceil.
  change 1%Z with (Qceiling (inject_Z 1)) at 1.
  apply Qceiling_resp_le. exact H.
Qed.

Lemma Qdiv_ge_1 (d len : Q) : 0 < len -> len <= d -> 1 <= d / len.
Proof.
  intros Hpos Hle. apply Qle_shift_div_l; [exact Hpos | lra].
Qed.

(** The binary64 quotient of a duration by a length that fits in it is at
    least 1, and it is 1 when the two are equal. *)
Lemma div_ge_1 (d len : Q) : 0 < len -> len <= d -> 1 <= div d len.
Proof. intros Hpos Hle. apply fl_ge_1, Qdiv_ge_1; assumption. Qed.

Lemma div_same (d len : Q) : 0 < len -> len == d -> div d len = 1.
Proof.
  intros Hpos Heq. unfold div.
  rewrite (fl_comp (d / len) 1); [reflexivity |].
  rewrite Heq. field. lra.
Qed.


Lemma Qle_bool_true (x y : Q) : Qle_bool x y = true <-> x <= y.
Proof. apply Qle_bool_iff. Qed.

Lemma Qle_bool_false (x y : Q) : Qle_bool x y = false <-> y < x.
Proof.
  split; intros H.
  - apply Qnot_le_lt. intros Hle. apply Qle_bool_iff in Hle. congruence.
  - destruct (Qle_bool x y) eqn:E; [| reflexivity].
    apply Qle_bool_iff in E. lra.
Qed.

End Arithmetic.

(** ** GIF dimensions *)

Section Dimensions.
Import JS VideoToGif.

(** The last step of [calculateDimensions] keeps an even number and moves
    an odd one up by one. *)
Lemma even_rounding (w : Z) :
  let r := (Math_round (inject_Z w / 2) * 2)%Z in
  Z.even r = true /\ (w <= r <= w + 1)%Z /\ (Z.even w = true -> r = w).
Proof.
  cbv zeta. rewrite Math_round_half.
  pose proof (Z.div_mod (w + 1) 2 ltac:(lia)) as Hdm.
  pose proof (Z.mod_pos_bound (w + 1) 2 ltac:(lia)) as Hb.
  split; [| split].
  - rewrite Z.even_mul. simpl. apply orb_true_r.
  - lia.
  - intros Hev. apply Zeven_bool_iff in Hev. apply Zeven_ex_iff in Hev.
    destruct Hev as [k ->].
    replace (2 * k + 1)%Z with (1 + k * 2)%Z by lia.
    rewrite Z.div_add by lia. change (1 / 2)%Z with 0%Z. lia.
Qed.

(** C4. [calculateDimensions] rounds each scaled dimension (the binary64
    product of the dimension and the scale), raises it to at least 10 and
    then rounds it to an even number, in that order; each returned
    dimension is an even integer that is at least 10 and at most one away
    from the raised value. *)
Theorem calculateDimensions_even_min (originalWidth originalHeight scale : Q) :
  let d := calculateDimensions originalWidth originalHeight scale in
  let w1 := Z.max (Math_round (mul originalWidth scale)) 10 in
  let h1 := Z.max (Math_round (mul originalHeight scale)) 10 in
  width d = (Math_round (inject_Z w1 / 2) * 2)%Z /\
  height d = (Math_round (inject_Z h1 / 2) * 2)%Z /\
  Z.even (width d) = true /\ Z.even (height d) = true /\
  (10 <= width d)%Z /\ (10 <= height d)%Z /\
  (w1 <= width d <= w1 + 1)%Z /\ (h1 <= height d <= h1 + 1)%Z /\
  (width d = w1 <-> Z.even w1 = true) /\
  (height d = h1 <-> Z.even h1 = true).
Proof.
  cbv zeta. unfold calculateDimensions. simpl.
  set (w1 := Z.max (Math_round (mul originalWidth scale)) 10).
  set (h1 := Z.max (Math_round (mul originalHeight scale)) 10).
  destruct (even_rounding w1) as (Hwe & Hwb & Hwf).
  destruct (even_rounding h1) as (Hhe & Hhb & Hhf).
  cbv zeta in Hwb, Hhb, Hwe, Hhe, Hwf, Hhf.
  assert (10 <= w1)%Z by (unfold w1; lia).
  assert (10 <= h1)%Z by (unfold h1; lia).
  repeat split; try assumption; try reflexivity; try lia.
  - intros Heq. rewrite Heq in Hwe. exact Hwe.
  - intros Heq. rewrite Heq in Hhe. exact Hhe.
Qed.

(** The spec's example: a width of 101 at scale 0.5 is scaled to 50.5,
    rounded to 51 and made even, 52. *)
Example calculateDimensions_101 :
  width (calculateDimensions 101 57 0.5) = 52%Z.
Proof. reflexivity. Qed.

(** The product is the binary64 one: 175 times the number 0.7 is just
    below 122.5 and rounds to 122, and 250 times the number 0.49 is 122.5
    and rounds to 123, made even 124. *)
Example calculateDimensions_binary64 :
  width (calculateDimensions 175 100 (num 0.7)) = 122%Z /\
  width (calculateDimensions 250 100 (num 0.49)) = 124%Z.
Proof. split; vm_compute; reflexivity. Qed.

End Dimensions.

(** ** Segment planning of the audio split *)

Section Planning.
Import JS Runtime AudioSplitter Spec.

Lemma planSegments_notPositive (duration segmentLength : Q) :
  segmentLength <= 0 -> planSegments duration segmentLength = inl notPositive.
Proof.
  intros H. unfold planSegments.
  apply Qle_bool_true in H. rewrite H. reflexivity.
Qed.

Lemma planSegments_tooLong (duration segmentLength : Q) :
  0 < segmentLength -> duration < segmentLength ->
  planSegments duration segmentLength = inl tooLong.
Proof.
  intros Hpos H. unfold planSegments.
  apply Qle_bool_false in Hpos. rewrite Hpos.
  apply Qle_bool_false in H. rewrite H. reflexivity.
Qed.

Lemma planSegments_valid (duration segmentLength : Q) :
  0 < segmentLength -> segmentLength <= duration ->
  planSegments duration segmentLength =
    inr (Math_ceil (div duration segmentLength)).
Proof.
  intros Hpos H. unfold planSegments.
  apply Qle_bool_false in Hpos. rewrite Hpos.
  apply Qle_bool_true in H. rewrite H. reflexivity.
Qed.

Lemma planSegments_inr (duration segmentLength : Q) (n : Z) :
  planSegments duration segmentLength = inr n ->
  0 < segmentLength /\ segmentLength <= duration /\
  n = Math_ceil (div duration segmentLength) /\ (1 <= n)%Z.
Proof.
  unfold planSegments.
  destruct (Qle_bool segmentLength 0) eqn:E0; [discriminate |].
  destruct (Qle_bool segmentLength duration) eqn:E1; [| discriminate].
  simpl. intros [= <-].
  apply Qle_bool_false in E0. apply Qle_bool_true in E1.
  repeat split; try assumption.
  apply Math_ceil_ge_1. apply div_ge_1; assumption.
Qed.

(** A failed validation ends the run with the validation error. *)
Lemma splitAudio_invalid (env : Env) (file : File) (duration segmentLength : Q)
    (e : Error) (w : World AudioSplitProgress) :
  loadAudio env file = Some duration ->
  planSegments duration segmentLength = inl e ->
  InvalidSegmentLengthError e ->
  fst (splitAudio env file segmentLength w) = Throws e.
Proof.
  intros Hload Hplan Hinv.
  unfold splitAudio, tryCatch, bind, getAudioMetadata, bind. cbn.
  rewrite Hload. cbn. rewrite Hplan. cbn.
  destruct Hinv as [-> | ->]; reflexivity.
Qed.

(** C6. Segment planning fails with one of the two validation errors
    exactly when the segment length is not positive or exceeds the
    duration, and the run of [splitAudio] then throws that error; otherwise
    planning succeeds with at least one unit (the ceiling of the binary64
    quotient of the duration by the segment length), and with exactly one
    when the segment length equals the duration. *)
Theorem planSegments_validation (duration segmentLength : Q) :
  (segmentLength <= 0 \/ duration < segmentLength <->
   exists e, planSegments duration segmentLength = inl e /\
             InvalidSegmentLengthError e) /\
  (0 < segmentLength /\ segmentLength <= duration <->
   exists n, planSegments duration segmentLength = inr n) /\
  (0 < segmentLength -> segmentLength <= duration ->
   planSegments duration segmentLength =
     inr (Math_ceil (div duration segmentLength)) /\
   (1 <= Math_ceil (div duration segmentLength))%Z) /\
  (0 < segmentLength -> segmentLength == duration ->
   planSegments duration segmentLength = inr 1%Z) /\
  (forall env file (w : World AudioSplitProgress),
     loadAudio env file = Some duration ->
     segmentLength <= 0 \/ duration < segmentLength ->
     exists e, fst (splitAudio env file segmentLength w) = Throws e /\
               InvalidSegmentLengthError e).
Proof.
  assert (Hfail : segmentLength <= 0 \/ duration < segmentLength ->
            exists e, planSegments duration segmentLength = inl e /\
                      InvalidSegmentLengthError e).
  { intros [H | H].
    - exists notPositive. split; [apply planSegments_notPositive; exact H | left; reflexivity].
    - destruct (Qlt_le_dec 0 segmentLength) as [Hpos | Hnp].
      + exists tooLong. split; [apply planSegments_tooLong; assumption | right; reflexivity].
      + exists notPositive. split; [apply planSegments_notPositive; exact Hnp | left; reflexivity]. }
  split; [| split; [| split; [| split]]].
  - split; [exact Hfail |].
    intros (e & He & _).
    destruct (Qlt_le_dec 0 segmentLength) as [Hpos | Hnp]; [| left; exact Hnp].
    destruct (Qlt_le_dec duration segmentLength) as [Hlt | Hle]; [right; exact Hlt |].
    rewrite planSegments_valid in He by assumption. discriminate.
  - split.
    + intros [Hpos Hle]. eexists. apply planSegments_valid; assumption.
    + intros [n Hn]. apply planSegments_inr in Hn. tauto.
  - intros Hpos Hle. split; [apply planSegments_valid; assumption |].
    apply Math_ceil_ge_1. apply div_ge_1; assumption.
  - intros Hpos Heq. rewrite planSegments_valid; [| exact Hpos | lra].
    rewrite (div_same duration segmentLength Hpos Heq). reflexivity.
  - intros env file w Hload Hbad.
    destruct (Hfail Hbad) as (e & He & Hinv).
    exists e. split; [| exact Hinv].
    eapply splitAudio_invalid; eassumption.
Qed.

Lemma planSegments_validation_witness :
  planSegments 10 10 = inr 1%Z /\
  planSegments 10 4 = inr 3%Z /\
  (exists e, planSegments 10 11 = inl e /\ InvalidSegmentLengthError e).
Proof.
  destruct (planSegments_validation 10 10) as (_ & _ & _ & Heq & _).
  destruct (planSegments_validation 10 4) as (_ & _ & Hok & _).
  destruct (planSegments_validation 10 11) as (Hbad & _).
  split; [| split].
  - apply Heq; [reflexivity | reflexivity].
  - apply Hok; [reflexivity | discriminate].
  - apply Hbad. right. reflexivity.
Defined.

(** The quotient is the binary64 one.  The numbers 8.4 and 1.2 have a
    quotient just above 7, which gives 8 units; the exact quotient of 6 by
    the number 1.2 is just above 5 and rounds to 5, which gives 5 units
    where exact arithmetic gives 6. *)
Example planSegments_binary64 :
  planSegments (num 8.4) (num 1.2) = inr 8%Z /\
  planSegments 6 (num 1.2) = inr 5%Z /\
  Math_ceil (6 / num 1.2) = 6%Z.
Proof. repeat split; vm_compute; reflexivity. Qed.

End Planning.

(** ** Seek times of the frame-capture paths *)

Section SeekTimes.
Import JS Runtime Spec.






End SeekTimes.

(** ** Output names *)

Section Naming.
Import JS Runtime Spec.
Open Scope string_scope.
















End Naming.

(** ** Runs of the audio split *)

Section SplitRuns.
Import JS Runtime Spec AudioSplitter.

Lemma processSegment_returns (env : Env) (file : File) (segmentLength : Q)
    (totalSegments : Z) (inputFileName fileExtension baseName : string)
    (i : nat) (processedFiles processedFiles' : list ProcessedFile)
    (w w' : World AudioSplitProgress) :
  processSegment env file segmentLength totalSegments inputFileName
    fileExtension baseName i processedFiles w = (Returns processedFiles', w') ->
  (exists a,
     processedFiles' = processedFiles ++ [a] /\
     pf_name a = segmentFileNameOf baseName fileExtension i /\
     pf_originalSize a = size file) /\
  execLog w' = execLog w ++
    [segmentArgs inputFileName (outputFileNameOf fileExtension i) segmentLength i] /\
  vfs w' = delete (outputFileNameOf fileExtension i) (vfs w) /\
  progressLog w' = progressLog w ++ [segmentEvent totalSegments i].
Proof.
  unfold processSegment, bind, tryCatch, exec, bind, logExec, onProgress.
  cbn [vfs execLog seekLog frameLog nextURL liveURLs progressLog].
  destruct (engineExec env _ _) as [msg | reported output]; [cbn; discriminate |].
  rewrite forEach_skip.
  change (outputName (segmentArgs inputFileName (outputFileNameOf fileExtension i)
                        segmentLength i))
    with (Some (outputFileNameOf fileExtension i)).
  unfold writeFile, readFile, deleteFile, createObjectURL, setVfs, ret.
  destruct output as [d |];
    cbn [vfs execLog seekLog frameLog nextURL liveURLs progressLog].
  - rewrite lookup_insert_eq.
    cbn [vfs execLog seekLog frameLog nextURL liveURLs progressLog].
    rewrite lookup_insert_eq.
    cbn [vfs execLog seekLog frameLog nextURL liveURLs progressLog].
    intros [= <- <-]. cbn [vfs execLog progressLog].
    rewrite delete_insert_eq.
    repeat split; try reflexivity. eexists. repeat split; reflexivity.
  - destruct (vfs w !! outputFileNameOf fileExtension i) as [d |] eqn:Hout;
      [| discriminate].
    cbn [vfs execLog seekLog frameLog nextURL liveURLs progressLog].
    rewrite Hout.
    intros [= <- <-]. cbn [vfs execLog progressLog].
    repeat split; try reflexivity. eexists. repeat split; reflexivity.
Qed.

(** Whatever its outcome, an iteration emits exactly its own event. *)
Lemma processSegment_progressLog (env : Env) (file : File) (segmentLength : Q)
    (totalSegments : Z) (inputFileName fileExtension baseName : string)
    (i : nat) (processedFiles : list ProcessedFile)
    (w : World AudioSplitProgress) :
  progressLog (snd (processSegment env file segmentLength totalSegments
                      inputFileName fileExtension baseName i processedFiles w)) =
  progressLog w ++ [segmentEvent totalSegments i].
Proof.
  unfold processSegment, bind, tryCatch, exec, bind, logExec, onProgress.
  cbn [vfs execLog seekLog frameLog nextURL liveURLs progressLog].
  destruct (engineExec env _ _) as [msg | reported output]; [reflexivity |].
  rewrite forEach_skip.
  change (outputName (segmentArgs inputFileName (outputFileNameOf fileExtension i)
                        segmentLength i))
    with (Some (outputFileNameOf fileExtension i)).
  unfold writeFile, readFile, deleteFile, createObjectURL, setVfs, ret.
  destruct output as [d |];
    cbn [vfs execLog seekLog frameLog nextURL liveURLs progressLog].
  - rewrite lookup_insert_eq.
    cbn [vfs execLog seekLog frameLog nextURL liveURLs progressLog].
    rewrite lookup_insert_eq. reflexivity.
  - destruct (vfs w !! outputFileNameOf fileExtension i) as [d |] eqn:Hout;
      [| reflexivity].
    cbn [vfs execLog seekLog frameLog nextURL liveURLs progressLog].
    rewrite Hout. reflexivity.
Qed.

Lemma segmentLoop_returns (env : Env) (file : File) (segmentLength : Q)
    (totalSegments : Z) (inputFileName fileExtension baseName : string)
    (n : nat) :
  forall (i : nat) (processedFiles processedFiles' : list ProcessedFile)
         (w w' : World AudioSplitProgress),
  segmentLoop env file segmentLength totalSegments inputFileName
    fileExtension baseName n i processedFiles w = (Returns processedFiles', w') ->
  (exists l,
     processedFiles' = processedFiles ++ l /\
     map pf_name l = map (segmentFileNameOf baseName fileExtension) (seq i n) /\
     Forall (fun a => pf_originalSize a = size file) l) /\
  execLog w' = execLog w ++
    map (fun j => segmentArgs inputFileName (outputFileNameOf fileExtension j)
                    segmentLength j) (seq i n) /\
  vfs w' = deleteAll (map (outputFileNameOf fileExtension) (seq i n)) (vfs w) /\
  progressLog w' = progressLog w ++ map (segmentEvent totalSegments) (seq i n).
Proof.
  induction n as [| n IH]; intros i pfs pfs' w w'.
  - cbn. intros [= <- <-]. rewrite !app_nil_r.
    repeat split; try reflexivity.
    exists []. rewrite app_nil_r. repeat split; constructor.
  - cbn [segmentLoop]. unfold bind at 1.
    destruct (processSegment _ _ _ _ _ _ _ _ _ _) as [[pfs1 | e] w1] eqn:Hstep;
      [| discriminate].
    apply processSegment_returns in Hstep.
    destruct Hstep as ((a & -> & Ha & Hsz) & Hexec & Hvfs & Hlog).
    intros Hrest. apply IH in Hrest.
    destruct Hrest as ((l & -> & Hl & Hszs) & Hexec' & Hvfs' & Hlog').
    cbn [seq map]. repeat split.
    + exists (a :: l). rewrite <- app_assoc. cbn.
      repeat split; [rewrite Ha, Hl; reflexivity | constructor; assumption].
    + rewrite Hexec', Hexec, <- app_assoc. reflexivity.
    + rewrite Hvfs', Hvfs. reflexivity.
    + rewrite Hlog', Hlog, <- app_assoc. reflexivity.
Qed.

Lemma lookup_deleteAll_elem (names : list string) (fs : gmap string bytes)
    (n : string) :
  In n names -> deleteAll names fs !! n = None.
Proof.
  unfold deleteAll. revert fs. induction names as [| x names IH]; intros fs Hin.
  - destruct Hin.
  - cbn [fold_left]. destruct (in_dec string_dec n names) as [Hlater | Hnot].
    + apply IH. exact Hlater.
    + destruct Hin as [-> | Hin]; [| contradiction].
      clear IH. revert fs. induction names as [| y names IH]; intros fs.
      * cbn. apply lookup_delete_eq.
      * cbn [fold_left].
        rewrite delete_delete. apply IH. intros H. apply Hnot. right. exact H.
Qed.

Lemma deleteAll_subseteq (names : list string) (fs : gmap string bytes) :
  deleteAll names fs ⊆ fs.
Proof.
  unfold deleteAll. revert fs. induction names as [| x names IH]; intros fs.
  - reflexivity.
  - cbn [fold_left]. etransitivity; [apply IH | apply delete_subseteq].
Qed.

(** What a completed run of [splitAudio] has done. *)
Lemma splitAudio_returns (env : Env) (file : File) (segmentLength : Q)
    (w w' : World AudioSplitProgress) (processedFiles : list ProcessedFile) :
  splitAudio env file segmentLength w = (Returns processedFiles, w') ->
  exists duration,
    loadAudio env file = Some duration /\
    0 < segmentLength /\ segmentLength <= duration /\
    let totalSegments := Math_ceil (div duration segmentLength) in
    let n := Z.to_nat totalSegments in
    let inputFileName := inputFileNameOf file in
    let fileExtension := fileExtensionOf file in
    (1 <= totalSegments)%Z /\
    map pf_name processedFiles =
      map (segmentFileNameOf (stripExtension (name file)) fileExtension)
          (seq 0 n) /\
    execLog w' = execLog w ++
      map (fun j => segmentArgs inputFileName (outputFileNameOf fileExtension j)
                      segmentLength j) (seq 0 n) /\
    vfs w' = delete inputFileName
               (deleteAll (map (outputFileNameOf fileExtension) (seq 0 n))
                  (<[inputFileName := content file]> (vfs w))) /\
    map splitStep (emitted w w') =
      [(loading, 0%Z); (loading, 10%Z); (splitting, 20%Z)] ++
      map (fun j => (splitting, splittingProgress j totalSegments)) (seq 0 n) ++
      [(complete, 100%Z)].
Proof.
  unfold splitAudio, tryCatch.
  destruct (bind _ _ w) as [[pfs | e] w1] eqn:Hbody; [| discriminate].
  intros [= -> ->]. revert Hbody.
  unfold bind at 1. unfold onProgress at 1.
  unfold bind at 1. unfold getAudioMetadata, bind at 1, createObjectURL.
  cbn [vfs execLog seekLog frameLog nextURL liveURLs progressLog].
  destruct (loadAudio env file) as [duration |] eqn:Hload; [| cbn; discriminate].
  unfold bind at 1, revokeObjectURL, ret.
  cbn [vfs execLog seekLog frameLog nextURL liveURLs progressLog].
  destruct (planSegments duration segmentLength) as [e | totalSegments] eqn:Hplan;
    [cbn; discriminate |].
  apply planSegments_inr in Hplan. destruct Hplan as (Hpos & Hle & -> & Hone).
  unfold getFFmpeg. destruct (engineReady env); [cbn; discriminate |].
  unfold bind at 1, ret. unfold bind at 1, onProgress at 1.
  unfold bind at 1, writeFile at 1, setVfs.
  unfold bind at 1, onProgress at 1.
  cbn [vfs execLog seekLog frameLog nextURL liveURLs progressLog].
  unfold bind at 1.
  destruct (segmentLoop _ _ _ _ _ _ _ _ _ _ _) as [[pfs1 | e] w2] eqn:Hloop;
    [| discriminate].
  apply segmentLoop_returns in Hloop.
  destruct Hloop as ((l & -> & Hl & _) & Hexec & Hvfs & Hlog).
  cbn [vfs execLog seekLog frameLog nextURL liveURLs progressLog] in Hexec, Hvfs, Hlog.
  unfold bind at 1, deleteFile, setVfs.
  destruct (vfs w2 !! inputFileNameOf file) as [d |] eqn:Hin; [| discriminate].
  unfold bind, onProgress, ret.
  cbn [vfs execLog seekLog frameLog nextURL liveURLs progressLog].
  intros [= <- <-].
  exists duration. cbv zeta. repeat split; try assumption.
  - cbn [vfs execLog progressLog]. rewrite Hvfs. reflexivity.
  - unfold emitted. cbn [progressLog]. rewrite Hlog.
    rewrite <- !app_assoc. rewrite drop_app_length.
    rewrite !map_app, map_map. reflexivity.
Qed.
(** An iteration whose command the engine carries out, writing the output,
    returns with one artifact more. *)
Lemma processSegment_resolves (env : Env) (file : File) (segmentLength : Q)
    (totalSegments : Z) (inputFileName fileExtension baseName : string)
    (i : nat) (processedFiles : list ProcessedFile)
    (w : World AudioSplitProgress) (reported : list Q) (d : bytes) :
  engineExec env
    (segmentArgs inputFileName (outputFileNameOf fileExtension i)
       segmentLength i) (vfs w) = ExecResolves reported (Some d) ->
  exists a w',
    processSegment env file segmentLength totalSegments inputFileName
      fileExtension baseName i processedFiles w =
      (Returns (processedFiles ++ [a]), w') /\
    execLog w' = execLog w ++
      [segmentArgs inputFileName (outputFileNameOf fileExtension i)
         segmentLength i] /\
    vfs w' = delete (outputFileNameOf fileExtension i)
               (<[outputFileNameOf fileExtension i := d]> (vfs w)) /\
    nextURL w' = S (nextURL w) /\
    liveURLs w' = {[nextURL w]} ∪ liveURLs w /\
    progressLog w' = progressLog w ++ [segmentEvent totalSegments i].
Proof.
  intros Hexec.
  unfold processSegment, bind, tryCatch, exec, bind, logExec, onProgress.
  cbn [vfs execLog seekLog frameLog nextURL liveURLs progressLog].
  rewrite Hexec. rewrite forEach_skip.
  change (outputName (segmentArgs inputFileName (outputFileNameOf fileExtension i)
                        segmentLength i))
    with (Some (outputFileNameOf fileExtension i)).
  unfold writeFile, readFile, deleteFile, createObjectURL, setVfs, ret.
  cbn [vfs execLog seekLog frameLog nextURL liveURLs progressLog].
  rewrite lookup_insert_eq.
  cbn [vfs execLog seekLog frameLog nextURL liveURLs progressLog].
  rewrite lookup_insert_eq.
  eexists _, _. split; [reflexivity |]. repeat split.
Qed.

Lemma output_is_not_input (file : File) (j : nat) :
  outputFileNameOf (fileExtensionOf file) j <> inputFileNameOf file.
Proof. unfold outputFileNameOf, inputFileNameOf. cbn. discriminate. Qed.



End SplitRuns.

(** ** Percent sequences *)

Section Percents.
Import Runtime Spec.
Context {E : Type} (pct : E -> Z).

Lemma nondecreasing_cons (x : Z) (l : list Z) :
  nondecreasing (x :: l) = true <->
  Forall (fun y => (x <= y)%Z) (firstn 1 l) /\ nondecreasing l = true.
Proof.
  destruct l as [| y l]; cbn.
  - split; [intros _; split; [constructor | reflexivity] | reflexivity].
  - rewrite andb_true_iff, Z.leb_le. split.
    + intros [Hxy Hl]. split; [repeat constructor; exact Hxy | exact Hl].
    + intros [Hxy Hl]. inversion Hxy; subst. split; assumption.
Qed.

Lemma nondecreasing_snoc (l : list Z) (x : Z) :
  nondecreasing l = true -> Forall (fun y => (y <= x)%Z) l ->
  nondecreasing (l ++ [x]) = true.
Proof.
  induction l as [| y l IH]; intros Hl Hall; [reflexivity |].
  inversion Hall as [| ? ? Hy Hrest]; subst.
  destruct l as [| z l].
  - cbn. rewrite andb_true_r. apply Z.leb_le. exact Hy.
  - cbn in Hl. apply andb_true_iff in Hl. destruct Hl as [Hyz Hl].
    change ((y :: z :: l) ++ [x]) with (y :: z :: (l ++ [x])).
    cbn [nondecreasing]. rewrite Hyz. cbn [andb].
    apply (IH Hl Hrest).
Qed.

Lemma nondecreasing_app (l1 l2 : list Z) (b : Z) :
  nondecreasing l1 = true -> Forall (fun y => (y <= b)%Z) l1 ->
  nondecreasing l2 = true -> Forall (fun y => (b <= y)%Z) l2 ->
  nondecreasing (l1 ++ l2) = true.
Proof.
  intros H1 Hb1 H2 Hb2. induction l1 as [| x l1 IH]; [exact H2 |].
  inversion Hb1 as [| ? ? Hx Hrest]; subst.
  apply nondecreasing_cons in H1. destruct H1 as [Hhd H1].
  change ((x :: l1) ++ l2) with (x :: (l1 ++ l2)).
  apply nondecreasing_cons. split; [| apply IH; assumption].
  destruct l1 as [| y l1].
  - destruct l2 as [| z l2]; [constructor |].
    inversion Hb2; subst. cbn. repeat constructor. lia.
  - cbn in *. exact Hhd.
Qed.

Lemma percentsUpTo_start (before : list E) (b : Z) :
  percentsUpTo pct before b before.
Proof. exists []. rewrite app_nil_r. repeat split; constructor. Qed.

Lemma percentsUpTo_weaken (before log : list E) (b c : Z) :
  (b <= c)%Z -> percentsUpTo pct before b log -> percentsUpTo pct before c log.
Proof.
  intros Hbc (new & Hlog & Hmono & Hall). exists new.
  repeat split; try assumption.
  eapply Forall_impl; [exact Hall |]. cbn. intros e He. lia.
Qed.

Lemma percentsUpTo_snoc (before log : list E) (b : Z) (e : E) :
  (b <= pct e)%Z -> percentsUpTo pct before b log ->
  percentsUpTo pct before (pct e) (log ++ [e]).
Proof.
  intros Hb (new & -> & Hmono & Hall). exists (new ++ [e]).
  rewrite app_assoc. split; [reflexivity |]. split.
  - rewrite map_app. cbn. apply nondecreasing_snoc; [exact Hmono |].
    apply Forall_map. eapply Forall_impl; [exact Hall |]. cbn. intros x Hx. lia.
  - apply Forall_app. split.
    + eapply Forall_impl; [exact Hall |]. cbn. intros x Hx. lia.
    + repeat constructor. lia.
Qed.

Lemma percentsUpTo_emitted (w w' : World E) (b : Z) :
  percentsUpTo pct (progressLog w) b (progressLog w') ->
  nondecreasing (map pct (emitted w w')) = true.
Proof.
  intros (new & Hlog & Hmono & _). unfold emitted.
  rewrite Hlog, drop_app_length. exact Hmono.
Qed.

(** An event at or above the bound keeps the sequence in order. *)
Lemma emits (before : list E) (b c : Z) (e : E) :
  (b <= pct e)%Z ->
  ensures (fun w => percentsUpTo pct before b (progressLog w))
    (onProgress e)
    (fun _ w => percentsUpTo pct before (pct e) (progressLog w))
    (fun _ w => percentsUpTo pct before c (progressLog w)).
Proof.
  intros Hb w Hw. cbn. apply (percentsUpTo_snoc before _ b); assumption.
Qed.

(** A computation that emits nothing keeps the sequence. *)
Lemma quiet {A} (before : list E) (b c : Z) (m : Run E A) :
  (forall w, progressLog (snd (m w)) = progressLog w) ->
  (b <= c)%Z ->
  ensures (fun w => percentsUpTo pct before b (progressLog w))
    m
    (fun _ w => percentsUpTo pct before b (progressLog w))
    (fun _ w => percentsUpTo pct before c (progressLog w)).
Proof.
  intros Hsame Hbc w Hw. specialize (Hsame w).
  destruct (m w) as [[a | e] w']; cbn in Hsame; rewrite Hsame;
    [exact Hw | eapply percentsUpTo_weaken; eassumption].
Qed.

(** A computation that always emits the one event [e]. *)
Lemma emits_once {A} (before : list E) (b c : Z) (e : E) (m : Run E A) :
  (forall w, progressLog (snd (m w)) = progressLog w ++ [e]) ->
  (b <= pct e)%Z -> (pct e <= c)%Z ->
  ensures (fun w => percentsUpTo pct before b (progressLog w))
    m
    (fun _ w => percentsUpTo pct before (pct e) (progressLog w))
    (fun _ w => percentsUpTo pct before c (progressLog w)).
Proof.
  intros Hlog Hb Hc w Hw. specialize (Hlog w).
  destruct (m w) as [[a | err] w']; cbn in Hlog; rewrite Hlog.
  - apply (percentsUpTo_snoc before _ b); assumption.
  - eapply percentsUpTo_weaken; [exact Hc |].
    apply (percentsUpTo_snoc before _ b); assumption.
Qed.

Lemma percentsUpTo_app_const (before log l : list E) (b : Z) :
  percentsUpTo pct before b log -> Forall (fun e => pct e = b) l ->
  percentsUpTo pct before b (log ++ l).
Proof.
  intros Hlog Hl. revert log Hlog. induction Hl as [| e l He _ IH]; intros log Hlog.
  - rewrite app_nil_r. exact Hlog.
  - replace (log ++ e :: l) with ((log ++ [e]) ++ l)
      by (rewrite <- app_assoc; reflexivity).
    apply IH. rewrite <- He. apply (percentsUpTo_snoc before log b); [lia | exact Hlog].
Qed.

(** A computation that emits only events at the bound itself. *)
Lemma emits_many {A} (before : list E) (b c : Z) (m : Run E A) :
  (forall w, exists l, progressLog (snd (m w)) = progressLog w ++ l /\
                       Forall (fun e => pct e = b) l) ->
  (b <= c)%Z ->
  ensures (fun w => percentsUpTo pct before b (progressLog w))
    m
    (fun _ w => percentsUpTo pct before b (progressLog w))
    (fun _ w => percentsUpTo pct before c (progressLog w)).
Proof.
  intros Hlog Hbc w Hw. destruct (Hlog w) as (l & Heq & Hl).
  destruct (m w) as [[a | err] w']; cbn in Heq; rewrite Heq.
  - apply percentsUpTo_app_const; assumption.
  - eapply percentsUpTo_weaken; [exact Hbc |].
    apply percentsUpTo_app_const; assumption.
Qed.

End Percents.

(** ** Progress of the audio split *)

Section SplitProgress.
Import JS Runtime Spec AudioSplitter.

Lemma splittingProgress_0 (totalSegments : Z) :
  splittingProgress 0 totalSegments = 20%Z.
Proof.
  unfold splittingProgress, Math_floor.
  replace (Qfloor (inject_Z (Z.of_nat 0) / inject_Z totalSegments * 70))
    with (Qfloor (inject_Z 0)); [rewrite Qfloor_Z; reflexivity |].
  apply Qfloor_comp. cbn [Z.of_nat]. unfold Qdiv.
  change (inject_Z 0) with 0. ring.
Qed.

Lemma splittingProgress_mono (totalSegments : Z) (i j : nat) :
  (0 < totalSegments)%Z -> (i <= j)%nat ->
  (splittingProgress i totalSegments <= splittingProgress j totalSegments)%Z.
Proof.
  intros Hpos Hij. unfold splittingProgress, Math_floor.
  apply Z.add_le_mono_l. apply Qfloor_resp_le.
  apply Qmult_le_compat_r; [| discriminate].
  unfold Qdiv. apply Qmult_le_compat_r.
  - rewrite <- Zle_Qle. lia.
  - apply Qinv_le_0_compat. change 0 with (inject_Z 0).
    rewrite <- Zle_Qle. lia.
Qed.

Lemma splittingProgress_le_90 (totalSegments : Z) (i : nat) :
  (0 < totalSegments)%Z -> (Z.of_nat i <= totalSegments)%Z ->
  (splittingProgress i totalSegments <= 90)%Z.
Proof.
  intros Hpos Hi. unfold splittingProgress, Math_floor.
  assert (Hq : inject_Z (Z.of_nat i) / inject_Z totalSegments * 70 <= inject_Z 70).
  { change (inject_Z 70) with (1 * 70). apply Qmult_le_compat_r; [| discriminate].
    apply Qle_shift_div_r.
    - change 0 with (inject_Z 0). rewrite <- Zlt_Qlt. exact Hpos.
    - rewrite Qmult_1_l. rewrite <- Zle_Qle. exact Hi. }
  apply Qfloor_resp_le in Hq. rewrite Qfloor_Z in Hq. lia.
Qed.

Local Abbreviation upTo before b :=
  (fun w : World AudioSplitProgress =>
     percentsUpTo progress before b (progressLog w)).

Lemma segmentLoop_percents (env : Env) (file : File) (segmentLength : Q)
    (totalSegments : Z) (inputFileName fileExtension baseName : string)
    (before : list AudioSplitProgress) (n : nat) :
  (0 < totalSegments)%Z ->
  forall (i : nat) (processedFiles : list ProcessedFile),
  (Z.of_nat (i + n) <= totalSegments)%Z ->
  ensures (upTo before (splittingProgress i totalSegments))
    (segmentLoop env file segmentLength totalSegments inputFileName
       fileExtension baseName n i processedFiles)
    (fun _ => upTo before (splittingProgress (i + n) totalSegments))
    (fun _ => upTo before 100%Z).
Proof.
  intros Hpos. induction n as [| n IH]; intros i pfs Hin.
  - apply ensures_ret. intros w Hw.
    replace (i + 0)%nat with i by lia. exact Hw.
  - cbn [segmentLoop].
    eapply ensures_bind with
      (R := fun _ => upTo before (splittingProgress (S i) totalSegments)).
    + eapply ensures_weaken.
      * apply (emits_once progress before (splittingProgress i totalSegments) 100
                 (segmentEvent totalSegments i)).
        -- intros w. apply processSegment_progressLog.
        -- cbn. lia.
        -- cbn. pose proof (splittingProgress_le_90 totalSegments i Hpos). lia.
      * auto.
      * cbn. intros _ w Hw. eapply percentsUpTo_weaken; [| exact Hw].
        apply splittingProgress_mono; [exact Hpos | lia].
      * auto.
    + intros pfs'. eapply ensures_weaken.
      * apply (IH (S i) pfs'). lia.
      * auto.
      * cbn. intros _ w Hw.
        replace (i + S n)%nat with (S i + n)%nat by lia. exact Hw.
      * auto.
Qed.

(** Every run of [splitAudio] reports percent values that never go
    down. *)
Lemma splitAudio_percents (env : Env) (file : File) (segmentLength : Q)
    (w : World AudioSplitProgress) :
  nondecreasing
    (map progress (emitted w (snd (splitAudio env file segmentLength w)))) = true.
Proof.
  assert (Hrun : ensures (upTo (progressLog w) 0%Z)
                   (splitAudio env file segmentLength)
                   (fun _ => upTo (progressLog w) 100%Z)
                   (fun _ => upTo (progressLog w) 100%Z)).
  { unfold splitAudio.
    eapply ensures_tryCatch with (R := fun _ => upTo (progressLog w) 100%Z);
      [| intros e; apply ensures_throw; auto].
    eapply ensures_bind; [apply emits; cbn; lia | intros ?].
    eapply ensures_bind.
    { apply quiet; [| cbn; lia]. intros w1. unfold getAudioMetadata, bind. cbn.
      destruct (loadAudio env file); reflexivity. }
    intros duration. cbn [progress].
    destruct (planSegments duration segmentLength) as [e | totalSegments] eqn:Hplan.
    { apply ensures_throw. intros w1 Hw1.
      eapply percentsUpTo_weaken; [| exact Hw1]. lia. }
    apply planSegments_inr in Hplan. destruct Hplan as (_ & _ & _ & Hone).
    assert (H90 : (splittingProgress (0 + Z.to_nat totalSegments) totalSegments
                   <= 100)%Z).
    { pose proof (splittingProgress_le_90 totalSegments
                    (0 + Z.to_nat totalSegments)). lia. }
    eapply ensures_bind.
    { apply quiet; [| lia]. intros w1. unfold getFFmpeg.
      destruct (engineReady env); reflexivity. }
    intros ?.
    eapply ensures_bind; [apply emits; cbn; lia | intros ?].
    eapply ensures_bind; [apply quiet; [reflexivity | cbn; lia] | intros ?].
    eapply ensures_bind; [apply emits; cbn; lia | intros ?].
    cbn [progress]. rewrite <- (splittingProgress_0 totalSegments).
    eapply ensures_bind.
    { apply segmentLoop_percents; lia. }
    intros pfs.
    eapply ensures_bind.
    { apply quiet; [| exact H90].
      intros w1. unfold deleteFile.
      destruct (vfs w1 !! _); reflexivity. }
    intros ?.
    eapply ensures_bind; [apply emits; cbn; exact H90 | intros ?].
    apply ensures_ret. auto. }
  specialize (Hrun w (percentsUpTo_start progress (progressLog w) 0)).
  destruct (splitAudio env file segmentLength w) as [[a | e] w'];
    eapply percentsUpTo_emitted; exact Hrun.
Qed.

End SplitProgress.

(** ** Runs of the audio extraction *)

Section ExtractionRuns.
Import JS Runtime Spec AudioExtractor.

Lemma forEach_progressListener (reported : list Q)
    (w : World AudioExtractionProgress) :
  forEach reported progressListener w =
  (Returns tt,
   mkWorld (vfs w) (execLog w) (seekLog w) (frameLog w) (nextURL w)
     (liveURLs w) (progressLog w ++ map progressEvent reported)).
Proof.
  revert w. induction reported as [| p reported IH]; intros w.
  - cbn. rewrite app_nil_r. destruct w; reflexivity.
  - cbn [forEach]. unfold bind, progressListener at 1, onProgress.
    rewrite IH. cbn. rewrite <- app_assoc. reflexivity.
Qed.

Lemma delete_staged (fs : gmap string bytes) (i o : string) (c d : bytes) :
  delete o (delete i (<[o := d]> (<[i := c]> fs))) = delete o (delete i fs).
Proof.
  apply map_eq. intros k.
  destruct (decide (k = o)) as [-> | Hko]; [rewrite !lookup_delete_eq; reflexivity |].
  rewrite !(lookup_delete_ne _ o k) by congruence.
  destruct (decide (k = i)) as [-> | Hki]; [rewrite !lookup_delete_eq; reflexivity |].
  rewrite !(lookup_delete_ne _ i k) by congruence.
  rewrite lookup_insert_ne by congruence.
  rewrite lookup_insert_ne by congruence. reflexivity.
Qed.

Lemma delete_staged_input (fs : gmap string bytes) (i o : string) (c : bytes) :
  delete o (delete i (<[i := c]> fs)) = delete o (delete i fs).
Proof. rewrite delete_insert_eq. reflexivity. Qed.

(** What a completed run of [extractAudioFromVideo] has done. *)
Lemma extractAudio_returns (env : Env) (file : File)
    (options : AudioExtractionOptions)
    (w w' : World AudioExtractionProgress) (a : ProcessedFile) :
  extractAudioFromVideo env file options w = (Returns a, w') ->
  let inputFileName := inputFileNameOf file in
  let outputFileName := outputFileNameOf options in
  exists reported output,
    engineExec env (buildArgs inputFileName outputFileName options)
      (<[inputFileName := content file]> (vfs w)) =
      ExecResolves reported output /\
    pf_name a = fileNameOf file options /\
    vfs w' = delete outputFileName (delete inputFileName (vfs w)) /\
    map extractionStep (emitted w w') =
      [(loading, 0%Z); (loading, 20%Z); (extracting, 40%Z)] ++
      map (fun p => (extracting, progressValue p)) reported ++
      [(encoding, 90%Z); (complete, 100%Z)].
Proof.
  cbv zeta. unfold extractAudioFromVideo, tryCatch at 1.
  destruct (bind _ _ w) as [[a1 | e] w1] eqn:Hbody; [| discriminate].
  intros [= -> ->]. revert Hbody.
  unfold bind at 1. unfold onProgress at 1.
  unfold getFFmpeg. destruct (engineReady env); [cbn; discriminate |].
  unfold bind at 1, ret. unfold bind at 1, onProgress at 1.
  unfold bind at 1, writeFile at 1, setVfs.
  unfold bind at 1, onProgress at 1.
  cbn [vfs execLog seekLog frameLog nextURL liveURLs progressLog].
  unfold bind at 1, tryCatch, exec, bind at 1, logExec.
  cbn [vfs execLog seekLog frameLog nextURL liveURLs progressLog].
  destruct (engineExec env _ _) as [msg | reported output] eqn:Hexec;
    [cbn; discriminate |].
  unfold bind at 1. rewrite forEach_progressListener.
  cbn [vfs execLog seekLog frameLog nextURL liveURLs progressLog].
  assert (Hout : outputName (buildArgs (inputFileNameOf file)
                               (outputFileNameOf options) options)
                 = Some (outputFileNameOf options)).
  { unfold buildArgs, outputName.
    destruct (format options); [destruct (quality options) |]; reflexivity. }
  rewrite Hout.
  unfold writeFile, readFile, deleteFile, createObjectURL, setVfs, ret, bind,
    onProgress.
  destruct output as [d |];
    cbn [vfs execLog seekLog frameLog nextURL liveURLs progressLog].
  - rewrite lookup_insert_eq.
    cbn [vfs execLog seekLog frameLog nextURL liveURLs progressLog].
    destruct (<[outputFileNameOf options := d]>
                (<[inputFileNameOf file := content file]> (vfs w))
              !! inputFileNameOf file) eqn:Hin; [| discriminate].
    cbn [vfs execLog seekLog frameLog nextURL liveURLs progressLog].
    destruct (delete (inputFileNameOf file) _ !! outputFileNameOf options)
      eqn:Hout2; [| discriminate].
    cbn [vfs execLog seekLog frameLog nextURL liveURLs progressLog].
    intros [= <- <-]. exists reported, (Some d).
    split; [reflexivity |]. split; [reflexivity |]. split.
    + cbn [vfs]. apply delete_staged.
    + unfold emitted. cbn [progressLog]. rewrite <- !app_assoc.
      rewrite drop_app_length. rewrite !map_app, map_map. reflexivity.
  - destruct (<[inputFileNameOf file := content file]> (vfs w)
              !! outputFileNameOf options) eqn:Hread; [| discriminate].
    cbn [vfs execLog seekLog frameLog nextURL liveURLs progressLog].
    rewrite lookup_insert_eq.
    cbn [vfs execLog seekLog frameLog nextURL liveURLs progressLog].
    destruct (delete (inputFileNameOf file) _ !! outputFileNameOf options)
      eqn:Hout2; [| discriminate].
    cbn [vfs execLog seekLog frameLog nextURL liveURLs progressLog].
    intros [= <- <-]. exists reported, None.
    split; [reflexivity |]. split; [reflexivity |]. split.
    + cbn [vfs]. apply delete_staged_input.
    + unfold emitted. cbn [progressLog]. rewrite <- !app_assoc.
      rewrite drop_app_length. rewrite !map_app, map_map. reflexivity.
Qed.


(** Every run of [extractAudioFromVideo] with an engine that reports
    progress between 0 and 1 emits percent values that never go down. *)
Lemma extractAudio_percents (env : Env) (file : File)
    (options : AudioExtractionOptions) (w : World AudioExtractionProgress) :
  reportsUnitProgress env ->
  nondecreasing
    (map progress (emitted w (snd (extractAudioFromVideo env file options w))))
  = true.
Proof.
  intros Hunit.
  set (upTo := fun (b : Z) (w1 : World AudioExtractionProgress) =>
                 percentsUpTo progress (progressLog w) b (progressLog w1)).
  assert (Hrun : ensures (upTo 0%Z) (extractAudioFromVideo env file options)
                   (fun _ => upTo 100%Z) (fun _ => upTo 100%Z)).
  { unfold extractAudioFromVideo.
    eapply ensures_tryCatch with (R := fun _ => upTo 100%Z);
      [| intros e; apply ensures_throw; auto].
    eapply ensures_bind; [apply emits; cbn; lia | intros ?].
    eapply ensures_bind.
    { apply quiet; [| cbn; lia]. intros w1. unfold getFFmpeg.
      destruct (engineReady env); reflexivity. }
    intros ?.
    eapply ensures_bind; [apply emits; cbn; lia | intros ?].
    eapply ensures_bind; [apply quiet; [reflexivity | cbn; lia] | intros ?].
    eapply ensures_bind; [apply emits; cbn; lia | intros ?].
    eapply ensures_bind.
    { apply emits_many; [| cbn; lia]. intros w1.
      unfold tryCatch, exec, bind at 1, logExec.
      cbn [vfs execLog seekLog frameLog nextURL liveURLs progressLog].
      destruct (engineExec env _ _) as [msg | reported output] eqn:Hexec.
      - exists []. rewrite app_nil_r. split; [reflexivity | constructor].
      - exists (map progressEvent reported). split.
        + unfold bind. rewrite forEach_progressListener.
          destruct output as [d |]; [| reflexivity].
          destruct (outputName _); reflexivity.
        + apply Forall_map. apply Hunit in Hexec.
          eapply Forall_impl; [exact Hexec |]. cbn.
          intros p [H0 H1]. unfold progressValue.
          rewrite Math_floor_unit_half by assumption. reflexivity. }
    intros ?.
    eapply ensures_bind; [apply emits; cbn; lia | intros ?].
    eapply ensures_bind.
    { apply quiet; [| cbn; lia]. intros w1. unfold readFile.
      destruct (vfs w1 !! _); reflexivity. }
    intros data.
    eapply ensures_bind.
    { apply quiet; [| cbn; lia]. intros w1. unfold deleteFile.
      destruct (vfs w1 !! _); reflexivity. }
    intros ?.
    eapply ensures_bind.
    { apply quiet; [| cbn; lia]. intros w1. unfold deleteFile.
      destruct (vfs w1 !! _); reflexivity. }
    intros ?.
    eapply ensures_bind; [apply quiet; [reflexivity | cbn; lia] | intros url].
    eapply ensures_bind; [apply emits; cbn; lia | intros ?].
    apply ensures_ret. auto. }
  specialize (Hrun w (percentsUpTo_start progress (progressLog w) 0)).
  destruct (extractAudioFromVideo env file options w) as [[a | e] w'];
    eapply percentsUpTo_emitted; exact Hrun.
Qed.

End ExtractionRuns.

(** ** Audio extraction: the engine progress listener *)

Section ExtractionProgress.
Import JS Runtime Spec AudioExtractor.

(** C10. For an engine progress value [p] in [[0,1]] the listener reports
    [40 + floor(p * 0.5)], which is 40: the event it emits is an
    [extracting] event at 40 percent, and in a completed run whose engine
    reports such values only, every [extracting] event is at 40 percent. *)
Theorem progressValue_stuck_at_40 :
  (forall (p : Q) (w : World AudioExtractionProgress),
     0 <= p -> p <= 1 ->
     progressValue p = (40 + Math_floor (p * 0.5))%Z /\
     Math_floor (p * 0.5) = 0%Z /\
     progressValue p = 40%Z /\
     exists msg,
       progressLog (snd (progressListener p w)) =
       progressLog w ++
         [ {| stage := extracting; progress := 40; message := msg |} ]) /\
  (forall env file options (w w' : World AudioExtractionProgress) a,
     reportsUnitProgress env ->
     extractAudioFromVideo env file options w = (Returns a, w') ->
     Forall (fun step => fst step = extracting -> snd step = 40%Z)
            (map extractionStep (emitted w w'))).
Proof.
  split.
  - intros p w H0 H1.
    pose proof (Math_floor_unit_half p H0 H1) as Hf.
    assert (Hv : progressValue p = 40%Z)
      by (unfold progressValue; rewrite Hf; reflexivity).
    repeat split; try assumption; try reflexivity.
    eexists. unfold progressListener, progressEvent, onProgress. simpl.
    rewrite Hv. reflexivity.
  - intros env file options w w' a Hunit Hrun.
    apply extractAudio_returns in Hrun. cbv zeta in Hrun.
    destruct Hrun as (reported & output & Hexec & _ & _ & ->).
    apply Hunit in Hexec.
    apply Forall_app. split; [repeat constructor; cbn; congruence |].
    apply Forall_app. split; [| repeat constructor; cbn; congruence].
    apply Forall_map. eapply Forall_impl; [exact Hexec |].
    cbn. intros p [H0 H1] _. unfold progressValue.
    rewrite Math_floor_unit_half by assumption. reflexivity.
Qed.

Lemma progressValue_stuck_at_40_witness :
  progressValue 1 = 40%Z /\ progressValue (1 # 3) = 40%Z.
Proof.
  destruct progressValue_stuck_at_40 as [Hlistener _]. split.
  - apply (Hlistener 1 emptyWorld); [discriminate | discriminate].
  - apply (Hlistener (1 # 3) emptyWorld); [discriminate | discriminate].
Defined.

End ExtractionProgress.

(** ** Runs of the GIF conversion *)

Section GifRuns.
Import JS Runtime Spec VideoToGif.

Lemma frameLoop_returns (env : Env) (file : File)
    (options : GifConversionOptions) (videoDuration : Q) (totalFrames : Z)
    (n : nat) :
  forall (i : nat) (w w' : World ConversionProgress) (u : unit),
  forLoop n i (captureFrame env file options videoDuration totalFrames) w =
    (Returns u, w') ->
  seekLog w' = seekLog w ++
    map (fun j => seekTime videoDuration (frameTime options j)) (seq i n) /\
  frameLog w' = frameLog w ++
    repeat (frameDelay options) n /\
  progressLog w' = progressLog w ++
    map (fun j => extractingEvent j totalFrames) (seq i n).
Proof.
  induction n as [| n IH]; intros i w w' u.
  - cbn. intros [= _ <-]. rewrite !app_nil_r. repeat split; reflexivity.
  - cbn [forLoop]. unfold bind at 1.
    unfold captureFrame at 1, seekToTime, bind at 1, bind at 1, setCurrentTime.
    cbn [vfs execLog seekLog frameLog nextURL liveURLs progressLog].
    destruct (seekSettles env file _); [| cbn; discriminate].
    unfold ret, bind, addFrame, onProgress.
    cbn [vfs execLog seekLog frameLog nextURL liveURLs progressLog].
    intros Hrest. apply IH in Hrest.
    cbn [vfs execLog seekLog frameLog nextURL liveURLs progressLog] in Hrest.
    destruct Hrest as (Hseek & Hframe & Hlog).
    cbn [seq map repeat]. repeat split.
    + rewrite Hseek, <- app_assoc. reflexivity.
    + rewrite Hframe, <- app_assoc. reflexivity.
    + rewrite Hlog, <- app_assoc. reflexivity.
Qed.

Lemma forEach_encoding (ps : list Q) (w : World ConversionProgress) :
  forEach ps (fun p => onProgress (encodingEvent p)) w =
  (Returns tt,
   mkWorld (vfs w) (execLog w) (seekLog w) (frameLog w) (nextURL w)
     (liveURLs w) (progressLog w ++ map encodingEvent ps)).
Proof.
  revert w. induction ps as [| p ps IH]; intros w.
  - cbn. rewrite app_nil_r. destruct w; reflexivity.
  - cbn [forEach]. unfold bind, onProgress at 1.
    rewrite IH. cbn. rewrite <- app_assoc. reflexivity.
Qed.

(** What a completed run of [convertVideoToGif] has done. *)
Lemma convertVideoToGif_returns (env : Env) (file : File)
    (options : GifConversionOptions)
    (w w' : World ConversionProgress) (a : ProcessedFile) :
  convertVideoToGif env file options w = (Returns a, w') ->
  exists video,
    loadVideo env file = Some video /\
    let total := totalFramesOf (duration video) options in
    let n := Z.to_nat total in
    pf_name a = (stripExtension (name file) ++ ".gif")%string /\
    seekLog w' = seekLog w ++
      map (fun j => seekTime (duration video) (frameTime options j)) (seq 0 n) /\
    frameLog w' = frameLog w ++
      repeat (frameDelay options) n /\
    map gifStep (emitted w w') =
      [(loading, 0%Z); (loading, 100%Z); (extracting, 0%Z)] ++
      map (fun j => (extracting, extractingProgress j total)) (seq 0 n) ++
      [(encoding, 0%Z)] ++
      map (fun p => (encoding, Math_round (p * 100)))
          (fst (gifRender env file (frameLog w'))) ++
      [(complete, 100%Z)].
Proof.
  unfold convertVideoToGif.
  destruct (canvasContext env); cbn [negb]; [| discriminate].
  unfold bind at 1, onProgress at 1. unfold bind at 1, createObjectURL at 1.
  cbn [vfs execLog seekLog frameLog nextURL liveURLs progressLog].
  destruct (loadVideo env file) as [video |] eqn:Hv; [| cbn; discriminate].
  unfold tryCatch.
  destruct (bind _ _ _) as [[a1 | e] w1] eqn:Hbody; [| cbn; discriminate].
  intros [= -> ->]. revert Hbody.
  unfold bind at 1, onProgress at 1. unfold bind at 1, onProgress at 1.
  cbn [vfs execLog seekLog frameLog nextURL liveURLs progressLog].
  unfold bind at 1.
  destruct (forLoop _ _ _ _) as [[u | e] w2] eqn:Hloop; [| discriminate].
  apply frameLoop_returns in Hloop.
  cbn [vfs execLog seekLog frameLog nextURL liveURLs progressLog] in Hloop.
  destruct Hloop as (Hseek & Hframe & Hlog).
  unfold bind at 1, onProgress at 1. unfold bind at 1, addedFrames.
  cbn [vfs execLog seekLog frameLog nextURL liveURLs progressLog].
  unfold bind at 1. rewrite forEach_encoding.
  unfold bind, revokeObjectURL, createObjectURL, onProgress, ret.
  cbn [vfs execLog seekLog frameLog nextURL liveURLs progressLog].
  intros [= <- <-]. exists video. split; [reflexivity |]. cbv zeta.
  cbn [vfs execLog seekLog frameLog nextURL liveURLs progressLog].
  split; [reflexivity |]. split; [exact Hseek |]. split; [exact Hframe |].
  unfold emitted. cbn [progressLog]. rewrite Hlog. rewrite <- !app_assoc.
  rewrite drop_app_length. rewrite !map_app, !map_map. reflexivity.
Qed.



End GifRuns.

(** ** The segment plan *)

Section SegmentPlan.
Import JS Runtime Spec.





End SegmentPlan.

(** ** Cleanup of the virtual filesystem *)

Section Cleanup.
Import JS Runtime Spec.

(** The success path of the cleanup.  When an audio split or an audio
    extraction completes, every entry it staged in the engine's virtual
    filesystem, the input and each output, has been deleted, and what
    remains was there before the run. *)
Theorem staged_entries_deleted_on_success :
  (forall env file segmentLength (w w' : World AudioSplitter.AudioSplitProgress)
          processedFiles,
     AudioSplitter.splitAudio env file segmentLength w =
       (Returns processedFiles, w') ->
     vfs w' ⊆ vfs w /\
     vfs w' !! AudioSplitter.inputFileNameOf file = None /\
     forall i, (i < length processedFiles)%nat ->
       vfs w' !! AudioSplitter.outputFileNameOf
                   (AudioSplitter.fileExtensionOf file) i = None) /\
  (forall env file options (w w' : World AudioExtractor.AudioExtractionProgress) a,
     AudioExtractor.extractAudioFromVideo env file options w = (Returns a, w') ->
     vfs w' ⊆ vfs w /\
     vfs w' !! AudioExtractor.inputFileNameOf file = None /\
     vfs w' !! AudioExtractor.outputFileNameOf options = None).
Proof.
  split.
  - intros env file segmentLength w w' pfs Hrun.
    apply splitAudio_returns in Hrun.
    destruct Hrun as (duration & _ & _ & _ & Hrun). cbv zeta in Hrun.
    destruct Hrun as (_ & Hnames & _ & Hvfs & _).
    apply (f_equal (@length string)) in Hnames.
    rewrite !length_map, length_seq in Hnames.
    rewrite Hvfs. split; [| split].
    + etransitivity; [apply delete_mono, deleteAll_subseteq |].
      rewrite delete_insert_eq. apply delete_subseteq.
    + apply lookup_delete_eq.
    + intros i Hi. apply lookup_delete_None. right.
      apply lookup_deleteAll_elem. apply in_map. apply in_seq. lia.
  - intros env file options w w' a Hrun.
    apply extractAudio_returns in Hrun. cbv zeta in Hrun.
    destruct Hrun as (reported & output & _ & _ & Hvfs & _).
    rewrite Hvfs. split; [| split].
    + etransitivity; apply delete_subseteq.
    + apply lookup_delete_None. right. apply lookup_delete_eq.
    + apply lookup_delete_eq.
Qed.

Lemma staged_entries_deleted_on_success_witness :
  vfs (snd (AudioSplitter.splitAudio Scenario.browser Scenario.song 4
              emptyWorld)) !! "input.mp3" = None /\
  vfs (snd (AudioExtractor.extractAudioFromVideo Scenario.browser Scenario.clip
              Scenario.mp3Medium emptyWorld)) !! "input.mov" = None.
Proof.
  destruct staged_entries_deleted_on_success as [Hsplit Hextract]. split.
  - refine (proj1 (proj2 (Hsplit Scenario.browser Scenario.song 4 emptyWorld _
             (match fst (AudioSplitter.splitAudio Scenario.browser
                           Scenario.song 4 emptyWorld) with
              | Returns l => l
              | Throws _ => []
              end) _))).
    vm_compute. reflexivity.
  - refine (proj1 (proj2 (Hextract Scenario.browser Scenario.clip
             Scenario.mp3Medium emptyWorld _
             {| pf_name := "clip.mp3"; pf_url := 0;
                pf_blob := {| data := [Byte.x05]; type := "audio/mpeg" |};
                pf_originalSize := 2; pf_processedSize := 1 |} _))).
    vm_compute. reflexivity.
Defined.

(** C8 (defect of the code).  The error path has no cleanup: the
    [deleteFile] calls stand in the [try] blocks only, and the [catch]
    blocks rethrow.  When the engine rejects the command of
    [splitAudio(song.mp3, 4)], the run throws and the staged [input.mp3]
    stays in the virtual filesystem with the content of the file; the
    audio extraction of [clip.mov] leaves [input.mov] behind in the same
    way. *)
Lemma staged_input_left_on_failure :
  let split := AudioSplitter.splitAudio Scenario.failingEngine Scenario.song 4
                 (emptyWorld : World AudioSplitter.AudioSplitProgress) in
  let extract := AudioExtractor.extractAudioFromVideo Scenario.failingEngine
                   Scenario.clip Scenario.mp3Medium
                   (emptyWorld : World AudioExtractor.AudioExtractionProgress) in
  fst split =
    Throws (mkError "FFmpeg failed for segment 1: Invalid data found when processing input") /\
  vfs (snd split) !! "input.mp3" = Some (content Scenario.song) /\
  fst extract =
    Throws (mkError "FFmpeg failed: Invalid data found when processing input") /\
  vfs (snd extract) !! "input.mov" = Some (content Scenario.clip).
Proof. cbv zeta. repeat split; vm_compute; reflexivity. Qed.

End Cleanup.

(** ** Names of the artifacts *)

Section ArtifactNames.
Import JS Runtime Spec.
Open Scope string_scope.




(** The audio split takes a name without a dot whole as its extension:
    the fallback ["mp3"] applies only when nothing follows the last dot. *)
Example extension_of_dotless_name :
  AudioSplitter.fileExtensionOf {| name := "audio"; content := [] |} = "audio" /\
  AudioSplitter.fileExtensionOf {| name := "audio."; content := [] |} = "mp3" /\
  AudioSplitter.segmentFileNameOf (stripExtension "audio") "audio" 0 =
    "audio-segment-001.audio".
Proof. repeat split; reflexivity. Qed.

End ArtifactNames.

(** ** Progress events of the single-file pipelines *)

Section ProgressEvents.
Import JS Runtime Spec.

Lemma nondecreasing_map_seq (f : nat -> Z) (n : nat) :
  (forall j, (f j <= f (S j))%Z) ->
  forall i, nondecreasing (map f (seq i n)) = true.
Proof.
  intros Hf. induction n as [| n IH]; intros i; [reflexivity |].
  cbn [seq map]. apply nondecreasing_cons. split; [| apply IH].
  destruct n as [| n]; cbn; [constructor |].
  repeat constructor. apply Hf.
Qed.

Lemma extractingProgress_mono (totalFrames : Z) (j : nat) :
  (1 <= totalFrames)%Z ->
  (VideoToGif.extractingProgress j totalFrames <=
   VideoToGif.extractingProgress (S j) totalFrames)%Z.
Proof.
  intros Hpos. unfold VideoToGif.extractingProgress, Math_round.
  apply Qfloor_resp_le. apply Qplus_le_l.
  apply Qmult_le_compat_r; [| discriminate].
  unfold Qdiv. apply Qmult_le_compat_r.
  - rewrite <- Zle_Qle. lia.
  - apply Qinv_le_0_compat. change 0 with (inject_Z 0).
    rewrite <- Zle_Qle. lia.
Qed.

Lemma extractingProgress_nonneg (totalFrames : Z) (j : nat) :
  (1 <= totalFrames)%Z ->
  (0 <= VideoToGif.extractingProgress j totalFrames)%Z.
Proof.
  intros Hpos. unfold VideoToGif.extractingProgress, Math_round.
  change 0%Z with (Qfloor (inject_Z 0)). apply Qfloor_resp_le.
  change (inject_Z 0) with 0.
  assert (0 <= inject_Z (Z.of_nat j + 1) / inject_Z totalFrames * 100).
  { apply Qmult_le_0_compat; [| discriminate].
    unfold Qdiv. apply Qmult_le_0_compat.
    - change 0 with (inject_Z 0). rewrite <- Zle_Qle. lia.
    - apply Qinv_le_0_compat. change 0 with (inject_Z 0).
      rewrite <- Zle_Qle. lia. }
  lra.
Qed.

Lemma extractingPercents_app (l1 l2 : list (VideoToGif.Stage * Z)) :
  extractingPercents (l1 ++ l2) = extractingPercents l1 ++ extractingPercents l2.
Proof. unfold extractingPercents. rewrite List.filter_app, map_app. reflexivity. Qed.

Lemma extractingPercents_extracting {A} (f : A -> Z) (l : list A) :
  extractingPercents (map (fun x => (VideoToGif.extracting, f x)) l) = map f l.
Proof.
  unfold extractingPercents. induction l as [| x l IH]; [reflexivity |].
  cbn. f_equal. exact IH.
Qed.

Lemma extractingPercents_encoding {A} (f : A -> Z) (l : list A) :
  extractingPercents (map (fun x => (VideoToGif.encoding, f x)) l) = [].
Proof.
  unfold extractingPercents. induction l as [| x l IH]; [reflexivity |].
  cbn. exact IH.
Qed.

(** C7 (as amended). The percent values of every audio split, and of
    every audio extraction whose engine reports progress between 0 and 1,
    never go down, and a run that completes ends with percent 100 in
    stage [complete].  A completed GIF conversion ends in the same way,
    but it reports percent per stage: after [loading] has reached 100 the
    [extracting] stage starts again at 0, so the sequence as a whole goes
    down, and it is within the [extracting] stage that the values never go
    down. *)
Theorem progress_percent_policy :
  (forall env file segmentLength (w : World AudioSplitter.AudioSplitProgress),
     nondecreasing
       (map AudioSplitter.progress
          (emitted w (snd (AudioSplitter.splitAudio env file segmentLength w))))
     = true) /\
  (forall env file segmentLength (w w' : World AudioSplitter.AudioSplitProgress)
          processedFiles,
     AudioSplitter.splitAudio env file segmentLength w =
       (Returns processedFiles, w') ->
     last (map splitStep (emitted w w')) =
       Some (AudioSplitter.complete, 100%Z)) /\
  (forall env file options (w : World AudioExtractor.AudioExtractionProgress),
     reportsUnitProgress env ->
     nondecreasing
       (map AudioExtractor.progress
          (emitted w
             (snd (AudioExtractor.extractAudioFromVideo env file options w))))
     = true) /\
  (forall env file options (w w' : World AudioExtractor.AudioExtractionProgress) a,
     AudioExtractor.extractAudioFromVideo env file options w = (Returns a, w') ->
     last (map extractionStep (emitted w w')) =
       Some (AudioExtractor.complete, 100%Z)) /\
  (forall env file options (w w' : World VideoToGif.ConversionProgress) a,
     ~ VideoToGif.fps options == 0 ->
     VideoToGif.convertVideoToGif env file options w = (Returns a, w') ->
     let steps := map gifStep (emitted w w') in
     last steps = Some (VideoToGif.complete, 100%Z) /\
     (exists rest,
        steps = (VideoToGif.loading, 0%Z) :: (VideoToGif.loading, 100%Z) ::
                (VideoToGif.extracting, 0%Z) :: rest) /\
     nondecreasing (map snd steps) = false /\
     nondecreasing (extractingPercents steps) = true).
Proof.
  split; [exact splitAudio_percents |].
  split.
  { intros env file segmentLength w w' pfs Hrun.
    apply splitAudio_returns in Hrun.
    destruct Hrun as (duration & _ & _ & _ & Hrun). cbv zeta in Hrun.
    destruct Hrun as (_ & _ & _ & _ & ->).
    rewrite !app_assoc. apply last_snoc. }
  split; [exact extractAudio_percents |].
  split.
  { intros env file options w w' a Hrun.
    apply extractAudio_returns in Hrun. cbv zeta in Hrun.
    destruct Hrun as (reported & output & _ & _ & _ & ->).
    change [(AudioExtractor.encoding, 90%Z); (AudioExtractor.complete, 100%Z)]
      with ([(AudioExtractor.encoding, 90%Z)] ++ [(AudioExtractor.complete, 100%Z)]).
    rewrite !app_assoc. apply last_snoc. }
  intros env file options w w' a _ Hrun.
  apply convertVideoToGif_returns in Hrun.
  destruct Hrun as (video & _ & Hrun). cbv zeta in Hrun.
  destruct Hrun as (_ & _ & _ & Hsteps). cbv zeta. rewrite Hsteps.
  set (total := VideoToGif.totalFramesOf (duration video) options).
  assert (Htotal : (1 <= total)%Z)
    by (unfold total, VideoToGif.totalFramesOf; lia).
  split; [rewrite !app_assoc; apply last_snoc |].
  split; [eexists; reflexivity |].
  split; [reflexivity |].
  rewrite !extractingPercents_app, extractingPercents_extracting,
    extractingPercents_encoding.
  change (extractingPercents
            [(VideoToGif.loading, 0%Z); (VideoToGif.loading, 100%Z);
             (VideoToGif.extracting, 0%Z)]) with [0%Z].
  change (extractingPercents [(VideoToGif.encoding, 0%Z)]) with (@nil Z).
  change (extractingPercents [(VideoToGif.complete, 100%Z)]) with (@nil Z).
  rewrite !app_nil_r.
  apply (nondecreasing_app [0%Z] _ 0%Z); [reflexivity | repeat constructor; lia | |].
  - apply nondecreasing_map_seq. intros j.
    apply extractingProgress_mono. exact Htotal.
  - apply Forall_map. apply Forall_forall. intros j _.
    apply extractingProgress_nonneg. exact Htotal.
Qed.

Lemma browser_reportsUnitProgress : reportsUnitProgress Scenario.browser.
Proof.
  intros args fs reported output [= <- _].
  repeat constructor; discriminate.
Qed.

Lemma progress_percent_policy_witness :
  nondecreasing
    (map AudioExtractor.progress
       (emitted emptyWorld
          (snd (AudioExtractor.extractAudioFromVideo Scenario.browser
                  Scenario.clip Scenario.mp3Medium emptyWorld)))) = true /\
  last (map splitStep
          (emitted emptyWorld
             (snd (AudioSplitter.splitAudio Scenario.browser Scenario.song 4
                     emptyWorld)))) = Some (AudioSplitter.complete, 100%Z).
Proof.
  destruct progress_percent_policy as (_ & Hsplit & Hextract & _). split.
  - apply (Hextract Scenario.browser Scenario.clip Scenario.mp3Medium emptyWorld).
    exact browser_reportsUnitProgress.
  - refine (Hsplit Scenario.browser Scenario.song 4 emptyWorld _
              (match fst (AudioSplitter.splitAudio Scenario.browser
                            Scenario.song 4 emptyWorld) with
               | Returns l => l
               | Throws _ => []
               end) _).
    vm_compute. reflexivity.
Defined.

(** C7 fails as stated: a GIF conversion of ten frames that completes
    reports 0, 100, then 0 again at the start of the extracting stage. *)
Lemma gif_percent_restarts_counterexample :
  let run := VideoToGif.convertVideoToGif Scenario.browser Scenario.clip
               (Scenario.gifOptions 0 1)
               (emptyWorld : World VideoToGif.ConversionProgress) in
  (exists a, fst run = Returns a) /\
  map VideoToGif.progress (progressLog (snd run)) =
    [0; 100; 0; 10; 20; 30; 40; 50; 60; 70; 80; 90; 100; 0; 50; 100; 100]%Z /\
  nondecreasing (map VideoToGif.progress (progressLog (snd run))) = false.
Proof.
  cbv zeta. split; [eexists; vm_compute; reflexivity |].
  split; vm_compute; reflexivity.
Qed.

End ProgressEvents.

(** ** The frame-extraction batch *)

Section Batch.
Import JS Runtime Spec FrameExtractor.

(** The outcome of one extraction is the same in every world. *)
Lemma extractFrame_outcome (env : Env) (file : File)
    (options : FrameExtractionOptions) (w : World BatchProgress) :
  match fst (extractFrameFromVideo env file options w) with
  | Returns a => succeeded env options file = true /\ artifactOf options a file
  | Throws _ => succeeded env options file = false
  end.
Proof.
  unfold succeeded, extractFrameFromVideo, artifactOf.
  destruct (canvasContext env); cbn [negb]; [| reflexivity].
  unfold bind at 1 3. cbn [createObjectURL fst snd].
  destruct (loadVideo env file) as [video |]; [| reflexivity].
  unfold bind. cbn.
  destruct (canvasToBlob env file _ _ _); cbn; [| reflexivity].
  repeat split; reflexivity.
Qed.

Lemma extractFramesFrom_result (env : Env) (options : FrameExtractionOptions)
    (files : list File) :
  forall (i total : nat) (extracted : list ProcessedFile)
         (w : World BatchProgress),
  exists l,
    fst (extractFramesFrom env files i total options extracted w) =
      Returns (extracted ++ l) /\
    Forall2 (artifactOf options) l (List.filter (succeeded env options) files).
Proof.
  induction files as [| file rest IH]; intros i total extracted w.
  - exists []. rewrite app_nil_r. split; [reflexivity | constructor].
  - cbn [extractFramesFrom List.filter].
    unfold bind at 1, onProgress at 1. unfold bind at 1, tryCatch, bind at 1.
    pose proof (extractFrame_outcome env file options
                  (mkWorld (vfs w) (execLog w) (seekLog w) (frameLog w)
                     (nextURL w) (liveURLs w) (progressLog w ++ [(S i, total)])))
      as Hout.
    destruct (extractFrameFromVideo env file options _) as [[a | e] w1].
    + cbn in Hout. destruct Hout as [-> Ha]. unfold ret. cbv beta iota.
      destruct (IH (S i) total (extracted ++ [a]) w1) as (l & Hl & Hall).
      exists (a :: l). rewrite Hl, <- app_assoc.
      split; [reflexivity | constructor; [exact Ha | exact Hall]].
    + cbn in Hout. rewrite Hout. unfold ret. cbv beta iota.
      destruct (IH (S i) total extracted w1) as (l & Hl & Hall).
      exists l. split; assumption.
Qed.

(** C3. The batch never throws: it returns one artifact for each file
    whose frame is extracted, in the order of the input, and leaves the
    other files out; of three files the second of which fails it returns the
    artifacts of the first and the third. *)
Theorem extractFrames_skips_failures (env : Env) (files : list File)
    (options : FrameExtractionOptions) (w : World BatchProgress) :
  exists l,
    fst (extractFrames env files options w) = Returns l /\
    Forall2 (artifactOf options) l (List.filter (succeeded env options) files) /\
    length l = length (List.filter (succeeded env options) files) /\
    (forall f1 f2 f3,
       files = [f1; f2; f3] ->
       succeeded env options f1 = true ->
       succeeded env options f2 = false ->
       succeeded env options f3 = true ->
       exists a1 a3,
         l = [a1; a3] /\ artifactOf options a1 f1 /\ artifactOf options a3 f3).
Proof.
  unfold extractFrames.
  destruct (extractFramesFrom_result env options files 0 (length files) [] w)
    as (l & Hl & Hall).
  exists l. split; [exact Hl |]. split; [exact Hall |].
  split; [eapply Forall2_length; exact Hall |].
  intros f1 f2 f3 -> H1 H2 H3. cbn [List.filter] in Hall.
  rewrite H1, H2, H3 in Hall.
  inversion Hall as [| a1 ? l1 ? Ha1 Hrest]; subst.
  inversion Hrest as [| a3 ? l3 ? Ha3 Hnil]; subst.
  inversion Hnil; subst.
  exists a1, a3. split; [reflexivity | split; assumption].
Qed.

Lemma extractFrames_skips_failures_witness :
  exists a1 a3,
    fst (extractFrames Scenario.browser
           [Scenario.clip; Scenario.corrupt; Scenario.holiday]
           Scenario.lastPng emptyWorld) = Returns [a1; a3] /\
    pf_name a1 = "clip_last-frame.png"%string /\
    pf_name a3 = "holiday_last-frame.png"%string.
Proof.
  destruct (extractFrames_skips_failures Scenario.browser
              [Scenario.clip; Scenario.corrupt; Scenario.holiday]
              Scenario.lastPng emptyWorld) as (l & Hl & _ & _ & Hthree).
  destruct (Hthree Scenario.clip Scenario.corrupt Scenario.holiday)
    as (a1 & a3 & -> & [Hn1 _] & [Hn3 _]); try reflexivity.
  exists a1, a3. split; [exact Hl |]. split; [exact Hn1 | exact Hn3].
Defined.

End Batch.

(** ** The engine singleton *)

Section Singleton.
Import Spec EngineSession.
Local Open Scope nat_scope.

Lemma init_invariant : sessionInvariant init.
Proof.
  constructor; cbn.
  - lia.
  - intros l [].
  - reflexivity.
  - intros p Hp. rewrite lookup_nil in Hp. discriminate.
  - intros c r Hc. rewrite lookup_nil in Hc. discriminate.
Qed.

(** With at most one load in flight, the loader found for [p] is the
    only one. *)
Lemma find_single (p : PromiseId) (s : State) (l : Loader) :
  (length (loaders s) <= 1)%nat ->
  List.find (isLoader p) (loaders s) = Some l ->
  loaders s = [l] /\ l_promise l = p /\ otherLoaders p s = [].
Proof.
  unfold otherLoaders. intros Hone Hfind.
  destruct (loaders s) as [| l0 [| l1 rest]]; cbn in *; [discriminate | | lia].
  destruct (isLoader p l0) eqn:Hl0; [| discriminate].
  injection Hfind as <-. cbn.
  split; [reflexivity |]. split; [| reflexivity].
  unfold isLoader in Hl0. apply Nat.eqb_eq in Hl0. exact Hl0.
Qed.

Section Call.
Variable s : State.
Hypothesis Hinv : sessionInvariant s.
Hypothesis Hinst : ffmpegInstance s = None.

Lemma no_fulfilled (p : PromiseId) : promises s !! p <> Some Fulfilled.
Proof.
  intros Hp. apply (inv_fulfilled s Hinv) in Hp. rewrite Hinst in Hp.
  destruct Hp as [x Hx]. discriminate.
Qed.

Lemma no_resolved (c : nat) (r : option FFmpeg) :
  callers s !! c <> Some (Resolved r).
Proof.
  intros Hc. apply (inv_resolved s Hinv) in Hc. rewrite Hinst in Hc.
  destruct Hc as [[x Hx] ->]. discriminate.
Qed.

Lemma none_resolved_after_await (p : PromiseId) (c : nat) (r : option FFmpeg) :
  (callers s ++ [Awaiting p]) !! c <> Some (Resolved r).
Proof.
  intros Hc. apply lookup_app_Some in Hc.
  destruct Hc as [Hc | [_ Hc]]; [exact (no_resolved c r Hc) |].
  apply list_lookup_singleton_Some in Hc. destruct Hc as [_ [=]].
Qed.

Lemma none_fulfilled_after (st : PromiseState) (p : PromiseId) :
  st <> Fulfilled -> (promises s ++ [st]) !! p <> Some Fulfilled.
Proof.
  intros Hst Hp. apply lookup_app_Some in Hp.
  destruct Hp as [Hp | [_ Hp]]; [exact (no_fulfilled p Hp) |].
  apply list_lookup_singleton_Some in Hp. destruct Hp as [_ ->]. congruence.
Qed.

(** A call that finds a load in flight waits for it. *)
Lemma join_invariant (p : PromiseId) :
  sessionInvariant
    (mkState None (ffmpegLoading s) (ffmpegLoadPromise s) (promises s)
       (constructed s) (loadsStarted s) (loaders s) (callers s ++ [Awaiting p])).
Proof.
  destruct Hinv as [Hone Hloader Hidle Hful Hres].
  constructor; cbn; try assumption.
  - intros l Hl. destruct (Hloader l Hl) as (_ & H2). split; [reflexivity | exact H2].
  - intros q Hq. destruct (no_fulfilled q Hq).
  - intros c r Hc. destruct (none_resolved_after_await p c r Hc).
Qed.

(** A call that starts the load. *)
Lemma start_invariant :
  loaders s = [] ->
  sessionInvariant
    (mkState None true (Some (length (promises s))) (promises s ++ [Pending])
       (S (constructed s)) (S (loadsStarted s))
       (loaders s ++ [ {| l_promise := length (promises s);
                          l_ffmpeg := constructed s;
                          l_stage := FetchCore |} ])
       (callers s ++ [Awaiting (length (promises s))])).
Proof.
  intros Hnone. rewrite Hnone. constructor; cbn.
  - lia.
  - intros l [<- | []]. cbn. repeat split.
    apply lookup_app_Some. right. split; [lia |].
    rewrite Nat.sub_diag. reflexivity.
  - discriminate.
  - intros q Hq. destruct (none_fulfilled_after Pending q ltac:(discriminate) Hq).
  - intros c r Hc. destruct (none_resolved_after_await _ c r Hc).
Qed.

(** A call whose load attempt fails before its first [await]. *)
Lemma unsupported_invariant (msg : string) :
  loaders s = [] ->
  sessionInvariant
    (mkState None false (Some (length (promises s)))
       (promises s ++ [Rejected msg]) (S (constructed s)) (loadsStarted s)
       (loaders s) (callers s ++ [Awaiting (length (promises s))])).
Proof.
  intros Hnone. rewrite Hnone. constructor; cbn.
  - lia.
  - intros l [].
  - reflexivity.
  - intros q Hq.
    destruct (none_fulfilled_after (Rejected msg) q ltac:(discriminate) Hq).
  - intros c r Hc. destruct (none_resolved_after_await _ c r Hc).
Qed.

(** A load is in flight exactly when both variables are set. *)
Lemma idle_when_unset :
  ffmpegLoading s = false \/ ffmpegLoadPromise s = None -> loaders s = [].
Proof.
  intros Hno. destruct (loaders s) as [| l rest] eqn:Hl; [reflexivity |].
  destruct (inv_loader s Hinv l) as (_ & Hld & Hpr & _);
    [rewrite Hl; left; reflexivity |].
  destruct Hno; congruence.
Qed.

End Call.

Lemma call_invariant (sab : bool) (s : State) :
  sessionInvariant s -> sessionInvariant (call sab s).
Proof.
  intros Hinv. unfold call.
  destruct (ffmpegInstance s) as [e |] eqn:Hinst.
  - destruct Hinv as [Hone Hloader Hidle Hful Hres].
    rewrite Hinst in Hloader, Hful, Hres.
    constructor; cbn; try assumption.
    intros c r Hc.
    apply lookup_app_Some in Hc. destruct Hc as [Hc | [_ Hc]].
    + exact (Hres c r Hc).
    + apply list_lookup_singleton_Some in Hc. destruct Hc as [_ [= <-]].
      split; [eexists; reflexivity | reflexivity].
  - pose proof (idle_when_unset s Hinv) as Hidle.
    destruct (ffmpegLoading s) eqn:Hld;
      [destruct (ffmpegLoadPromise s) as [p |] eqn:Hpr |].
    + rewrite <- Hld, <- Hpr. apply join_invariant; assumption.
    + destruct sab;
        [apply start_invariant | apply unsupported_invariant]; auto.
    + destruct sab;
        [apply start_invariant | apply unsupported_invariant]; auto.
Qed.

Lemma networkOk_invariant (p : PromiseId) (s : State) :
  sessionInvariant s -> sessionInvariant (networkOk p s).
Proof.
  intros Hinv. unfold networkOk.
  destruct (List.find (isLoader p) (loaders s)) as [l |] eqn:Hfind; [| exact Hinv].
  destruct (find_single p s l (inv_one_loader s Hinv) Hfind) as (Hl & Hp & Hothers).
  destruct (inv_loader s Hinv l) as (Hinst & Hld & Hpr & Hpend);
    [rewrite Hl; left; reflexivity |].
  rewrite Hothers. destruct Hinv as [Hone Hloader Hidle Hful Hres].
  assert (Hsame : forall st,
            sessionInvariant
              (mkState (ffmpegInstance s) (ffmpegLoading s) (ffmpegLoadPromise s)
                 (promises s) (constructed s) (loadsStarted s)
                 ([] ++ [ {| l_promise := p; l_ffmpeg := l_ffmpeg l;
                             l_stage := st |} ])
                 (callers s))).
  { intros st. constructor; cbn; try assumption.
    - lia.
    - intros l' [<- | []]. cbn. subst p. repeat split; assumption.
    - discriminate. }
  destruct (l_stage l); [apply Hsame | apply Hsame |].
  constructor; cbn.
  - lia.
  - intros l' [].
  - reflexivity.
  - intros q Hq. eexists. reflexivity.
  - intros c r Hc. apply Hres in Hc. rewrite Hinst in Hc.
    destruct Hc as [[x Hx] ->]. discriminate.
Qed.

Lemma networkFail_invariant (p : PromiseId) (msg : string) (s : State) :
  sessionInvariant s -> sessionInvariant (networkFail p msg s).
Proof.
  intros Hinv. unfold networkFail.
  destruct (List.find (isLoader p) (loaders s)) as [l |] eqn:Hfind; [| exact Hinv].
  destruct (find_single p s l (inv_one_loader s Hinv) Hfind) as (Hl & Hp & Hothers).
  destruct (inv_loader s Hinv l) as (Hinst & Hld & Hpr & Hpend);
    [rewrite Hl; left; reflexivity |].
  rewrite Hothers. constructor; cbn.
  - lia.
  - intros l' [].
  - reflexivity.
  - intros q Hq. apply (inv_fulfilled s Hinv q).
    destruct (decide (q = p)) as [-> | Hne].
    + apply list_lookup_insert_Some in Hq.
      destruct Hq as [(_ & Hq & _) | [Hq _]]; [discriminate | congruence].
    + rewrite list_lookup_insert_ne in Hq by congruence. exact Hq.
  - exact (inv_resolved s Hinv).
Qed.

Lemma resume_invariant (c : nat) (s : State) :
  sessionInvariant s -> sessionInvariant (resume c s).
Proof.
  intros Hinv. unfold resume.
  destruct (callers s !! c) as [[p | r | msg] |] eqn:Hc; try exact Hinv.
  destruct (promises s !! p) as [[| | msg] |] eqn:Hp; try exact Hinv.
  - pose proof (inv_fulfilled s Hinv p Hp) as Hsome.
    destruct Hinv as [Hone Hloader Hidle Hful Hres].
    constructor; cbn; try assumption.
    intros c' r Hc'. apply list_lookup_insert_Some in Hc'.
    destruct Hc' as [(_ & [= <-] & _) | [_ Hc']].
    + split; [exact Hsome | reflexivity].
    + exact (Hres c' r Hc').
  - destruct Hinv as [Hone Hloader Hidle Hful Hres].
    constructor; cbn; try assumption.
    intros c' r Hc'. apply list_lookup_insert_Some in Hc'.
    destruct Hc' as [(_ & [=] & _) | [_ Hc']].
    exact (Hres c' r Hc').
Qed.

Lemma step_invariant (sab : bool) (ev : Event) (s : State) :
  sessionInvariant s -> sessionInvariant (step sab ev s).
Proof.
  intros Hinv. destruct ev as [| p | p msg | c]; cbn [step].
  - apply call_invariant. exact Hinv.
  - apply networkOk_invariant. exact Hinv.
  - apply networkFail_invariant. exact Hinv.
  - apply resume_invariant. exact Hinv.
Qed.

Lemma run_invariant (sab : bool) (evs : list Event) (s : State) :
  sessionInvariant s -> sessionInvariant (run sab evs s).
Proof.
  revert s. induction evs as [| ev evs IH]; intros s Hinv; [exact Hinv |].
  cbn [run fold_left]. apply IH. apply step_invariant. exact Hinv.
Qed.

(** Once the engine is ready, nothing changes it and nothing is created. *)
Lemma step_ready (sab : bool) (ev : Event) (s : State) (e : FFmpeg) :
  sessionInvariant s -> ffmpegInstance s = Some e ->
  ffmpegInstance (step sab ev s) = Some e /\
  constructed (step sab ev s) = constructed s /\
  loadsStarted (step sab ev s) = loadsStarted s.
Proof.
  intros Hinv Hinst.
  assert (Hidle : loaders s = []).
  { destruct (loaders s) as [| l rest] eqn:Hl; [reflexivity |].
    destruct (inv_loader s Hinv l) as (Hnone & _);
      [rewrite Hl; left; reflexivity | congruence]. }
  destruct ev as [| p | p msg | c]; cbn [step].
  - unfold call. rewrite Hinst. cbn. auto.
  - unfold networkOk. rewrite Hidle. cbn. auto.
  - unfold networkFail. rewrite Hidle. cbn. auto.
  - unfold resume.
    destruct (callers s !! c) as [[p | r | msg] |]; auto.
    destruct (promises s !! p) as [[| | msg] |]; cbn; auto.
Qed.

Lemma run_ready (sab : bool) (evs : list Event) (s : State) (e : FFmpeg) :
  sessionInvariant s -> ffmpegInstance s = Some e ->
  ffmpegInstance (run sab evs s) = Some e /\
  constructed (run sab evs s) = constructed s /\
  loadsStarted (run sab evs s) = loadsStarted s.
Proof.
  revert s. induction evs as [| ev evs IH]; intros s Hinv Hinst; [auto |].
  cbn [run fold_left].
  destruct (step_ready sab ev s e Hinv Hinst) as (Hi & Hc & Hl).
  destruct (IH (step sab ev s) (step_invariant sab ev s Hinv) Hi) as (Hi' & Hc' & Hl').
  unfold run in *. rewrite Hi', Hc', Hl'. auto.
Qed.

Lemma networkOk_single (p : PromiseId) (e : FFmpeg) (st : LoadStage)
    (inst : option FFmpeg) (ld : bool) (lp : option PromiseId)
    (ps : list PromiseState) (n m : nat) (cs : list Caller) :
  networkOk p
    (mkState inst ld lp ps n m
       [ {| l_promise := p; l_ffmpeg := e; l_stage := st |} ] cs) =
  match st with
  | FetchCore =>
      mkState inst ld lp ps n m
        [ {| l_promise := p; l_ffmpeg := e; l_stage := FetchWasm |} ] cs
  | FetchWasm =>
      mkState inst ld lp ps n m
        [ {| l_promise := p; l_ffmpeg := e; l_stage := CoreLoad |} ] cs
  | CoreLoad =>
      mkState (Some e) false lp (<[p := Fulfilled]> ps) n m [] cs
  end.
Proof.
  unfold networkOk, otherLoaders, isLoader. cbn.
  rewrite Nat.eqb_refl. cbn. destruct st; reflexivity.
Qed.

Lemma resume_fulfilled (c : nat) (p : PromiseId) (s : State) :
  callers s !! c = Some (Awaiting p) ->
  promises s !! p = Some Fulfilled ->
  resume c s =
  mkState (ffmpegInstance s) (ffmpegLoading s) (ffmpegLoadPromise s)
    (promises s) (constructed s) (loadsStarted s) (loaders s)
    (<[c := Resolved (ffmpegInstance s)]> (callers s)).
Proof. intros Hc Hp. unfold resume. rewrite Hc, Hp. reflexivity. Qed.

(** Two calls on an uninitialized singleton, the three network steps of
    the one load, and the two resumptions. *)
Lemma two_callers_same_engine (s : State) :
  sessionInvariant s -> ffmpegInstance s = None -> loaders s = [] ->
  let p := length (promises s) in
  let c := length (callers s) in
  let e := constructed s in
  run true [Call; Call; NetworkOk p; NetworkOk p; NetworkOk p;
            Resume c; Resume (S c)] s =
  mkState (Some e) false (Some p) (promises s ++ [Fulfilled])
    (S (constructed s)) (S (loadsStarted s)) []
    (callers s ++ [Resolved (Some e); Resolved (Some e)]).
Proof.
  intros Hinv Hinst Hidle. cbv zeta.
  pose proof (inv_idle s Hinv Hidle) as Hld.
  unfold run. cbn [fold_left step].
  assert (Hfirst : call true s =
            mkState None true (Some (length (promises s)))
              (promises s ++ [Pending]) (S (constructed s))
              (S (loadsStarted s))
              [ {| l_promise := length (promises s);
                   l_ffmpeg := constructed s;
                   l_stage := FetchCore |} ]
              (callers s ++ [Awaiting (length (promises s))])).
  { unfold call. rewrite Hinst, Hld, Hidle. reflexivity. }
  rewrite Hfirst. unfold call at 1.
  cbn [ffmpegInstance ffmpegLoading ffmpegLoadPromise promises constructed
       loadsStarted loaders callers].
  rewrite networkOk_single. cbv iota.
  rewrite networkOk_single. cbv iota.
  rewrite networkOk_single. cbv iota.
  rewrite <- app_assoc. cbn [app].
  assert (Hins : <[(length (promises s) : PromiseId) := Fulfilled]>
                   (promises s ++ [Pending])
                 = promises s ++ [Fulfilled]).
  { rewrite insert_app_r_alt by lia. rewrite Nat.sub_diag. reflexivity. }
  rewrite Hins.
  rewrite (resume_fulfilled (length (callers s)) (length (promises s))); cycle 1.
  { cbn. apply lookup_app_Some. right. split; [lia |].
    rewrite Nat.sub_diag. reflexivity. }
  { cbn. apply lookup_app_Some. right. split; [lia |].
    rewrite Nat.sub_diag. reflexivity. }
  cbn [ffmpegInstance ffmpegLoading ffmpegLoadPromise promises constructed
       loadsStarted loaders callers].
  rewrite insert_app_r_alt by lia. rewrite Nat.sub_diag. cbn [insert list_insert].
  rewrite (resume_fulfilled (S (length (callers s))) (length (promises s))); cycle 1.
  { cbn. apply lookup_app_Some. right. split; [lia |].
    replace (S (length (callers s)) - length (callers s)) with 1 by lia.
    reflexivity. }
  { cbn. apply lookup_app_Some. right. split; [lia |].
    rewrite Nat.sub_diag. reflexivity. }
  cbn [ffmpegInstance ffmpegLoading ffmpegLoadPromise promises constructed
       loadsStarted loaders callers].
  rewrite insert_app_r_alt by lia.
  replace (S (length (callers s)) - length (callers s)) with 1 by lia.
  reflexivity.
Qed.

(** What holds in every state one module's singleton can reach, whatever
    the order of calls, network outcomes and resumptions. *)
Lemma session_singleton (sab : bool) (evs : list Event) :
  let s := run sab evs init in
  (length (loaders s) <= 1)%nat /\
  (loaders s <> [] ->
   exists p,
     ffmpegLoadPromise s = Some p /\
     promises s !! p = Some Pending /\
     callers (call sab s) = callers s ++ [Awaiting p] /\
     loaders (call sab s) = loaders s /\
     loadsStarted (call sab s) = loadsStarted s /\
     constructed (call sab s) = constructed s) /\
  (ffmpegInstance s = None -> loaders s = [] ->
   let s2 := call sab (call sab s) in
   loadsStarted s2 = (if sab then S (loadsStarted s) else loadsStarted s) /\
   (sab = true ->
    constructed s2 = S (constructed s) /\
    length (loaders s2) = 1%nat /\
    exists p,
      callers s2 = callers s ++ [Awaiting p; Awaiting p] /\
      promises s2 !! p = Some Pending)) /\
  (sab = true -> ffmpegInstance s = None -> loaders s = [] ->
   let p := length (promises s) in
   let c := length (callers s) in
   let e := constructed s in
   let s' := run sab [Call; Call; NetworkOk p; NetworkOk p; NetworkOk p;
                      Resume c; Resume (S c)] s in
   callers s' = callers s ++ [Resolved (Some e); Resolved (Some e)] /\
   ffmpegInstance s' = Some e /\
   loadsStarted s' = S (loadsStarted s) /\
   constructed s' = S (constructed s)) /\
  (forall c1 c2 r1 r2,
     callers s !! c1 = Some (Resolved r1) ->
     callers s !! c2 = Some (Resolved r2) ->
     r1 = r2 /\ exists e, r1 = Some e /\ ffmpegInstance s = Some e) /\
  (forall e, ffmpegInstance s = Some e ->
     forall evs',
       ffmpegInstance (run sab evs' s) = Some e /\
       constructed (run sab evs' s) = constructed s /\
       loadsStarted (run sab evs' s) = loadsStarted s).
Proof.
  cbv zeta.
  pose proof (run_invariant sab evs init init_invariant) as Hinv.
  set (s := run sab evs init) in *.
  split; [exact (inv_one_loader s Hinv) |].
  split.
  { intros Hbusy. destruct (loaders s) as [| l rest] eqn:Hl; [congruence |].
    destruct (inv_loader s Hinv l) as (Hinst & Hld & Hpr & Hpend);
      [rewrite Hl; left; reflexivity |].
    exists (l_promise l). unfold call. rewrite Hinst, Hld, Hpr. cbn.
    rewrite Hl. repeat split; assumption. }
  split.
  { intros Hinst Hidle.
    pose proof (inv_idle s Hinv Hidle) as Hld.
    destruct sab.
    - assert (Hfirst : call true s =
                mkState None true (Some (length (promises s)))
                  (promises s ++ [Pending]) (S (constructed s))
                  (S (loadsStarted s))
                  (loaders s ++ [ {| l_promise := length (promises s);
                                     l_ffmpeg := constructed s;
                                     l_stage := FetchCore |} ])
                  (callers s ++ [Awaiting (length (promises s))])).
      { unfold call. rewrite Hinst, Hld. reflexivity. }
      rewrite Hfirst. unfold call. cbn. rewrite Hidle. cbn.
      split; [reflexivity |]. intros _.
      split; [reflexivity |]. split; [reflexivity |].
      exists (length (promises s)). split.
      + rewrite <- app_assoc. reflexivity.
      + apply lookup_app_Some. right. split; [lia |].
        rewrite Nat.sub_diag. reflexivity.
    - assert (Hfirst : call false s =
                mkState None false (Some (length (promises s)))
                  (promises s ++ [Rejected (loadFailure sabMissing)])
                  (S (constructed s)) (loadsStarted s) (loaders s)
                  (callers s ++ [Awaiting (length (promises s))])).
      { unfold call. rewrite Hinst, Hld. reflexivity. }
      rewrite Hfirst. unfold call. cbn.
      split; [reflexivity | discriminate]. }
  split.
  { intros -> Hinst Hidle. cbv zeta.
    rewrite (two_callers_same_engine s Hinv Hinst Hidle). cbn.
    repeat split; reflexivity. }
  split.
  { intros c1 c2 r1 r2 H1 H2.
    destruct (inv_resolved s Hinv c1 r1 H1) as [[e He] Hr1].
    destruct (inv_resolved s Hinv c2 r2 H2) as [_ Hr2].
    split; [congruence |]. exists e. split; [exact He | congruence]. }
  intros e Hinst evs'. apply run_ready; assumption.
Qed.


Lemma page_projection (sab : bool) (t : PageSessions.Tool)
    (evs : list (PageSessions.Tool * Event)) (pg : PageSessions.Page) :
  PageSessions.sessionOf t (PageSessions.run sab evs pg) =
    run sab (PageSessions.eventsOf t evs) (PageSessions.sessionOf t pg).
Proof.
  revert pg. induction evs as [| [u ev] evs IH]; intros pg; [reflexivity |].
  unfold PageSessions.run, PageSessions.eventsOf in *.
  cbn [fold_left List.filter fst snd]. rewrite IH.
  destruct t, u; reflexivity.
Qed.

(** C2 (as amended). The engine singleton is one per tool module.  In a
    browser session that uses the audio splitter and the audio extractor
    in any interleaving, the variables of each module are moved by the
    events of that module alone, and in every state a module can reach,
    whatever the order of calls, network outcomes and resumptions: at most
    one initialization of that module is in flight; a call made while one
    is in flight starts nothing and waits for the promise of that
    initialization; two calls in a row on an uninitialized singleton start
    one load and wait for the same promise (no load at all where
    [SharedArrayBuffer] is missing and both calls fail), and once that
    load has gone through and the two calls have resumed, both have
    received the engine it constructed; every caller that has received an
    engine has received the one stored in [ffmpegInstance]; and once that
    is set, it never changes and the module creates no further [FFmpeg]
    object or load. *)
Theorem engine_singleton (sab : bool) (t : PageSessions.Tool)
    (evs : list (PageSessions.Tool * Event)) :
  let s := PageSessions.sessionOf t
             (PageSessions.run sab evs PageSessions.init) in
  s = run sab (PageSessions.eventsOf t evs) init /\
  (forall u ev, u <> t ->
     PageSessions.sessionOf t
       (PageSessions.step sab (u, ev)
          (PageSessions.run sab evs PageSessions.init)) = s) /\
  (length (loaders s) <= 1)%nat /\
  (loaders s <> [] ->
   exists p,
     ffmpegLoadPromise s = Some p /\
     promises s !! p = Some Pending /\
     callers (call sab s) = callers s ++ [Awaiting p] /\
     loaders (call sab s) = loaders s /\
     loadsStarted (call sab s) = loadsStarted s /\
     constructed (call sab s) = constructed s) /\
  (ffmpegInstance s = None -> loaders s = [] ->
   let s2 := call sab (call sab s) in
   loadsStarted s2 = (if sab then S (loadsStarted s) else loadsStarted s) /\
   (sab = true ->
    constructed s2 = S (constructed s) /\
    length (loaders s2) = 1%nat /\
    exists p,
      callers s2 = callers s ++ [Awaiting p; Awaiting p] /\
      promises s2 !! p = Some Pending)) /\
  (sab = true -> ffmpegInstance s = None -> loaders s = [] ->
   let p := length (promises s) in
   let c := length (callers s) in
   let e := constructed s in
   let s' := run sab [Call; Call; NetworkOk p; NetworkOk p; NetworkOk p;
                      Resume c; Resume (S c)] s in
   callers s' = callers s ++ [Resolved (Some e); Resolved (Some e)] /\
   ffmpegInstance s' = Some e /\
   loadsStarted s' = S (loadsStarted s) /\
   constructed s' = S (constructed s)) /\
  (forall c1 c2 r1 r2,
     callers s !! c1 = Some (Resolved r1) ->
     callers s !! c2 = Some (Resolved r2) ->
     r1 = r2 /\ exists e, r1 = Some e /\ ffmpegInstance s = Some e) /\
  (forall e, ffmpegInstance s = Some e ->
     forall evs',
       ffmpegInstance (run sab evs' s) = Some e /\
       constructed (run sab evs' s) = constructed s /\
       loadsStarted (run sab evs' s) = loadsStarted s).
Proof.
  cbv zeta.
  assert (Hproj : PageSessions.sessionOf t
                    (PageSessions.run sab evs PageSessions.init) =
                  run sab (PageSessions.eventsOf t evs) init).
  { rewrite page_projection. destruct t; reflexivity. }
  split; [exact Hproj |].
  split; [intros u ev Hne; destruct t, u; try congruence; reflexivity |].
  rewrite Hproj. exact (session_singleton sab (PageSessions.eventsOf t evs)).
Qed.

Lemma engine_singleton_witness :
  let evs := [(PageSessions.Splitter, Call); (PageSessions.Extractor, Call);
              (PageSessions.Splitter, Call);
              (PageSessions.Splitter, NetworkOk 0);
              (PageSessions.Splitter, NetworkOk 0);
              (PageSessions.Splitter, NetworkOk 0);
              (PageSessions.Splitter, Resume 0);
              (PageSessions.Splitter, Resume 1)] in
  let s := PageSessions.sessionOf PageSessions.Splitter
             (PageSessions.run true evs PageSessions.init) in
  callers s = [Resolved (Some 0%nat); Resolved (Some 0%nat)] /\
  loadsStarted s = 1%nat /\
  (exists e, ffmpegInstance s = Some e /\
             ffmpegInstance (run true [Call; Resume 2] s) = Some e).
Proof.
  cbv zeta.
  destruct (engine_singleton true PageSessions.Splitter
              [(PageSessions.Splitter, Call); (PageSessions.Extractor, Call);
               (PageSessions.Splitter, Call);
               (PageSessions.Splitter, NetworkOk 0);
               (PageSessions.Splitter, NetworkOk 0);
               (PageSessions.Splitter, NetworkOk 0);
               (PageSessions.Splitter, Resume 0);
               (PageSessions.Splitter, Resume 1)])
    as (_ & _ & _ & _ & _ & _ & Hsame & Hready).
  split; [reflexivity |]. split; [reflexivity |].
  destruct (Hsame 0%nat 1%nat (Some 0%nat) (Some 0%nat) eq_refl eq_refl)
    as (_ & e & _ & Hinst).
  exists e. split; [exact Hinst |].
  apply (Hready e Hinst [Call; Resume 2]).
Defined.

(** A load that fails clears the variables, and the next call starts
    again with a new [FFmpeg] object. *)
Example retry_after_failure :
  let s := run true [Call; NetworkFail 0 "Failed to fetch"; Resume 0; Call] init in
  callers s = [Failed "Failed to load FFmpeg: Failed to fetch"; Awaiting 1%nat] /\
  constructed s = 2%nat /\ loadsStarted s = 2%nat /\
  length (loaders s) = 1%nat.
Proof. cbv zeta. repeat split; reflexivity. Qed.

(** C2 fails as stated.  A browser session that calls [getFFmpeg] of the
    audio splitter and then [getFFmpeg] of the audio extractor has two
    initializations in flight at once; when both have gone through, two
    loads have run, two [FFmpeg] objects exist and the two callers hold
    different engines.  And within one module a load that fails is
    followed, at the next call, by a second [FFmpeg] object, which is the
    one that caller receives. *)
Lemma engine_per_module_counterexample :
  let both := PageSessions.run true
                [(PageSessions.Splitter, Call); (PageSessions.Extractor, Call)]
                PageSessions.init in
  let ready := PageSessions.run true
                 [(PageSessions.Splitter, NetworkOk 0);
                  (PageSessions.Extractor, NetworkOk 0);
                  (PageSessions.Splitter, NetworkOk 0);
                  (PageSessions.Extractor, NetworkOk 0);
                  (PageSessions.Splitter, NetworkOk 0);
                  (PageSessions.Extractor, NetworkOk 0);
                  (PageSessions.Splitter, Resume 0);
                  (PageSessions.Extractor, Resume 0)] both in
  let retried := run true [Call; NetworkFail 0 "Failed to fetch"; Resume 0;
                           Call; NetworkOk 1; NetworkOk 1; NetworkOk 1;
                           Resume 1] init in
  PageSessions.inFlight both = 2%nat /\
  PageSessions.loadsOnPage ready = 2%nat /\
  PageSessions.constructedOnPage ready = 2%nat /\
  callers (PageSessions.splitter ready) = [Resolved (Some 0%nat)] /\
  callers (PageSessions.extractor ready) = [Resolved (Some 0%nat)] /\
  PageSessions.engineOf PageSessions.Splitter ready =
    Some (PageSessions.Splitter, 0%nat) /\
  PageSessions.engineOf PageSessions.Extractor ready =
    Some (PageSessions.Extractor, 0%nat) /\
  PageSessions.engineOf PageSessions.Splitter ready <>
    PageSessions.engineOf PageSessions.Extractor ready /\
  callers retried =
    [Failed "Failed to load FFmpeg: Failed to fetch"; Resolved (Some 1%nat)] /\
  constructed retried = 2%nat /\ loadsStarted retried = 2%nat.
Proof.
  cbv zeta. repeat split; try reflexivity. discriminate.
Qed.

End Singleton.

(** * Further properties of the tools *)

(** ** The frame-extraction batch: progress and object URLs *)

Section BatchEffects.
Import JS Runtime Spec Hygiene FrameExtractor.

Lemma extractFrame_progressLog (env : Env) (file : File)
    (options : FrameExtractionOptions) (w : World BatchProgress) :
  progressLog (snd (extractFrameFromVideo env file options w)) = progressLog w.
Proof.
  unfold extractFrameFromVideo.
  destruct (canvasContext env); cbn [negb]; [| reflexivity].
  unfold bind at 1. cbn [createObjectURL].
  destruct (loadVideo env file) as [video |]; [| reflexivity].
  unfold bind. cbn.
  destruct (canvasToBlob env file _ _ _); reflexivity.
Qed.

Lemma extractFramesFrom_progressLog (env : Env)
    (options : FrameExtractionOptions) (files : list File) :
  forall (i total : nat) (extracted : list ProcessedFile)
         (w : World BatchProgress),
  progressLog (snd (extractFramesFrom env files i total options extracted w)) =
  progressLog w ++ map (fun j => (S j, total)) (seq i (length files)).
Proof.
  induction files as [| file rest IH]; intros i total extracted w.
  - cbn. rewrite app_nil_r. reflexivity.
  - cbn [extractFramesFrom length seq map].
    unfold bind at 1, onProgress at 1. unfold bind at 1, tryCatch, bind at 1.
    pose proof (extractFrame_progressLog env file options
                  (mkWorld (vfs w) (execLog w) (seekLog w) (frameLog w)
                     (nextURL w) (liveURLs w) (progressLog w ++ [(S i, total)])))
      as Hlog.
    destruct (extractFrameFromVideo env file options _) as [[a | e] w1];
      cbn in Hlog; unfold ret; cbv beta iota; rewrite IH, Hlog, <- app_assoc;
      reflexivity.
Qed.

(** The batch reports progress once for every file, failed or not:
    [(1, n)], [(2, n)], ..., [(n, n)]. *)
Theorem extractFrames_progress (env : Env) (files : list File)
    (options : FrameExtractionOptions) (w : World BatchProgress) :
  emitted w (snd (extractFrames env files options w)) =
  map (fun j => (S j, length files)) (seq 0 (length files)).
Proof.
  unfold emitted, extractFrames.
  rewrite extractFramesFrom_progressLog, drop_app_length. reflexivity.
Qed.

End BatchEffects.

(** ** Object URLs of the frame extractor *)

Local Set Warnings "-clear-no-such-hyp".

Section BatchURLs.
Import JS Runtime Spec Hygiene FrameExtractor.

(** One extraction revokes the URL of its source on every path; only the
    URL of the artifact stays. *)
Lemma extractFrame_urls (env : Env) (file : File)
    (options : FrameExtractionOptions) (w : World BatchProgress) :
  urlsFresh w ->
  let r := extractFrameFromVideo env file options w in
  urlsFresh (snd r) /\ (nextURL w <= nextURL (snd r))%nat /\
  match fst r with
  | Returns a =>
      liveURLs (snd r) = {[pf_url a]} ∪ liveURLs w /\
      (nextURL w <= pf_url a < nextURL (snd r))%nat
  | Throws _ => liveURLs (snd r) = liveURLs w
  end.
Proof.
  intros Hfresh. cbv zeta. unfold extractFrameFromVideo.
  destruct (canvasContext env); cbn [negb];
    [| cbn; split; [exact Hfresh | split; [lia | reflexivity]]].
  unfold bind at 1 2 3 4 5. cbn [createObjectURL fst snd].
  assert (Hnot : nextURL w ∉ liveURLs w).
  { intros Hin. apply Hfresh in Hin. lia. }
  assert (Hback : ({[nextURL w]} ∪ liveURLs w) ∖ {[nextURL w]} = liveURLs w)
    by set_solver.
  assert (Hold : forall u k, u ∈ liveURLs w -> (u < k + nextURL w)%nat).
  { intros u k Hu. apply Hfresh in Hu. lia. }
  unfold urlsFresh.
  destruct (loadVideo env file) as [video |].
  - unfold bind, setCurrentTime, revokeObjectURL, createObjectURL. cbn.
    destruct (canvasToBlob env file _ _ _); cbn; rewrite Hback.
    + repeat split; try lia.
      intros u Hu. apply elem_of_union in Hu. destruct Hu as [Hu | Hu].
      * apply elem_of_singleton in Hu. subst u. lia.
      * apply (Hold u 2%nat) in Hu. exact Hu.
    + repeat split; try lia. intros u Hu. apply (Hold u 1%nat) in Hu. exact Hu.
  - unfold bind, revokeObjectURL. cbn. rewrite Hback.
    repeat split; try lia. intros u Hu. apply (Hold u 1%nat) in Hu. exact Hu.
Qed.

Lemma extractFramesFrom_urls (env : Env) (options : FrameExtractionOptions)
    (files : list File) :
  forall (i total : nat) (extracted : list ProcessedFile)
         (w : World BatchProgress),
  urlsFresh w ->
  exists l w',
    extractFramesFrom env files i total options extracted w =
      (Returns (extracted ++ l), w') /\
    urlsFresh w' /\
    liveURLs w' = list_to_set (map pf_url l) ∪ liveURLs w /\
    NoDup (map pf_url l) /\
    Forall (fun a => (nextURL w <= pf_url a < nextURL w')%nat) l /\
    (nextURL w <= nextURL w')%nat.
Proof.
  induction files as [| file rest IH]; intros i total extracted w Hfresh.
  - exists [], w. cbn. rewrite app_nil_r.
    repeat split; try assumption; try constructor. set_solver.
  - cbn [extractFramesFrom].
    unfold bind at 1, onProgress at 1. unfold bind at 1, tryCatch, bind at 1.
    cbv beta.
    match goal with
    | |- context [extractFrameFromVideo env file options ?x] => set (w0 := x)
    end.
    assert (Hfresh0 : urlsFresh w0) by exact Hfresh.
    pose proof (extractFrame_urls env file options w0 Hfresh0) as Hone.
    cbv zeta in Hone.
    destruct (extractFrameFromVideo env file options w0) as [[a | e] w1].
    + cbn [fst snd] in Hone.
      destruct Hone as (Hfresh1 & Hnext & Hlive & Hurl).
      unfold ret. cbv beta iota.
      destruct (IH (S i) total (extracted ++ [a]) w1 Hfresh1)
        as (l & w' & Hrun & Hfresh' & Hlive' & Hnodup & Hall & Hnext').
      exists (a :: l), w'. rewrite Hrun, <- app_assoc.
      split; [reflexivity |]. split; [exact Hfresh' |].
      change (nextURL w0) with (nextURL w) in *.
      change (liveURLs w0) with (liveURLs w) in *.
      split; [rewrite Hlive', Hlive; cbn; set_solver |].
      split.
      { cbn. constructor; [| exact Hnodup].
        intros Hin. apply list_elem_of_In in Hin. apply in_map_iff in Hin.
        destruct Hin as (b & Hb & Hbin).
        rewrite Forall_forall in Hall. apply list_elem_of_In in Hbin.
        specialize (Hall b Hbin). lia. }
      split; [| lia].
      constructor; [lia |].
      eapply Forall_impl; [exact Hall |]. cbn. intros b Hb. lia.
    + cbn [fst snd] in Hone. destruct Hone as (Hfresh1 & Hnext & Hlive).
      unfold ret. cbv beta iota.
      destruct (IH (S i) total extracted w1 Hfresh1)
        as (l & w' & Hrun & Hfresh' & Hlive' & Hnodup & Hall & Hnext').
      exists l, w'. rewrite Hrun.
      change (nextURL w0) with (nextURL w) in *.
      change (liveURLs w0) with (liveURLs w) in *.
      split; [reflexivity |]. split; [exact Hfresh' |].
      split; [rewrite Hlive', Hlive; reflexivity |].
      split; [exact Hnodup |]. split; [| lia].
      eapply Forall_impl; [exact Hall |]. cbn. intros b Hb. lia.
Qed.

(** After a batch the object URLs that the batch left live are exactly the
    URLs of the returned artifacts, which are new and pairwise distinct:
    the URL of every source video has been revoked, for the files that
    failed as well. *)
Theorem extractFrames_object_urls (env : Env) (files : list File)
    (options : FrameExtractionOptions) (w : World BatchProgress) :
  urlsFresh w ->
  exists l w',
    extractFrames env files options w = (Returns l, w') /\
    liveURLs w' = list_to_set (map pf_url l) ∪ liveURLs w /\
    NoDup (map pf_url l) /\
    Forall (fun a => pf_url a ∉ liveURLs w) l /\
    urlsFresh w'.
Proof.
  intros Hfresh. unfold extractFrames.
  destruct (extractFramesFrom_urls env options files 0 (length files) [] w Hfresh)
    as (l & w' & Hrun & Hfresh' & Hlive & Hnodup & Hall & _).
  exists l, w'. split; [exact Hrun |]. split; [exact Hlive |].
  split; [exact Hnodup |]. split; [| exact Hfresh'].
  eapply Forall_impl; [exact Hall |]. cbn. intros a Ha Hin.
  apply Hfresh in Hin. lia.
Qed.

Lemma emptyWorld_urlsFresh {E} : urlsFresh (emptyWorld : World E).
Proof. intros u Hu. cbn in Hu. set_solver. Qed.

Lemma extractFrames_object_urls_witness :
  exists l w',
    extractFrames Scenario.browser
      [Scenario.clip; Scenario.corrupt; Scenario.holiday] Scenario.lastPng
      emptyWorld = (Returns l, w') /\
    liveURLs w' = list_to_set (map pf_url l) ∪ ∅.
Proof.
  destruct (extractFrames_object_urls Scenario.browser
              [Scenario.clip; Scenario.corrupt; Scenario.holiday]
              Scenario.lastPng emptyWorld emptyWorld_urlsFresh)
    as (l & w' & Hrun & Hlive & _).
  exists l, w'. split; [exact Hrun | exact Hlive].
Defined.

End BatchURLs.

(** ** The comparison helper of the frame extractor *)

Section Comparison.
Import JS Runtime Spec FrameExtractor FrameComparison.

Lemma filter_all_succeeded (env : Env) (options : FrameExtractionOptions)
    (files : list File) :
  Forall (fun f => succeeded env options f = true) files ->
  List.filter (succeeded env options) files = files.
Proof.
  induction 1 as [| f files Hf _ IH]; [reflexivity |].
  cbn [List.filter]. rewrite Hf, IH. reflexivity.
Qed.

(** When every file of a batch yields a frame, the comparison helper pairs
    each artifact with the file it was extracted from; outside the indices
    of the artifacts it returns nothing. *)
Theorem comparison_after_full_batch (env : Env) (files : list File)
    (options : FrameExtractionOptions) (w : World BatchProgress)
    (l : list ProcessedFile) :
  Forall (fun f => succeeded env options f = true) files ->
  fst (extractFrames env files options w) = Returns l ->
  forall index : Z,
    match getOriginalFileForComparison index files l with
    | Some f =>
        (0 <= index < Z.of_nat (length files))%Z /\
        exists a, l !! Z.to_nat index = Some a /\ artifactOf options a f
    | None => (index < 0)%Z \/ (Z.of_nat (length files) <= index)%Z
    end.
Proof.
  intros Hall Hrun index. unfold extractFrames in Hrun.
  destruct (extractFramesFrom_result env options files 0 (length files) [] w)
    as (l' & Hl' & Hart).
  rewrite Hl' in Hrun. injection Hrun as <-.
  rewrite (filter_all_succeeded env options files Hall) in Hart.
  pose proof (Forall2_length _ _ _ Hart) as Hlen.
  unfold getOriginalFileForComparison. rewrite Hlen.
  destruct (Z.leb_spec 0 index) as [H0 | H0]; cbn [andb]; [| left; lia].
  destruct (Z.ltb_spec index (Z.of_nat (length files))) as [H1 | H1];
    cbn [andb]; [| right; lia].
  destruct (files !! Z.to_nat index) as [f |] eqn:Hf.
  - split; [lia |].
    destruct (Forall2_lookup_r _ _ _ _ _ Hart Hf) as (a & Ha & Haf).
    exists a. split; assumption.
  - apply lookup_ge_None in Hf. lia.
Qed.

Lemma comparison_after_full_batch_witness :
  let files := [Scenario.clip; Scenario.holiday] in
  let l := match fst (extractFrames Scenario.browser files Scenario.lastPng
                        emptyWorld) with
           | Returns l => l
           | Throws _ => []
           end in
  match getOriginalFileForComparison 1 files l with
  | Some f =>
      (0 <= 1 < Z.of_nat (length files))%Z /\
      exists a, l !! Z.to_nat 1 = Some a /\
                artifactOf Scenario.lastPng a f
  | None => (1 < 0)%Z \/ (Z.of_nat (length files) <= 1)%Z
  end.
Proof.
  intros files l.
  apply (comparison_after_full_batch Scenario.browser files Scenario.lastPng
           emptyWorld l).
  - repeat constructor.
  - subst l files. vm_compute. reflexivity.
Defined.

(** After a file that fails, the helper pairs the artifacts with the wrong
    files: the first artifact comes from the second file, and the helper
    returns the first file for it. *)
Theorem comparison_shifted_after_failure (env : Env) (f0 f1 : File)
    (rest : list File) (options : FrameExtractionOptions)
    (w : World BatchProgress) (l : list ProcessedFile) :
  succeeded env options f0 = false ->
  succeeded env options f1 = true ->
  fst (extractFrames env (f0 :: f1 :: rest) options w) = Returns l ->
  exists a,
    l !! 0%nat = Some a /\ artifactOf options a f1 /\
    getOriginalFileForComparison 0 (f0 :: f1 :: rest) l = Some f0.
Proof.
  intros H0 H1 Hrun. unfold extractFrames in Hrun.
  destruct (extractFramesFrom_result env options (f0 :: f1 :: rest) 0
              (length (f0 :: f1 :: rest)) [] w) as (l' & Hl' & Hart).
  rewrite Hl' in Hrun. injection Hrun as <-.
  cbn [List.filter] in Hart. rewrite H0, H1 in Hart.
  inversion Hart as [| a ? l1 ? Ha _]; subst.
  exists a. split; [reflexivity |]. split; [exact Ha |]. reflexivity.
Qed.

Lemma comparison_shifted_after_failure_witness :
  exists a,
    pf_name a = "holiday_last-frame.png"%string /\
    getOriginalFileForComparison 0 [Scenario.corrupt; Scenario.holiday] [a] =
      Some Scenario.corrupt.
Proof.
  destruct (comparison_shifted_after_failure Scenario.browser Scenario.corrupt
              Scenario.holiday [] Scenario.lastPng emptyWorld
              (match fst (extractFrames Scenario.browser
                            [Scenario.corrupt; Scenario.holiday]
                            Scenario.lastPng emptyWorld) with
               | Returns l => l
               | Throws _ => []
               end) eq_refl eq_refl eq_refl) as (a & Ha & [Hname _] & _).
  exists a. split; [exact Hname | reflexivity].
Defined.

End Comparison.

(** ** The object URLs of the probes and of the GIF converter *)

Section ProbeURLs.
Import JS Runtime Spec Hygiene.

Lemma revoke_created (L : gset nat) (n : nat) :
  n ∉ L -> ({[n]} ∪ L) ∖ {[n]} = L.
Proof. intros Hn. set_solver. Qed.

Lemma urlsFresh_next {E} (w : World E) : urlsFresh w -> nextURL w ∉ liveURLs w.
Proof. intros Hfresh Hin. apply Hfresh in Hin. lia. Qed.

(** The three metadata probes create one object URL and revoke it again,
    whether the file decodes or not: a probe leaves the live object URLs
    as it found them. *)
Theorem probes_leave_no_object_url (env : Env) (file : File)
    (ws : World AudioSplitter.AudioSplitProgress)
    (wg : World VideoToGif.ConversionProgress)
    (we : World AudioExtractor.AudioExtractionProgress) :
  urlsFresh ws -> urlsFresh wg -> urlsFresh we ->
  urlsAre (liveURLs ws) (S (nextURL ws))
    (snd (AudioSplitter.getAudioMetadata env file ws)) /\
  urlsAre (liveURLs wg) (S (nextURL wg))
    (snd (GifMetadata.getVideoMetadata env file wg)) /\
  urlsAre (liveURLs we) (S (nextURL we))
    (snd (ExtractorMetadata.getVideoMetadata env file we)).
Proof.
  intros Hs Hg He.
  apply urlsFresh_next in Hs, Hg, He.
  unfold AudioSplitter.getAudioMetadata, GifMetadata.getVideoMetadata,
    ExtractorMetadata.getVideoMetadata, urlsAre.
  destruct (loadAudio env file), (loadVideo env file); cbn;
    rewrite !revoke_created by assumption; repeat split; reflexivity.
Qed.

Lemma probes_leave_no_object_url_witness :
  urlsAre ∅ 1
    (snd (AudioSplitter.getAudioMetadata Scenario.browser Scenario.corrupt
            emptyWorld)) /\
  urlsAre ∅ 1
    (snd (GifMetadata.getVideoMetadata Scenario.browser Scenario.corrupt
            (emptyWorld : World VideoToGif.ConversionProgress))) /\
  urlsAre ∅ 1
    (snd (ExtractorMetadata.getVideoMetadata Scenario.browser Scenario.corrupt
            (emptyWorld : World AudioExtractor.AudioExtractionProgress))).
Proof.
  apply (probes_leave_no_object_url Scenario.browser Scenario.corrupt
           emptyWorld emptyWorld emptyWorld);
    intros u Hu; cbn in Hu; set_solver.
Defined.

End ProbeURLs.

Section GifURLs.
Import JS Runtime Spec Hygiene VideoToGif.

Lemma urlsAre_onProgress {E} (L : gset nat) (n : nat) (e : E) :
  preserves (urlsAre L n) (onProgress e).
Proof. intros w Hw. exact Hw. Qed.

Lemma urlsAre_captureFrame (L : gset nat) (n : nat) (env : Env) (file : File)
    (options : GifConversionOptions) (videoDuration : Q) (totalFrames : Z)
    (i : nat) :
  preserves (urlsAre L n)
    (captureFrame env file options videoDuration totalFrames i).
Proof.
  unfold captureFrame, seekToTime. repeat keeps.
  - intros w Hw. exact Hw.
  - destruct (seekSettles env file _); keeps.
  - intros w Hw. exact Hw.
  - apply urlsAre_onProgress.
Qed.

(** The conversion from a world whose live URLs are [L]: the source URL
    [n] is revoked on every path, and only the URL of the GIF is added. *)
Lemma convertVideoToGif_urlsAre (env : Env) (file : File)
    (options : GifConversionOptions) (L : gset nat) (n : nat) :
  n ∉ L ->
  ensures (urlsAre L n) (convertVideoToGif env file options)
    (fun a w' => pf_url a = S n /\ urlsAre ({[S n]} ∪ L) (S (S n)) w')
    (fun _ w' => liveURLs w' = L).
Proof.
  intros Hn. unfold convertVideoToGif.
  destruct (canvasContext env); cbn [negb];
    [| apply ensures_throw; intros w [Hw _]; exact Hw].
  eapply ensures_bind with (R := fun _ => urlsAre L n).
  { eapply ensures_weaken; [apply (urlsAre_onProgress L n) | auto | auto |].
    intros e w [Hw _]. exact Hw. }
  intros _u.
  eapply ensures_bind
    with (R := fun src w => src = n /\ urlsAre ({[n]} ∪ L) (S n) w).
  { intros w [Hl Hx]. cbn. rewrite Hl, Hx. repeat split. }
  intros src.
  destruct (loadVideo env file) as [video |].
  - eapply ensures_tryCatch
      with (R := fun _ w => src = n /\ urlsAre ({[n]} ∪ L) (S n) w).
    + assert (Hkeep : forall A (m : Run ConversionProgress A),
                preserves (urlsAre ({[n]} ∪ L) (S n)) m ->
                ensures (fun w => src = n /\ urlsAre ({[n]} ∪ L) (S n) w) m
                  (fun _ w => src = n /\ urlsAre ({[n]} ∪ L) (S n) w)
                  (fun _ w => src = n /\ urlsAre ({[n]} ∪ L) (S n) w)).
      { intros A m Hm w [Hsrc Hw]. specialize (Hm w Hw).
        destruct (m w) as [[a | e] w']; split; assumption. }
      eapply ensures_bind; [apply Hkeep, urlsAre_onProgress |]. intros _u1.
      eapply ensures_bind; [apply Hkeep, urlsAre_onProgress |]. intros _u2.
      eapply ensures_bind.
      { apply Hkeep. apply preserves_forLoop. intros j.
        apply urlsAre_captureFrame. }
      intros _u3.
      eapply ensures_bind; [apply Hkeep, urlsAre_onProgress |]. intros _u4.
      eapply ensures_bind.
      { apply Hkeep. intros w Hw. exact Hw. }
      intros frames.
      eapply ensures_bind.
      { apply Hkeep. apply preserves_forEach. intros p.
        apply urlsAre_onProgress. }
      intros _u5.
      eapply ensures_bind with (R := fun _ => urlsAre L (S n)).
      { intros w [-> [Hl Hx]]. cbn. rewrite Hl.
        split; [apply revoke_created; exact Hn | exact Hx]. }
      intros _u6.
      eapply ensures_bind
        with (R := fun url w => url = S n /\ urlsAre ({[S n]} ∪ L) (S (S n)) w).
      { intros w [Hl Hx]. cbn. rewrite Hl, Hx. repeat split. }
      intros url.
      eapply ensures_bind
        with (R := fun _ w => url = S n /\ urlsAre ({[S n]} ∪ L) (S (S n)) w).
      { intros w Hw. exact Hw. }
      intros _u7. apply ensures_ret. intros w Hw. exact Hw.
    + intros e. eapply ensures_bind with (R := fun _ w => liveURLs w = L).
      { intros w [-> [Hl Hx]]. cbn. rewrite Hl. apply revoke_created, Hn. }
      intros _u1. apply ensures_throw. auto.
  - eapply ensures_bind with (R := fun _ w => liveURLs w = L).
    { intros w [-> [Hl Hx]]. cbn. rewrite Hl. apply revoke_created, Hn. }
    intros _u1. apply ensures_throw. auto.
Qed.

(** A GIF conversion never leaves the object URL of its source video
    live: when it throws (no canvas, a video that does not load, a seek
    that times out) the live URLs are those it started with, and when it
    returns, the URL of the GIF, which is new, is all that it added. *)
Theorem convertVideoToGif_object_urls (env : Env) (file : File)
    (options : GifConversionOptions) (w : World ConversionProgress) :
  urlsFresh w ->
  match convertVideoToGif env file options w with
  | (Returns a, w') =>
      (pf_url a ∉ liveURLs w) /\ liveURLs w' = {[pf_url a]} ∪ liveURLs w
  | (Throws _, w') => liveURLs w' = liveURLs w
  end.
Proof.
  intros Hfresh.
  pose proof (convertVideoToGif_urlsAre env file options (liveURLs w)
                (nextURL w) (urlsFresh_next w Hfresh) w
                (conj eq_refl eq_refl)) as Hrun.
  destruct (convertVideoToGif env file options w) as [[a | e] w'];
    [| exact Hrun].
  destruct Hrun as [Hurl [Hlive _]]. rewrite Hurl. split; [| exact Hlive].
  intros Hin. apply Hfresh in Hin. lia.
Qed.

Lemma convertVideoToGif_object_urls_witness :
  match convertVideoToGif Scenario.browser Scenario.clip
          (Scenario.gifOptions 0 10) emptyWorld with
  | (Returns a, w') =>
      (pf_url a ∉ (∅ : gset nat)) /\ liveURLs w' = {[pf_url a]} ∪ ∅
  | (Throws _, w') => liveURLs w' = ∅
  end.
Proof.
  apply (convertVideoToGif_object_urls Scenario.browser Scenario.clip
           (Scenario.gifOptions 0 10) emptyWorld).
  exact emptyWorld_urlsFresh.
Defined.

End GifURLs.

(** ** A split that fails part of the way *)

Section SplitAbort.
Import JS Runtime Spec Hygiene AudioSplitter.

Variables (env : Env) (file : File) (segmentLength : Q) (totalSegments : Z).
Variables (inputFileName fileExtension baseName : string).

Local Abbreviation argsOf j :=
  (segmentArgs inputFileName (outputFileNameOf fileExtension j)
     segmentLength j).
Local Abbreviation failure j msg :=
  (mkError ("FFmpeg failed for segment " ++ String_ (Z.of_nat j + 1) ++ ": " ++
            msg)).

Lemma processSegment_rejects (i : nat) (processedFiles : list ProcessedFile)
    (w : World AudioSplitProgress) (msg : string) :
  engineExec env (argsOf i) (vfs w) = ExecRejects msg ->
  exists w',
    processSegment env file segmentLength totalSegments inputFileName
      fileExtension baseName i processedFiles w = (Throws (failure i msg), w') /\
    execLog w' = execLog w ++ [argsOf i] /\
    vfs w' = vfs w /\
    nextURL w' = nextURL w /\
    liveURLs w' = liveURLs w /\
    progressLog w' = progressLog w ++ [segmentEvent totalSegments i].
Proof.
  intros Hexec.
  unfold processSegment, bind, tryCatch, exec, bind, logExec, onProgress.
  cbn [vfs execLog seekLog frameLog nextURL liveURLs progressLog].
  rewrite Hexec. unfold throw.
  eexists. split; [reflexivity |]. repeat split.
Qed.

Lemma urlRange_S (n k : nat) :
  urlRange n (S k) = {[n]} ∪ urlRange (S n) k.
Proof. reflexivity. Qed.

(** The loop stops at the first segment that the engine rejects. *)
Lemma segmentLoop_aborts (msg : string) (k : nat) :
  forall (n i : nat) (processedFiles : list ProcessedFile)
         (w : World AudioSplitProgress),
  (k < n)%nat ->
  (forall j fs, (i <= j < i + k)%nat ->
     exists reported d,
       engineExec env (argsOf j) fs = ExecResolves reported (Some d)) ->
  (forall fs, engineExec env (argsOf (i + k)) fs = ExecRejects msg) ->
  (forall j, outputFileNameOf fileExtension j <> inputFileName) ->
  exists w',
    segmentLoop env file segmentLength totalSegments inputFileName
      fileExtension baseName n i processedFiles w =
      (Throws (failure (i + k) msg), w') /\
    execLog w' = execLog w ++ map (fun j => argsOf j) (seq i (S k)) /\
    vfs w' !! inputFileName = vfs w !! inputFileName /\
    liveURLs w' = urlRange (nextURL w) k ∪ liveURLs w /\
    progressLog w' =
      progressLog w ++ map (segmentEvent totalSegments) (seq i (S k)).
Proof.
  induction k as [| k IH]; intros n i pfs w Hk Hok Hbad Hne.
  - destruct n as [| n]; [lia |]. cbn [segmentLoop]. unfold bind at 1.
    replace (i + 0)%nat with i in * by lia.
    destruct (processSegment_rejects i pfs w msg (Hbad (vfs w)))
      as (w' & -> & Hexec & Hvfs & _ & Hlive & Hlog).
    exists w'. split; [reflexivity |].
    rewrite Hexec, Hvfs, Hlive, Hlog. repeat split.
    unfold urlRange. cbn. set_solver.
  - destruct n as [| n]; [lia |]. cbn [segmentLoop]. unfold bind at 1.
    destruct (Hok i (vfs w)) as (reported & d & Hexec); [lia |].
    destruct (processSegment_resolves env file segmentLength totalSegments
                inputFileName fileExtension baseName i pfs w reported d Hexec)
      as (a & w1 & -> & Hlog1 & Hvfs1 & Hnext1 & Hlive1 & Hprog1).
    destruct (IH n (S i) (pfs ++ [a]) w1) as (w' & Hrun & Hlog & Hvfs & Hlive & Hprog).
    + lia.
    + intros j fs Hj. apply Hok. lia.
    + intros fs. replace (S i + k)%nat with (i + S k)%nat by lia. apply Hbad.
    + exact Hne.
    + replace (S i + k)%nat with (i + S k)%nat in Hrun by lia.
      exists w'. split; [exact Hrun |].
      split; [rewrite Hlog, Hlog1, <- app_assoc; reflexivity |].
      split.
      { rewrite Hvfs, Hvfs1.
        rewrite lookup_delete_ne by apply Hne.
        rewrite lookup_insert_ne by apply Hne. reflexivity. }
      split.
      { rewrite Hlive, Hlive1, Hnext1, urlRange_S. set_solver. }
      rewrite Hprog, Hprog1, <- app_assoc. reflexivity.
Qed.

End SplitAbort.

Section SplitFailure.
Import JS Runtime Spec Hygiene AudioSplitter.

(** When the engine cuts the first [k] segments and rejects the next one,
    the split throws the error of that segment and returns no artifact,
    after exactly [k + 1] commands; the staged input is still in the
    engine's filesystem, the object URLs of the [k] segments that were
    cut stay live, and no event of the stage [complete] is emitted. *)
Theorem splitAudio_aborts_on_first_failure (env : Env) (file : File)
    (segmentLength duration : Q) (totalSegments : Z) (k : nat) (msg : string)
    (w : World AudioSplitProgress) :
  let argsOf j :=
    segmentArgs (inputFileNameOf file)
      (outputFileNameOf (fileExtensionOf file) j) segmentLength j in
  loadAudio env file = Some duration ->
  planSegments duration segmentLength = inr totalSegments ->
  engineReady env = None ->
  (Z.of_nat k < totalSegments)%Z ->
  (forall j fs, (j < k)%nat ->
     exists reported d,
       engineExec env (argsOf j) fs = ExecResolves reported (Some d)) ->
  (forall fs, engineExec env (argsOf k) fs = ExecRejects msg) ->
  urlsFresh w ->
  exists w',
    splitAudio env file segmentLength w =
      (Throws (mkError ("FFmpeg failed for segment " ++
                        String_ (Z.of_nat k + 1) ++ ": " ++ msg)), w') /\
    commands w w' = map argsOf (seq 0 (S k)) /\
    vfs w' !! inputFileNameOf file = Some (content file) /\
    liveURLs w' = urlRange (S (nextURL w)) k ∪ liveURLs w /\
    map stage (emitted w w') =
      [loading; loading; splitting] ++ repeat splitting (S k).
Proof.
  intros argsOf Hload Hplan Hready Hk Hok Hbad Hfresh.
  unfold splitAudio, tryCatch.
  unfold bind at 1. unfold onProgress at 1.
  unfold bind at 1. unfold getAudioMetadata, bind at 1, createObjectURL.
  cbn [vfs execLog seekLog frameLog nextURL liveURLs progressLog].
  rewrite Hload.
  unfold bind at 1, revokeObjectURL, ret.
  cbn [vfs execLog seekLog frameLog nextURL liveURLs progressLog].
  rewrite Hplan. unfold getFFmpeg. rewrite Hready.
  unfold bind at 1, ret. unfold bind at 1, onProgress at 1.
  unfold bind at 1, writeFile at 1, setVfs.
  unfold bind at 1, onProgress at 1.
  cbn [vfs execLog seekLog frameLog nextURL liveURLs progressLog].
  unfold bind at 1.
  match goal with
  | |- context [segmentLoop _ _ _ _ _ _ _ _ _ _ ?x] => set (w0 := x)
  end.
  destruct (segmentLoop_aborts env file segmentLength totalSegments
              (inputFileNameOf file) (fileExtensionOf file)
              (stripExtension (name file)) msg k (Z.to_nat totalSegments) 0 []
              w0) as (w' & Hrun & Hlog & Hvfs & Hlive & Hprog).
  - lia.
  - intros j fs Hj. apply Hok. lia.
  - intros fs. apply Hbad.
  - apply output_is_not_input.
  - cbn [Nat.add] in Hrun. rewrite Hrun. unfold throw. cbn [message].
    exists w'. split; [reflexivity |].
    subst w0. cbn [vfs execLog seekLog frameLog nextURL liveURLs progressLog]
      in Hlog, Hvfs, Hlive, Hprog.
    split; [unfold commands; rewrite Hlog, drop_app_length; reflexivity |].
    split; [rewrite Hvfs; apply lookup_insert_eq |].
    split.
    { rewrite Hlive. rewrite revoke_created; [reflexivity |].
      apply urlsFresh_next. exact Hfresh. }
    unfold emitted. rewrite Hprog. rewrite <- !app_assoc.
    rewrite drop_app_length. rewrite !map_app, map_map.
    cbn [map app segmentEvent stage]. do 3 f_equal.
    clear. generalize 0%nat. induction (S k) as [| n IH]; intros i.
    + reflexivity.
    + cbn [seq map repeat]. rewrite IH. reflexivity.
Qed.

Lemma splitAudio_aborts_on_first_failure_witness :
  exists w',
    splitAudio Faults.secondSegmentFails Scenario.song 4 emptyWorld =
      (Throws (mkError "FFmpeg failed for segment 2: Conversion failed!"), w') /\
    length (commands emptyWorld w') = 2%nat /\
    vfs w' !! "input.mp3"%string = Some (content Scenario.song) /\
    liveURLs w' = urlRange 1 1 ∪ ∅.
Proof.
  destruct (splitAudio_aborts_on_first_failure Faults.secondSegmentFails
              Scenario.song 4 10 3 1 "Conversion failed!" emptyWorld)
    as (w' & Hrun & Hcmd & Hvfs & Hlive & _).
  - reflexivity.
  - reflexivity.
  - reflexivity.
  - lia.
  - intros j fs Hj. destruct j as [| j]; [| lia].
    exists [], [Byte.x05]. reflexivity.
  - intros fs. reflexivity.
  - exact emptyWorld_urlsFresh.
  - exists w'. split; [exact Hrun |].
    split; [rewrite Hcmd; reflexivity |].
    split; [exact Hvfs | exact Hlive].
Defined.

End SplitFailure.

(** ** The page of the GIF converter *)

Section GifPage.
Import JS Runtime Spec Hygiene VideoToGifPage.

Lemma even_rounding_fixed (w : Z) :
  (Math_round (inject_Z w / 2) * 2)%Z = w <-> Z.even w = true.
Proof.
  destruct (even_rounding w) as (Heven & _ & Hfix). cbv zeta in Heven, Hfix.
  split; [intros Heq; rewrite Heq in Heven; exact Heven | exact Hfix].
Qed.

Lemma estimate_exact (e : Z) :
  (Math_round (inject_Z (Z.max e 10) / 2) * 2)%Z = e <->
  (10 <= e)%Z /\ Z.even e = true.
Proof.
  destruct (even_rounding (Z.max e 10)) as (_ & Hbounds & _).
  cbv zeta in Hbounds. split.
  - intros Heq. assert (Hge : (10 <= e)%Z) by lia.
    split; [exact Hge |].
    rewrite Z.max_l in Heq by lia. apply even_rounding_fixed. exact Heq.
  - intros [Hge Heven]. rewrite Z.max_l by lia.
    apply even_rounding_fixed. exact Heven.
Qed.

(** The size that the page shows under the scale slider is the size of
    the GIF exactly when the shown number is even and at least 10;
    otherwise the GIF is larger, by one pixel for an odd number from 10
    on. *)
Theorem estimated_dimensions (m : GifMetadata.Metadata)
    (options : VideoToGif.GifConversionOptions) :
  let d := VideoToGif.calculateDimensions (GifMetadata.width m)
             (GifMetadata.height m) (VideoToGif.scale options) in
  exists ew eh,
    estimatedWidth (Some m) options = Some ew /\
    estimatedHeight (Some m) options = Some eh /\
    (VideoToGif.width d = ew <-> (10 <= ew)%Z /\ Z.even ew = true) /\
    (VideoToGif.height d = eh <-> (10 <= eh)%Z /\ Z.even eh = true) /\
    (ew <= VideoToGif.width d)%Z /\ (eh <= VideoToGif.height d)%Z /\
    ((10 <= ew)%Z -> (VideoToGif.width d <= ew + 1)%Z) /\
    ((10 <= eh)%Z -> (VideoToGif.height d <= eh + 1)%Z).
Proof.
  cbv zeta. eexists _, _. split; [reflexivity |]. split; [reflexivity |].
  unfold VideoToGif.calculateDimensions. cbn [VideoToGif.width VideoToGif.height].
  set (ew := Math_round (mul (GifMetadata.width m) (VideoToGif.scale options))).
  set (eh := Math_round (mul (GifMetadata.height m) (VideoToGif.scale options))).
  destruct (even_rounding (Z.max ew 10)) as (_ & Hw & _).
  destruct (even_rounding (Z.max eh 10)) as (_ & Hh & _).
  cbv zeta in Hw, Hh.
  split; [apply estimate_exact |]. split; [apply estimate_exact |].
  repeat split; lia.
Qed.

Lemma estimated_dimensions_witness :
  let m := {| GifMetadata.duration := 10; GifMetadata.width := 101;
              GifMetadata.height := 57 |} in
  let d := VideoToGif.calculateDimensions 101 57 0.5 in
  estimatedWidth (Some m) (Scenario.gifOptions 0 10) = Some 51%Z /\
  (51 <= VideoToGif.width d <= 52)%Z.
Proof.
  intros m d.
  destruct (estimated_dimensions m (Scenario.gifOptions 0 10))
    as (ew & eh & Hew & _ & _ & _ & Hle & _ & Hup & _).
  assert (Hshown : estimatedWidth (Some m) (Scenario.gifOptions 0 10) =
                   Some 51%Z) by (vm_compute; reflexivity).
  split; [exact Hshown |].
  rewrite Hshown in Hew. injection Hew as <-.
  specialize (Hup ltac:(lia)).
  change (VideoToGif.calculateDimensions (GifMetadata.width m)
            (GifMetadata.height m)
            (VideoToGif.scale (Scenario.gifOptions 0 10))) with d in Hle, Hup.
  lia.
Defined.





End GifPage.

(** ** The upload zone *)

Section UploadZone.
Import JS Runtime Spec Hygiene FileUploadZone.
Context {E : Type}.

Lemma urlRange_elem (n k u : nat) :
  u ∈ urlRange n k <-> (n <= u < n + k)%nat.
Proof.
  unfold urlRange. rewrite elem_of_list_to_set, elem_of_seq. reflexivity.
Qed.

Lemma withPreviews_run (acceptedFiles : list (File * string)) :
  forall w : World E,
  exists newFiles w',
    withPreviews acceptedFiles w = (Returns newFiles, w') /\
    map file newFiles = map fst acceptedFiles /\
    map id newFiles = map snd acceptedFiles /\
    map preview newFiles = seq (nextURL w) (length acceptedFiles) /\
    nextURL w' = (nextURL w + length acceptedFiles)%nat /\
    liveURLs w' = urlRange (nextURL w) (length acceptedFiles) ∪ liveURLs w.
Proof.
  induction acceptedFiles as [| [f randomId] rest IH]; intros w.
  - exists [], w. cbn. repeat split; try reflexivity; [lia |].
    unfold urlRange. cbn. set_solver.
  - cbn [withPreviews]. unfold bind at 1, createObjectURL at 1.
    unfold bind at 1.
    match goal with
    | |- context [withPreviews rest ?x] => set (w0 := x)
    end.
    destruct (IH w0) as (more & w' & -> & Hfile & Hid & Hprev & Hnext & Hlive).
    unfold ret. eexists _, w'. split; [reflexivity |].
    subst w0. cbn [nextURL liveURLs] in Hprev, Hnext, Hlive.
    cbn [map length seq file id preview fst snd].
    rewrite Hfile, Hid, Hprev, Hnext, Hlive, urlRange_S.
    repeat split; try reflexivity; [lia | set_solver].
Qed.

(** On the pages that keep one file, dropping files on a zone that holds
    a file changes nothing of the selection: the file stays and the
    dropped files are ignored, while the results and the error are
    cleared; on an empty zone the first dropped file is selected. A
    preview URL is created for every dropped file and none is revoked, so
    the previews of the ignored files stay live. *)
Theorem single_file_selection (s : ToolPage.State E)
    (acceptedFiles : list (File * string)) (w : World E) :
  exists s' w',
    onDrop (ToolPage.files s) (ToolPage.handleFilesChange s) acceptedFiles w =
      (Returns s', w') /\
    liveURLs w' = urlRange (nextURL w) (length acceptedFiles) ∪ liveURLs w /\
    ToolPage.processedFiles s' = [] /\ ToolPage.error s' = None /\
    (ToolPage.files s <> [] ->
     ToolPage.files s' = take 1 (ToolPage.files s)) /\
    (ToolPage.files s = [] ->
     map file (ToolPage.files s') = take 1 (map fst acceptedFiles) /\
     map preview (ToolPage.files s') =
       take 1 (seq (nextURL w) (length acceptedFiles))).
Proof.
  unfold onDrop, bind.
  destruct (withPreviews_run acceptedFiles w)
    as (newFiles & w' & -> & Hfile & Hid & Hprev & Hnext & Hlive).
  unfold ret. eexists _, w'. split; [reflexivity |].
  split; [exact Hlive |]. cbn [ToolPage.handleFilesChange
    ToolPage.processedFiles ToolPage.error ToolPage.files].
  split; [reflexivity |]. split; [reflexivity |].
  split.
  - intros Hne. destruct (ToolPage.files s) as [| f rest]; [congruence |].
    reflexivity.
  - intros ->. cbn [app]. rewrite <- Hfile, <- Hprev.
    destruct newFiles; split; reflexivity.
Qed.

(** Removing a file of a zone whose files have distinct ids and distinct
    live previews removes that file and no other, revokes its preview and
    no other, and leaves a zone of the same kind. *)
Theorem removeFile_exact (files : list FileWithPreview) (f : FileWithPreview)
    (w : World E) :
  zoneOK files w -> In f files ->
  exists files' w',
    removeFile files (fun newFiles => newFiles) (id f) w =
      (Returns files', w') /\
    (forall g, In g files' <-> In g files /\ g <> f) /\
    liveURLs w' = liveURLs w ∖ {[preview f]} /\
    zoneOK files' w'.
Proof.
  intros (Hids & Hprevs & Hlive) Hin.
  assert (Hsame : forall g, In g files -> id g = id f -> g = f).
  { clear Hprevs Hlive. induction files as [| h files IH]; [intros g [] |].
    cbn in Hids. apply NoDup_cons in Hids. destruct Hids as [Hh Hids].
    assert (Hfresh : forall g, In g files -> id g <> id h).
    { intros g Hg Heq. apply Hh. rewrite <- Heq.
      apply list_elem_of_In, in_map, Hg. }
    intros g Hg Heq. destruct Hin as [-> | Hin], Hg as [<- | Hg].
    - reflexivity.
    - exfalso. apply (Hfresh g Hg). exact Heq.
    - exfalso. apply (Hfresh f Hin). symmetry. exact Heq.
    - apply IH; assumption. }
  assert (Hfind : List.find (fun g => String.eqb (id g) (id f)) files = Some f).
  { destruct (List.find _ files) as [g |] eqn:Hfind.
    - apply find_some in Hfind. destruct Hfind as [Hg Heq].
      apply String.eqb_eq in Heq. f_equal. apply Hsame; assumption.
    - exfalso. apply (find_none _ _ Hfind f) in Hin.
      rewrite String.eqb_refl in Hin. discriminate. }
  unfold removeFile. rewrite Hfind. unfold bind, revokeObjectURL, ret.
  eexists _, _. split; [reflexivity |].
  assert (Hkept : forall g,
            In g (List.filter (fun g => negb (String.eqb (id g) (id f))) files)
            <-> In g files /\ g <> f).
  { intros g. rewrite filter_In. split.
    - intros [Hg Hne]. split; [exact Hg |]. intros ->.
      rewrite String.eqb_refl in Hne. discriminate.
    - intros [Hg Hne]. split; [exact Hg |].
      destruct (String.eqb (id g) (id f)) eqn:Heq; [| reflexivity].
      apply String.eqb_eq in Heq. exfalso. apply Hne, Hsame; assumption. }
  split; [exact Hkept |]. split; [reflexivity |].
  unfold zoneOK. cbn [liveURLs].
  assert (Hsub : forall (A : Type) (p : FileWithPreview -> A) l,
            NoDup (map p l) ->
            NoDup (map p (List.filter
                            (fun g => negb (String.eqb (id g) (id f))) l))).
  { intros A p l. induction l as [| h l IH]; [intros _; constructor |].
    cbn [map List.filter]. intros Hnd. apply NoDup_cons in Hnd.
    destruct Hnd as [Hh Hnd].
    destruct (negb (String.eqb (id h) (id f))); [| apply IH; exact Hnd].
    cbn [map]. apply NoDup_cons. split; [| apply IH; exact Hnd].
    intros Hel. apply Hh. apply list_elem_of_In in Hel.
    apply in_map_iff in Hel. destruct Hel as (g & Hg & Hgin).
    apply filter_In in Hgin. destruct Hgin as [Hgin _].
    apply list_elem_of_In. rewrite <- Hg. apply in_map. exact Hgin. }
  split; [apply Hsub; exact Hids |]. split; [apply Hsub; exact Hprevs |].
  apply Forall_forall. intros g Hg. apply list_elem_of_In in Hg.
  apply Hkept in Hg. destruct Hg as [Hg Hne].
  apply elem_of_difference. split.
  - rewrite Forall_forall in Hlive. apply Hlive, list_elem_of_In, Hg.
  - intros Heq. apply elem_of_singleton in Heq. apply Hne.
    clear -Hprevs Hg Hin Heq.
    induction files as [| h files IH]; [destruct Hg |].
    cbn in Hprevs. apply NoDup_cons in Hprevs. destruct Hprevs as [Hh Hnd].
    assert (Hfresh : forall g, In g files -> preview g <> preview h).
    { intros g' Hg' Heq'. apply Hh. rewrite <- Heq'.
      apply list_elem_of_In, in_map, Hg'. }
    destruct Hin as [-> | Hin], Hg as [<- | Hg].
    + reflexivity.
    + exfalso. apply (Hfresh g Hg). exact Heq.
    + exfalso. apply (Hfresh f Hin). symmetry. exact Heq.
    + apply IH; assumption.
Qed.

End UploadZone.

Section UploadZoneExample.
Import JS Runtime Spec Hygiene FileUploadZone.

Lemma removeFile_exact_witness :
  let a := {| file := Scenario.clip; preview := 0; id := "a1";
              originalSize := 2 |} in
  let b := {| file := Scenario.holiday; preview := 1; id := "b2";
              originalSize := 1 |} in
  exists files' w',
    removeFile [a; b] (fun newFiles => newFiles) "a1"
      (mkWorld ∅ [] [] [] 2 {[0%nat; 1%nat]} [] : World FrameExtractor.BatchProgress) =
      (Returns files', w') /\
    (In b files' /\ ~ In a files') /\
    liveURLs w' = ({[0%nat; 1%nat]} : gset nat) ∖ {[0%nat]}.
Proof.
  intros a b.
  destruct (removeFile_exact [a; b] a
              (mkWorld ∅ [] [] [] 2 {[0%nat; 1%nat]} [] : World FrameExtractor.BatchProgress))
    as (files' & w' & Hrun & Hkept & Hlive & _).
  - split; [| split].
    + cbn. repeat constructor; set_solver.
    + cbn. repeat constructor; set_solver.
    + repeat constructor; cbn; set_solver.
  - left. reflexivity.
  - exists files', w'. split; [exact Hrun |]. split; [| exact Hlive].
    split.
    + apply Hkept. split; [right; left; reflexivity | discriminate].
    + intros Ha. apply Hkept in Ha. destruct Ha as [_ Ha]. apply Ha.
      reflexivity.
Defined.

End UploadZoneExample.

(** ** The archives *)

Section Archives.
Import JS Runtime Spec Hygiene ZipUtils.

Lemma addFiles_app (files more : list ZipFile) (zip : Zip) :
  addFiles (files ++ more) zip = addFiles more (addFiles files zip).
Proof. unfold addFiles. apply fold_left_app. Qed.

Lemma addFiles_dom (files : list ZipFile) :
  forall zip : gmap string Blob,
  (dom (addFiles files zip : gmap string Blob) : gset string) =
  list_to_set (map name files) ∪ dom zip.
Proof.
  induction files as [| f files IH]; intros zip.
  - cbn. set_solver.
  - change (addFiles (f :: files) zip)
      with (addFiles files (<[name f := blob f]> zip)).
    rewrite IH, dom_insert_L. cbn [map list_to_set]. set_solver.
Qed.

Lemma addFiles_absent (files : list ZipFile) (n : string) :
  forall zip : gmap string Blob,
  ~ In n (map name files) ->
  (addFiles files zip : gmap string Blob) !! n = zip !! n.
Proof.
  induction files as [| f files IH]; intros zip Hnot; [reflexivity |].
  change (addFiles (f :: files) zip)
    with (addFiles files (<[name f := blob f]> zip)).
  rewrite IH by (intros Hin; apply Hnot; right; exact Hin).
  apply lookup_insert_ne. intros Heq. apply Hnot. left. exact Heq.
Qed.

Lemma size_names (l : list string) :
  (base.size (list_to_set l : gset string) <= length l)%nat /\
  (base.size (list_to_set l : gset string) = length l <-> NoDup l).
Proof.
  induction l as [| x l [IHle IHeq]].
  - cbn. rewrite size_empty. split; [lia |]. split; [constructor | reflexivity].
  - cbn [list_to_set length].
    destruct (decide (x ∈ l)) as [Hin | Hnot].
    + assert (Hsame : ({[x]} ∪ list_to_set l : gset string) = list_to_set l).
      { assert (x ∈ (list_to_set l : gset string))
          by (apply elem_of_list_to_set; exact Hin).
        set_solver. }
      rewrite Hsame. split; [lia |]. split; [lia |].
      intros Hnd. apply NoDup_cons in Hnd. tauto.
    + rewrite size_union by (rewrite disjoint_singleton_l, elem_of_list_to_set;
                              exact Hnot).
      rewrite size_singleton. split; [lia |]. rewrite NoDup_cons. split.
      * intros Heq. split; [exact Hnot |]. apply IHeq. lia.
      * intros [_ Hnd]. apply IHeq in Hnd. lia.
Qed.

(** An archive holds one entry for each name: of several files of one
    name the last one is kept, so the archive holds every file exactly
    when the names are pairwise distinct. The object URL of the archive
    is revoked once the download has been asked for. *)
Theorem archive_entries {E} (files : list ZipFile) (zipFileName : string)
    (w : World E) :
  urlsFresh w ->
  exists link w',
    createAndDownloadZip true files zipFileName w = (Returns link, w') /\
    downloadName link = zipFileName /\
    liveURLs w' = liveURLs w /\
    (dom (entries link : gmap string Blob) : gset string) =
      list_to_set (map name files) /\
    (base.size (entries link : gmap string Blob) <= length files)%nat /\
    (base.size (entries link : gmap string Blob) = length files <->
     NoDup (map name files)) /\
    (forall before f after,
       files = before ++ f :: after -> ~ In (name f) (map name after) ->
       (entries link : gmap string Blob) !! name f = Some (blob f)).
Proof.
  intros Hfresh. apply urlsFresh_next in Hfresh.
  unfold createAndDownloadZip, bind, createObjectURL, revokeObjectURL, ret.
  eexists _, _. split; [reflexivity |]. cbn [downloadName entries liveURLs].
  split; [reflexivity |].
  split; [apply revoke_created; exact Hfresh |].
  assert (Hdom : (dom (addFiles files ∅ : gmap string Blob) : gset string) =
                 list_to_set (map name files)).
  { pose proof (addFiles_dom files ∅) as H. rewrite dom_empty_L in H.
    rewrite (right_id_L ∅ (∪)) in H. exact H. }
  split; [exact Hdom |].
  rewrite <- size_dom, Hdom. rewrite <- (length_map name files).
  destruct (size_names (map name files)) as [Hle Heq].
  split; [exact Hle |]. split; [exact Heq |].
  intros before f after -> Hlast.
  rewrite addFiles_app.
  change (addFiles (f :: after) (addFiles before ∅))
    with (addFiles after (<[name f := blob f]> (addFiles before ∅))).
  rewrite addFiles_absent by exact Hlast. apply lookup_insert_eq.
Qed.

End Archives.

Section ArchivesOfFrames.
Import JS Runtime Spec Hygiene ZipUtils FrameExtractorPage.

Lemma archive_entries_witness :
  exists link w',
    createAndDownloadZip true
      [ {| name := "a.png"; blob := Scenario.picture |};
        {| name := "a.png"; blob := Scenario.animation |} ] "frames.zip"
      (emptyWorld : World FrameExtractor.BatchProgress) = (Returns link, w') /\
    (entries link : gmap string Blob) !! "a.png"%string =
      Some Scenario.animation /\
    (base.size (entries link : gmap string Blob) <= 2)%nat.
Proof.
  destruct (archive_entries
              [ {| name := "a.png"; blob := Scenario.picture |};
                {| name := "a.png"; blob := Scenario.animation |} ]
              "frames.zip" (emptyWorld : World FrameExtractor.BatchProgress)
              emptyWorld_urlsFresh)
    as (link & w' & Hrun & _ & _ & _ & Hsize & _ & Hlast).
  exists link, w'. split; [exact Hrun |]. split; [| exact Hsize].
  apply (Hlast [ {| name := "a.png"; blob := Scenario.picture |} ]
               {| name := "a.png"; blob := Scenario.animation |} []).
  - reflexivity.
  - intros [].
Defined.

(** Two videos whose names differ in the extension alone yield frames of
    one name: [Download All] then delivers an archive with a single
    entry, the frame of the second video. *)
Theorem frames_of_one_name_collide (options : FrameExtractor.FrameExtractionOptions)
    (f1 f2 : File) (a1 a2 : ProcessedFile)
    (framePosition : FrameExtractor.Position)
    (w : World FrameExtractor.BatchProgress) :
  artifactOf options a1 f1 -> artifactOf options a2 f2 ->
  stripExtension (Runtime.name f1) = stripExtension (Runtime.name f2) ->
  urlsFresh w ->
  exists w',
    downloadAll true [a1; a2] framePosition w =
      (Returns (Some {| downloadName := zipFileName framePosition;
                        entries := {[pf_name a2 := pf_blob a2]} |}), w') /\
    liveURLs w' = liveURLs w.
Proof.
  intros [Hn1 _] [Hn2 _] Hbase Hfresh. apply urlsFresh_next in Hfresh.
  assert (Hsame : pf_name a1 = pf_name a2).
  { rewrite Hn1, Hn2. unfold FrameExtractor.fileName. rewrite Hbase.
    reflexivity. }
  unfold downloadAll, tryCatch, bind, createAndDownloadZip, bind,
    createObjectURL, revokeObjectURL, ret.
  assert (Hentries : addFiles (zipFilesOf [a1; a2]) ∅ =
                     ({[pf_name a2 := pf_blob a2]} : gmap string Blob)).
  { unfold zipFilesOf, addFiles. cbn [map fold_left name blob].
    rewrite Hsame. apply insert_insert_eq. }
  rewrite Hentries.
  eexists. split; [reflexivity |].
  cbn [liveURLs]. apply revoke_created. exact Hfresh.
Qed.

Lemma frames_of_one_name_collide_witness :
  let a1 := {| pf_name := "clip_last-frame.png"; pf_url := 0;
               pf_blob := Scenario.picture; pf_originalSize := 2;
               pf_processedSize := 1 |} in
  let a2 := {| pf_name := "clip_last-frame.png"; pf_url := 1;
               pf_blob := Scenario.animation; pf_originalSize := 1;
               pf_processedSize := 1 |} in
  exists w',
    downloadAll true [a1; a2] FrameExtractor.last_
      (emptyWorld : World FrameExtractor.BatchProgress) =
      (Returns (Some {| downloadName := "extracted-frames-last.zip";
                        entries := {[pf_name a2 := pf_blob a2]} |}), w') /\
    liveURLs w' = ∅.
Proof.
  intros a1 a2.
  apply (frames_of_one_name_collide Scenario.lastPng Scenario.clip
           {| Runtime.name := "clip.mp4"; content := [Byte.x04] |} a1 a2
           FrameExtractor.last_ emptyWorld).
  - split; reflexivity.
  - split; reflexivity.
  - reflexivity.
  - exact emptyWorld_urlsFresh.
Defined.

End ArchivesOfFrames.

(** ** The page of the audio splitter *)

Section SplitterPage.
Import JS Runtime Spec Hygiene FileUploadZone AudioSplitterPage.

Variable parseFloat : string -> option Q.

(** A segment length that is no number, or is not positive, stops
    [handleSplit] before anything runs: the page shows its own message,
    keeps the earlier results, and the world is untouched (no probe, no
    engine command, no progress event). *)
Theorem handleSplit_rejects_bad_length (env : Env) (segmentLength : string)
    (s : ToolPage.State AudioSplitter.AudioSplitProgress)
    (w : World AudioSplitter.AudioSplitProgress) :
  ToolPage.files s <> [] ->
  match parseFloat segmentLength with
  | Some length => length <= 0
  | None => True
  end ->
  exists s',
    handleSplit parseFloat env segmentLength s w = (Returns s', w) /\
    ToolPage.error s' = Some "Segment length must be a positive number"%string /\
    ToolPage.processedFiles s' = ToolPage.processedFiles s /\
    ToolPage.isProcessing s' = ToolPage.isProcessing s /\
    ToolPage.progress s' = ToolPage.progress s /\
    ToolPage.files s' = ToolPage.files s.
Proof.
  intros Hfiles Hbad. unfold handleSplit.
  destruct (ToolPage.files s) as [| f rest] eqn:Hf; [congruence |].
  destruct (parseFloat segmentLength) as [length |].
  - apply Qle_bool_true in Hbad. rewrite Hbad.
    eexists. split; [reflexivity |]. cbn. repeat split.
  - eexists. split; [reflexivity |]. cbn. repeat split.
Qed.

(** With a segment length between 0 and the duration, the number of
    segments that the page announces is the number of segments that a
    successful split delivers; with a segment length above the duration
    the page announces one segment and the split is refused. *)
Theorem estimatedSegments_agrees (env : Env) (segmentLength : string)
    (f : FileWithPreview) (rest : list FileWithPreview) (duration length : Q)
    (s s' : ToolPage.State AudioSplitter.AudioSplitProgress)
    (w : World AudioSplitter.AudioSplitProgress) :
  ToolPage.files s = f :: rest ->
  loadAudio env (file f) = Some duration ->
  segmentLength <> ""%string ->
  parseFloat segmentLength = Some length ->
  0 < length -> 0 < duration ->
  fst (handleSplit parseFloat env segmentLength s w) = Returns s' ->
  (length <= duration -> ToolPage.error s' = None ->
   estimatedSegments parseFloat (Some duration) segmentLength =
     Some (Z.of_nat (List.length (ToolPage.processedFiles s')))) /\
  (duration < length ->
   estimatedSegments parseFloat (Some duration) segmentLength = Some 1%Z /\
   ToolPage.error s' =
     Some "Segment length cannot be greater than audio duration"%string /\
   ToolPage.processedFiles s' = ToolPage.processedFiles s).
Proof.
  intros Hfiles Hload Hne Hparse Hpos Hdur Hrun.
  assert (Hq : 0 < duration / length).
  { apply Qlt_shift_div_l; [exact Hpos | lra]. }
  unfold handleSplit in Hrun. rewrite Hfiles, Hparse in Hrun.
  assert (Hnot : Qle_bool length 0 = false) by (apply Qle_bool_false; exact Hpos).
  rewrite Hnot in Hrun. unfold ToolPage.runTool in Hrun.
  split.
  - intros Hle Hok.
    assert (Hest : estimatedSegments parseFloat (Some duration) segmentLength =
                   Some (Math_ceil (div duration length))).
    { unfold estimatedSegments. destruct segmentLength; [congruence |].
      rewrite Hparse.
      destruct (Qeq_bool (div duration length) 0) eqn:Hz; [| reflexivity].
      apply Qeq_bool_iff in Hz.
      pose proof (div_ge_1 duration length Hpos Hle). lra. }
    destruct (AudioSplitter.splitAudio env (file f) length w)
      as [[results | err] w'] eqn:Hsplit; cbn in Hrun; injection Hrun as <-;
      [| discriminate].
    cbn [ToolPage.processedFiles].
    apply splitAudio_returns in Hsplit.
    destruct Hsplit as (duration' & Hload' & _ & _ & Hrest).
    rewrite Hload in Hload'. injection Hload' as <-. cbv zeta in Hrest.
    destruct Hrest as (Hone & Hnames & _).
    rewrite Hest. f_equal.
    apply (f_equal (@List.length _)) in Hnames.
    rewrite !length_map, length_seq in Hnames. rewrite Hnames. lia.
  - intros Hlong.
    assert (Hest : estimatedSegments parseFloat (Some duration) segmentLength =
                   Some 1%Z).
    { unfold estimatedSegments. destruct segmentLength; [congruence |].
      rewrite Hparse.
      destruct (Qeq_bool (div duration length) 0) eqn:Hz; [reflexivity |].
      apply Qeq_bool_neq in Hz. f_equal.
      assert (Hlt : duration / length <= 1).
      { apply Qle_shift_div_r; [exact Hpos | lra]. }
      assert (Hup : div duration length <= 1).
      { unfold div. apply fl_mono in Hlt.
        pose proof (fl_integer 1 ltac:(lia)) as H1.
        change (inject_Z 1) with 1 in H1. rewrite <- H1. exact Hlt. }
      assert (Hdown : 0 <= div duration length).
      { unfold div. assert (H0 : 0 <= duration / length) by lra.
        apply fl_mono in H0.
        pose proof (fl_integer 0 ltac:(lia)) as Hz0.
        change (inject_Z 0) with 0 in Hz0. rewrite <- Hz0. exact H0. }
      unfold Math_ceil.
      pose proof (Qle_ceiling (div duration length)) as Hc1.
      pose proof (Qceiling_lt (div duration length)) as Hc2.
      assert (H0 : (0 < Qceiling (div duration length))%Z).
      { rewrite Zlt_Qlt. change (inject_Z 0) with 0. lra. }
      assert (H1 : (Qceiling (div duration length) - 1 < 1)%Z).
      { rewrite Zlt_Qlt. change (inject_Z 1) with 1. lra. }
      lia. }
    split; [exact Hest |].
    assert (Hsplit : AudioSplitter.splitAudio env (file f) length w =
                     (Throws AudioSplitter.tooLong,
                      snd (AudioSplitter.splitAudio env (file f) length w))).
    { unfold AudioSplitter.splitAudio, tryCatch, bind,
        AudioSplitter.getAudioMetadata, bind, onProgress, createObjectURL,
        revokeObjectURL, ret.
      rewrite Hload.
      cbn [vfs execLog seekLog frameLog nextURL liveURLs progressLog].
      unfold AudioSplitter.planSegments. rewrite Hnot.
      assert (Hgt : Qle_bool length duration = false)
        by (apply Qle_bool_false; exact Hlong).
      rewrite Hgt. reflexivity. }
    rewrite Hsplit in Hrun. cbn in Hrun. injection Hrun as <-.
    split; reflexivity.
Qed.

End SplitterPage.

Section SplitterPageExample.
Import JS Runtime Spec Hygiene FileUploadZone AudioSplitterPage.

Lemma handleSplit_rejects_bad_length_witness :
  exists s',
    handleSplit (fun _ => None) Scenario.browser "abc"
      (ToolPage.mkState
         [{| file := Scenario.song; preview := 0; id := "a1";
             originalSize := 1 |}] false None [] None) emptyWorld =
      (Returns s', emptyWorld) /\
    ToolPage.error s' = Some "Segment length must be a positive number"%string.
Proof.
  destruct (handleSplit_rejects_bad_length (fun _ => None) Scenario.browser
              "abc"
              (ToolPage.mkState
                 [{| file := Scenario.song; preview := 0; id := "a1";
                     originalSize := 1 |}] false None [] None) emptyWorld)
    as (s' & Hrun & Herr & _).
  - discriminate.
  - exact I.
  - exists s'. split; [exact Hrun | exact Herr].
Defined.

Lemma estimatedSegments_agrees_witness :
  estimatedSegments (fun _ => Some 4) (Some 10) "4" = Some 3%Z.
Proof.
  pose (s := ToolPage.mkState
               [{| file := Scenario.song; preview := 0; id := "a1";
                   originalSize := 1 |}] false
               (None : option AudioSplitter.AudioSplitProgress) [] None).
  pose (s' := match fst (handleSplit (fun _ => Some 4) Scenario.browser "4" s
                           emptyWorld) with
              | Returns s' => s'
              | Throws _ => s
              end).
  destruct (estimatedSegments_agrees (fun _ => Some 4) Scenario.browser "4"
              {| file := Scenario.song; preview := 0; id := "a1";
                 originalSize := 1 |} [] 10 4 s s' emptyWorld)
    as [Hagree _].
  - reflexivity.
  - reflexivity.
  - discriminate.
  - reflexivity.
  - reflexivity.
  - reflexivity.
  - vm_compute. reflexivity.
  - rewrite Hagree; [vm_compute; reflexivity | discriminate | vm_compute; reflexivity].
Defined.

End SplitterPageExample.

(** ** The engine singleton where loading fails *)

Section SingletonFaults.
Import Spec EngineSession SessionFaults.
Local Open Scope nat_scope.

Lemma init_withoutSab : withoutSab init.
Proof.
  constructor; cbn; try reflexivity.
  - intros p st Hp. rewrite lookup_nil in Hp. discriminate.
  - intros c x Hc. rewrite lookup_nil in Hc. discriminate.
Qed.

Lemma step_withoutSab (ev : Event) (s : State) :
  withoutSab s ->
  withoutSab (step false ev s) /\
  constructed (step false ev s) = constructed s + calls [ev].
Proof.
  intros [Hinst Hld Hloaders Hloads Hprom Hcallers].
  destruct ev as [| p | p msg | c]; cbn [step calls List.filter length].
  - unfold call. rewrite Hinst, Hld. cbn. split; [| lia].
    constructor; cbn; try assumption; try reflexivity.
    + intros p st Hp. apply lookup_app_Some in Hp.
      destruct Hp as [Hp | [_ Hp]]; [exact (Hprom p st Hp) |].
      apply list_lookup_singleton_Some in Hp. destruct Hp as [_ <-].
      reflexivity.
    + intros c x Hc. rewrite length_app. cbn [length].
      apply lookup_app_Some in Hc. destruct Hc as [Hc | [_ Hc]].
      * destruct (Hcallers c x Hc) as [-> | (p & -> & Hp)];
          [left; reflexivity | right; exists p; split; [reflexivity | lia]].
      * apply list_lookup_singleton_Some in Hc. destruct Hc as [_ <-].
        right. eexists. split; [reflexivity | lia].
  - unfold networkOk. rewrite Hloaders. cbn. split; [| lia].
    constructor; assumption.
  - unfold networkFail. rewrite Hloaders. cbn. split; [| lia].
    constructor; assumption.
  - unfold resume.
    destruct (callers s !! c) as [[p | r | msg] |] eqn:Hc;
      try (split; [constructor; assumption | lia]).
    destruct (promises s !! p) as [st |] eqn:Hp;
      [| split; [constructor; assumption | lia]].
    rewrite (Hprom p st Hp). cbn. split; [| lia].
    constructor; cbn; try assumption.
    intros c' x Hc'.
    apply list_lookup_insert_Some in Hc'.
    destruct Hc' as [(_ & <- & _) | [_ Hc']]; [left; reflexivity |].
    exact (Hcallers c' x Hc').
Qed.

Lemma run_withoutSab (evs : list Event) :
  forall s, withoutSab s ->
  withoutSab (run false evs s) /\
  constructed (run false evs s) = constructed s + calls evs.
Proof.
  induction evs as [| ev evs IH]; intros s Hs.
  - cbn. split; [exact Hs | lia].
  - cbn [run fold_left].
    destruct (step_withoutSab ev s Hs) as [Hs' Hc].
    destruct (IH (step false ev s) Hs') as [Hs'' Hc'].
    split; [exact Hs'' |].
    fold (run false evs (step false ev s)). rewrite Hc', Hc.
    unfold calls. cbn [List.filter]. destruct ev; cbn [length]; lia.
Qed.

(** Where [SharedArrayBuffer] is missing, whatever the order of calls and
    resumptions: no engine is ever stored and no load is ever started,
    every call constructs one more [FFmpeg] object, no caller receives an
    engine, and a caller that waits fails with the message about
    [SharedArrayBuffer] as soon as it resumes. *)
Theorem without_sab_every_call_fails (evs : list Event) :
  let s := run false evs init in
  ffmpegInstance s = None /\
  loadsStarted s = 0 /\ loaders s = [] /\
  constructed s = calls evs /\
  length (callers s) = calls evs /\
  (forall c x, callers s !! c = Some x ->
     x = Failed unsupported \/
     exists p, x = Awaiting p /\
               callers (resume c s) !! c = Some (Failed unsupported)).
Proof.
  cbv zeta.
  destruct (run_withoutSab evs init init_withoutSab) as [Hs Hcount].
  cbn in Hcount.
  split; [exact (ws_instance _ Hs) |]. split; [exact (ws_loads _ Hs) |].
  split; [exact (ws_loaders _ Hs) |]. split; [exact Hcount |].
  split.
  - clear Hs Hcount. generalize init_withoutSab.
    change (calls evs) with (0 + calls evs).
    change 0 with (length (callers init)) at 1.
    generalize init. induction evs as [| ev evs IH]; intros s Hs.
    + cbn. lia.
    + cbn [run fold_left]. fold (run false evs (step false ev s)).
      destruct (step_withoutSab ev s Hs) as [Hs' _].
      rewrite (IH _ Hs').
      unfold calls. cbn [List.filter].
      destruct ev as [| p | p msg | c]; cbn [step length].
      * unfold call. rewrite (ws_instance _ Hs), (ws_loading _ Hs). cbn.
        rewrite length_app. cbn. lia.
      * unfold networkOk. rewrite (ws_loaders _ Hs). cbn. lia.
      * unfold networkFail. rewrite (ws_loaders _ Hs). cbn. lia.
      * unfold resume.
        destruct (callers s !! c) as [[p | r | msg] |]; try lia.
        destruct (promises s !! p) as [[| | msg] |]; cbn;
          rewrite ?length_insert; lia.
  - intros c x Hc.
    destruct (ws_callers _ Hs c x Hc) as [-> | (p & -> & Hp)];
      [left; reflexivity | right].
    exists p. split; [reflexivity |].
    unfold resume. rewrite Hc.
    destruct (promises _ !! p) as [st |] eqn:Hst;
      [| apply lookup_ge_None in Hst; lia].
    rewrite (ws_promises _ Hs p st Hst). cbn.
    apply list_lookup_insert_Some. left.
    apply lookup_lt_Some in Hc.
    split; [reflexivity | split; [reflexivity | exact Hc]].
Qed.

Lemma without_sab_every_call_fails_witness :
  let s := run false [Call; Call; Resume 0] init in
  constructed s = 2 /\
  callers s !! 0 = Some (Failed unsupported) /\
  callers (resume 1 s) !! 1 = Some (Failed unsupported).
Proof.
  cbv zeta.
  destruct (without_sab_every_call_fails [Call; Call; Resume 0])
    as (_ & _ & _ & Hmade & _ & Hcallers).
  split; [exact Hmade |]. split; [reflexivity |].
  destruct (Hcallers 1 (Awaiting 1) eq_refl) as [Hx | (p & _ & Hp)];
    [discriminate | exact Hp].
Defined.

(** When the load in flight fails, every caller that waits for it fails
    with the message of the failure behind the prefix of the load, the
    singleton is idle again, and the next call starts a new load with a
    new [FFmpeg] object and a new promise. *)
Theorem failed_load_rejects_and_resets (evs : list Event) (l : Loader)
    (msg : string) :
  let s := run true evs init in
  In l (loaders s) ->
  let p := l_promise l in
  let s1 := networkFail p msg s in
  let s2 := call true s1 in
  (forall c, callers s !! c = Some (Awaiting p) ->
     callers (resume c s1) !! c = Some (Failed (loadFailure msg))) /\
  ffmpegInstance s1 = None /\ ffmpegLoading s1 = false /\
  ffmpegLoadPromise s1 = None /\ loaders s1 = [] /\
  loadsStarted s2 = S (loadsStarted s) /\
  constructed s2 = S (constructed s) /\
  exists p',
    p' <> p /\
    callers s2 = callers s ++ [Awaiting p'] /\
    promises s2 !! p' = Some Pending /\
    loaders s2 = [ {| l_promise := p'; l_ffmpeg := constructed s;
                      l_stage := FetchCore |} ].
Proof.
  cbv zeta. intros Hl.
  pose proof (run_invariant true evs init init_invariant) as Hinv.
  set (s := run true evs init) in *.
  destruct (inv_loader s Hinv l Hl) as (Hinst & Hld & Hpr & Hpend).
  assert (Hsingle : loaders s = [l]).
  { pose proof (inv_one_loader s Hinv) as Hone.
    destruct (loaders s) as [| l0 [| l1 rest]]; cbn in *; [tauto | | lia].
    destruct Hl as [-> | []]. reflexivity. }
  assert (Hfail : networkFail (l_promise l) msg s =
            mkState None false None
              (<[l_promise l := Rejected (loadFailure msg)]> (promises s))
              (constructed s) (loadsStarted s) [] (callers s)).
  { unfold networkFail, otherLoaders. rewrite Hsingle. cbn.
    unfold isLoader. rewrite Nat.eqb_refl. cbn. rewrite Hinst. reflexivity. }
  rewrite Hfail.
  assert (Hlt : l_promise l < length (promises s)).
  { apply lookup_lt_Some in Hpend. exact Hpend. }
  split.
  { intros c Hc. unfold resume. cbn. rewrite Hc.
    rewrite list_lookup_insert_eq by exact Hlt. cbn.
    apply list_lookup_insert_Some. left.
    apply lookup_lt_Some in Hc. repeat split. exact Hc. }
  do 4 (split; [reflexivity |]).
  unfold call. cbn.
  do 2 (split; [reflexivity |]).
  exists (length (<[l_promise l := Rejected (loadFailure msg)]> (promises s))).
  rewrite length_insert.
  split; [lia |]. split; [reflexivity |]. split; [| reflexivity].
  apply lookup_app_Some. right. rewrite length_insert.
  split; [lia |]. rewrite Nat.sub_diag. reflexivity.
Qed.

Lemma failed_load_rejects_and_resets_witness :
  let s := run true [Call; Call] init in
  let s1 := networkFail 0 "Failed to fetch" s in
  callers (resume 1 s1) !! 1 =
    Some (Failed "Failed to load FFmpeg: Failed to fetch") /\
  loadsStarted (call true s1) = 2.
Proof.
  cbv zeta.
  destruct (failed_load_rejects_and_resets [Call; Call]
              {| l_promise := 0; l_ffmpeg := 0; l_stage := FetchCore |}
              "Failed to fetch") as (Hcallers & _ & _ & _ & _ & Hloads & _).
  - left. reflexivity.
  - split; [apply Hcallers; reflexivity | exact Hloads].
Defined.

End SingletonFaults.

Section UploadZoneSelection.
Import JS Runtime Spec Hygiene FileUploadZone.

Lemma single_file_selection_witness :
  let kept := {| file := Scenario.clip; preview := 0; id := "a1";
                 originalSize := 2 |} in
  let s : ToolPage.State VideoToGif.ConversionProgress :=
    ToolPage.mkState [kept] false None [] None in
  exists s' w',
    onDrop (ToolPage.files s) (ToolPage.handleFilesChange s)
      [(Scenario.holiday, "b2"%string)]
      (mkWorld ∅ [] [] [] 1 {[0%nat]} []
         : World VideoToGif.ConversionProgress) = (Returns s', w') /\
    ToolPage.files s' = [kept] /\
    liveURLs w' = urlRange 1 1 ∪ {[0%nat]}.
Proof.
  intros kept s.
  destruct (single_file_selection s [(Scenario.holiday, "b2"%string)]
              (mkWorld ∅ [] [] [] 1 {[0%nat]} []
         : World VideoToGif.ConversionProgress))
    as (s' & w' & Hrun & Hlive & _ & _ & Hkept & _).
  exists s', w'. split; [exact Hrun |]. split; [| exact Hlive].
  apply Hkept. discriminate.
Defined.

End UploadZoneSelection.

